(** * Avalon backend: game engine, snapshot store, room socket and token service

    A shallow embedding of the Go sources

    - [internal/games]      (rules configuration, engine state, [Engine.ApplyMove]),
    - [internal/store]      (snapshot and event persistence),
    - [internal/websocket]  ([handleSyncState], the loop of [Hub.Run]),
    - [internal/auth]       ([GenerateToken], [VerifyToken]),
    - [internal/ratelimit]  ([InMemory.Allow]) and [RateLimitMiddleware],

    together with the properties of the specification that concern them.

    Conventions of the embedding.
    - A Go [int] is a [Z] kept in the 64-bit range by [wrap_int]; an [int32]
      by [wrap_int32].  [/] and [%] are [Z.quot] and [Z.rem] (truncation).
    - A Go [string] is a [string]; identifiers and phase names are text, and
      the replacement of invalid UTF-8 by [encoding/json] is outside the model.
    - [map[string]string] is a [gmap string string], [[]string] a
      [list string].  In the engine state a nil and an empty collection are
      identified: the code only takes [len], ranges and indexes them.  In
      [RulesConfig], where the code compares against [nil], a slice is an
      [option].
    - [interface{}] is the tagged type [value].
    - A function returning [(T, error)] returns a [result T].
    - A [[]byte], and a string handled as bytes (a token), is a [list byte]. *)

From Stdlib Require Import ZArith Lia Sorted.
From Stdlib.Strings Require Import Byte.
From stdpp Require Import base gmap list strings fin_maps.

#[local] Set Warnings "-register-all".

(** ** Machine integers *)

Definition wrap_int (z : Z) : Z := ((z + 2 ^ 63) mod 2 ^ 64 - 2 ^ 63)%Z.
Definition wrap_int32 (z : Z) : Z := ((z + 2 ^ 31) mod 2 ^ 32 - 2 ^ 31)%Z.
Definition max_int : Z := (2 ^ 63 - 1)%Z.
Definition max_int32 : Z := (2 ^ 31 - 1)%Z.

(** [len(x)] of a slice and of a map. *)
Definition len {A} (l : list A) : Z := Z.of_nat (length l).
Definition maplen {A} (m : gmap string A) : Z := Z.of_nat (size m).

(** ** Dynamic values ([interface{}]) *)

Inductive value :=
  | VNil
  | VBool (b : bool)
  | VString (s : string)
  | VInt (z : Z)                       (* int *)
  | VFloat (z : Z)                     (* float64 holding the integer z *)
  | VStrings (l : list string)         (* []string *)
  | VInts (l : list Z)                 (* []int *)
  | VSlice (l : list value)            (* []interface{} *)
  | VStrMap (m : gmap string string)   (* map[string]string *)
  | VMap (m : gmap string value).      (* map[string]interface{} *)

(** [v.(string)] with the zero value on failure, as in [s, _ := v.(string)]. *)
Definition asString (v : option value) : string :=
  match v with Some (VString s) => s | _ => "" end.

(** ** Results and errors *)

Inductive error :=
  | ErrStore                        (* any error returned by a store call *)
  | ErrGetState                     (* "get state: ..." *)
  | ErrGameNotStarted               (* "game not started; use action start_game" *)
  | ErrOnlyStartGame                (* "only start_game allowed in lobby" *)
  | ErrGameFinished                 (* "game already finished" *)
  | ErrUnknownMoveType (t : string) (* "unknown move type %q" *)
  | ErrNoStateUpdate                (* "no state update" *)
  | ErrPersistEvent                 (* "persist event: ..." *)
  | ErrPersistSnapshot              (* "persist snapshot: ..." *)
  | ErrGetPlayers                   (* "get players: ..." *)
  | ErrPlayerCount (n lo hi : Z)    (* "player count %d not in range [%d,%d]" *)
  | ErrInitialSnapshot              (* "create initial snapshot: ..." *)
  | ErrUpdateStatus                 (* "update game status: ..." *)
  | ErrPlayerNotInGame              (* "player not in game" *)
  | ErrPayloadApproved              (* "payload must include approved: true/false" *)
  | ErrPayloadSuccess               (* "payload must include success: true/false for mission vote" *)
  | ErrAlreadyVoted                 (* "already voted" *)
  | ErrOnlyTeamMembers              (* "only team members can submit mission vote" *)
  | ErrVoteNotAllowed (phase : string)        (* "vote not allowed in phase %s" *)
  | ErrPayloadAction                (* "payload must include action or type" *)
  | ErrActionNotAllowed (a phase : string)    (* "action %q not allowed in phase %s" *)
  | ErrGameAlreadyStarted           (* "game already started" *)
  | ErrOnlyLeader                   (* "only the leader can propose a team" *)
  | ErrPayloadTeam                  (* "payload must include team_ids or team ..." *)
  | ErrTeamSize (required : Z)      (* "team must have exactly %d members for this round" *)
  | ErrNonPlayer (id : string)      (* "team includes non-player %s" *)
  | ErrNotImplemented (a : string)  (* "action %q not implemented" *)
  | PanicIndexOutOfRange.           (* no error value: the run-time panic
                                       "index out of range", which ends the
                                       call without a result *)

Inductive result (A : Type) :=
  | Ok (a : A)
  | Err (e : error).
Arguments Ok {A} a.
Arguments Err {A} e.

(** ** Rules configuration ([internal/games/config.go]) *)

Module Config.

Definition PhaseLobby : string := "lobby".
Definition PhaseTeamSelection : string := "team_selection".
Definition PhaseTeamVote : string := "team_vote".
Definition PhaseMissionVote : string := "mission_vote".
Definition PhaseMissionResolution : string := "mission_resolution".
Definition PhaseFinished : string := "finished".

Definition ActionStartGame : string := "start_game".
Definition ActionProposeTeam : string := "propose_team".
Definition ActionVote : string := "vote".
Definition ActionMissionVote : string := "vote".

Record PhaseDef := {
  Name : string;
  AllowedActions : list string;
}.

Record RulesConfig := {
  Phases : option (list PhaseDef);
  MinPlayers : Z;
  MaxPlayers : Z;
  TeamSizes : option (list Z);
  FailThreshold : Z;
}.

Definition ClassicAvalonPhases : list PhaseDef :=
  [ {| Name := PhaseLobby; AllowedActions := [ActionStartGame] |};
    {| Name := PhaseTeamSelection; AllowedActions := [ActionProposeTeam] |};
    {| Name := PhaseTeamVote; AllowedActions := [ActionVote] |};
    {| Name := PhaseMissionVote; AllowedActions := [ActionVote] |};
    {| Name := PhaseMissionResolution; AllowedActions := [] |};
    {| Name := PhaseFinished; AllowedActions := [] |} ].

Definition DefaultTeamSizesForPlayerCount (n : Z) : list Z :=
  if (n =? 5)%Z then [2; 3; 2; 3; 3]%Z
  else if (n =? 6)%Z then [2; 3; 4; 3; 4]%Z
  else if (n =? 7)%Z then [2; 3; 3; 4; 4]%Z
  else if (n =? 8)%Z then [3; 4; 4; 5; 5]%Z
  else if (n =? 9)%Z then [3; 4; 4; 5; 5]%Z
  else if (n =? 10)%Z then [3; 4; 4; 5; 5]%Z
  else [2; 3; 2; 3; 3]%Z.

Definition ClassicAvalonConfig : RulesConfig :=
  {| Phases := Some ClassicAvalonPhases;
     MinPlayers := 5;
     MaxPlayers := 10;
     TeamSizes := None;
     FailThreshold := 3 |}.

End Config.
Export Config.

(** ** Engine state ([GameState], package [games]) *)

Record GameState := {
  GameID : string;
  Phase : string;
  Status : string;
  RoundIndex : Z;
  LeaderIndex : Z;
  PlayerIDs : list string;
  Roles : gmap string string;
  ProposedTeam : list string;
  TeamVotes : gmap string string;
  MissionVotes : gmap string string;
  MissionResults : list string;
  RejectCount : Z;
  Winner : string;
  Version : Z;
}.

(** The zero value [&GameState{}]. *)
Definition emptyState : GameState :=
  {| GameID := ""; Phase := ""; Status := ""; RoundIndex := 0; LeaderIndex := 0;
     PlayerIDs := []; Roles := ∅; ProposedTeam := []; TeamVotes := ∅;
     MissionVotes := ∅; MissionResults := []; RejectCount := 0; Winner := "";
     Version := 0 |}.

(** [Clone] copies the struct and each of its collections. *)
Definition Clone (s : GameState) : GameState :=
  {| GameID := GameID s; Phase := Phase s; Status := Status s;
     RoundIndex := RoundIndex s; LeaderIndex := LeaderIndex s;
     PlayerIDs := PlayerIDs s; Roles := Roles s;
     ProposedTeam := ProposedTeam s; TeamVotes := TeamVotes s;
     MissionVotes := MissionVotes s; MissionResults := MissionResults s;
     RejectCount := RejectCount s; Winner := Winner s; Version := Version s |}.

(** [s.PlayerIDs[i]] for an index already checked to be in range. *)
Definition index (l : list string) (i : Z) : string :=
  nth (Z.to_nat i) l "".

Definition LeaderPlayerID (s : GameState) : string :=
  if ((LeaderIndex s <? 0) || (len (PlayerIDs s) <=? LeaderIndex s))%Z
  then ""
  else index (PlayerIDs s) (LeaderIndex s).

(** Field updates, one per assignment of the source. *)
Definition setGameID (x : string) (s : GameState) : GameState :=
  {| GameID := x; Phase := Phase s; Status := Status s;
     RoundIndex := RoundIndex s; LeaderIndex := LeaderIndex s;
     PlayerIDs := PlayerIDs s; Roles := Roles s;
     ProposedTeam := ProposedTeam s; TeamVotes := TeamVotes s;
     MissionVotes := MissionVotes s; MissionResults := MissionResults s;
     RejectCount := RejectCount s; Winner := Winner s; Version := Version s |}.

Definition setPlayerIDs (x : list string) (s : GameState) : GameState :=
  {| GameID := GameID s; Phase := Phase s; Status := Status s;
     RoundIndex := RoundIndex s; LeaderIndex := LeaderIndex s;
     PlayerIDs := x; Roles := Roles s;
     ProposedTeam := ProposedTeam s; TeamVotes := TeamVotes s;
     MissionVotes := MissionVotes s; MissionResults := MissionResults s;
     RejectCount := RejectCount s; Winner := Winner s; Version := Version s |}.

Definition setRoles (x : gmap string string) (s : GameState) : GameState :=
  {| GameID := GameID s; Phase := Phase s; Status := Status s;
     RoundIndex := RoundIndex s; LeaderIndex := LeaderIndex s;
     PlayerIDs := PlayerIDs s; Roles := x;
     ProposedTeam := ProposedTeam s; TeamVotes := TeamVotes s;
     MissionVotes := MissionVotes s; MissionResults := MissionResults s;
     RejectCount := RejectCount s; Winner := Winner s; Version := Version s |}.

Definition setPhase (p : string) (s : GameState) : GameState :=
  {| GameID := GameID s; Phase := p; Status := Status s;
     RoundIndex := RoundIndex s; LeaderIndex := LeaderIndex s;
     PlayerIDs := PlayerIDs s; Roles := Roles s;
     ProposedTeam := ProposedTeam s; TeamVotes := TeamVotes s;
     MissionVotes := MissionVotes s; MissionResults := MissionResults s;
     RejectCount := RejectCount s; Winner := Winner s; Version := Version s |}.

Definition setStatus (x : string) (s : GameState) : GameState :=
  {| GameID := GameID s; Phase := Phase s; Status := x;
     RoundIndex := RoundIndex s; LeaderIndex := LeaderIndex s;
     PlayerIDs := PlayerIDs s; Roles := Roles s;
     ProposedTeam := ProposedTeam s; TeamVotes := TeamVotes s;
     MissionVotes := MissionVotes s; MissionResults := MissionResults s;
     RejectCount := RejectCount s; Winner := Winner s; Version := Version s |}.

Definition setRoundIndex (x : Z) (s : GameState) : GameState :=
  {| GameID := GameID s; Phase := Phase s; Status := Status s;
     RoundIndex := x; LeaderIndex := LeaderIndex s;
     PlayerIDs := PlayerIDs s; Roles := Roles s;
     ProposedTeam := ProposedTeam s; TeamVotes := TeamVotes s;
     MissionVotes := MissionVotes s; MissionResults := MissionResults s;
     RejectCount := RejectCount s; Winner := Winner s; Version := Version s |}.

Definition setLeaderIndex (x : Z) (s : GameState) : GameState :=
  {| GameID := GameID s; Phase := Phase s; Status := Status s;
     RoundIndex := RoundIndex s; LeaderIndex := x;
     PlayerIDs := PlayerIDs s; Roles := Roles s;
     ProposedTeam := ProposedTeam s; TeamVotes := TeamVotes s;
     MissionVotes := MissionVotes s; MissionResults := MissionResults s;
     RejectCount := RejectCount s; Winner := Winner s; Version := Version s |}.

Definition setProposedTeam (x : list string) (s : GameState) : GameState :=
  {| GameID := GameID s; Phase := Phase s; Status := Status s;
     RoundIndex := RoundIndex s; LeaderIndex := LeaderIndex s;
     PlayerIDs := PlayerIDs s; Roles := Roles s;
     ProposedTeam := x; TeamVotes := TeamVotes s;
     MissionVotes := MissionVotes s; MissionResults := MissionResults s;
     RejectCount := RejectCount s; Winner := Winner s; Version := Version s |}.

Definition setTeamVotes (x : gmap string string) (s : GameState) : GameState :=
  {| GameID := GameID s; Phase := Phase s; Status := Status s;
     RoundIndex := RoundIndex s; LeaderIndex := LeaderIndex s;
     PlayerIDs := PlayerIDs s; Roles := Roles s;
     ProposedTeam := ProposedTeam s; TeamVotes := x;
     MissionVotes := MissionVotes s; MissionResults := MissionResults s;
     RejectCount := RejectCount s; Winner := Winner s; Version := Version s |}.

Definition setMissionVotes (x : gmap string string) (s : GameState) : GameState :=
  {| GameID := GameID s; Phase := Phase s; Status := Status s;
     RoundIndex := RoundIndex s; LeaderIndex := LeaderIndex s;
     PlayerIDs := PlayerIDs s; Roles := Roles s;
     ProposedTeam := ProposedTeam s; TeamVotes := TeamVotes s;
     MissionVotes := x; MissionResults := MissionResults s;
     RejectCount := RejectCount s; Winner := Winner s; Version := Version s |}.

Definition setMissionResults (x : list string) (s : GameState) : GameState :=
  {| GameID := GameID s; Phase := Phase s; Status := Status s;
     RoundIndex := RoundIndex s; LeaderIndex := LeaderIndex s;
     PlayerIDs := PlayerIDs s; Roles := Roles s;
     ProposedTeam := ProposedTeam s; TeamVotes := TeamVotes s;
     MissionVotes := MissionVotes s; MissionResults := x;
     RejectCount := RejectCount s; Winner := Winner s; Version := Version s |}.

Definition setRejectCount (x : Z) (s : GameState) : GameState :=
  {| GameID := GameID s; Phase := Phase s; Status := Status s;
     RoundIndex := RoundIndex s; LeaderIndex := LeaderIndex s;
     PlayerIDs := PlayerIDs s; Roles := Roles s;
     ProposedTeam := ProposedTeam s; TeamVotes := TeamVotes s;
     MissionVotes := MissionVotes s; MissionResults := MissionResults s;
     RejectCount := x; Winner := Winner s; Version := Version s |}.

Definition setWinner (x : string) (s : GameState) : GameState :=
  {| GameID := GameID s; Phase := Phase s; Status := Status s;
     RoundIndex := RoundIndex s; LeaderIndex := LeaderIndex s;
     PlayerIDs := PlayerIDs s; Roles := Roles s;
     ProposedTeam := ProposedTeam s; TeamVotes := TeamVotes s;
     MissionVotes := MissionVotes s; MissionResults := MissionResults s;
     RejectCount := RejectCount s; Winner := x; Version := Version s |}.

Definition setVersion (x : Z) (s : GameState) : GameState :=
  {| GameID := GameID s; Phase := Phase s; Status := Status s;
     RoundIndex := RoundIndex s; LeaderIndex := LeaderIndex s;
     PlayerIDs := PlayerIDs s; Roles := Roles s;
     ProposedTeam := ProposedTeam s; TeamVotes := TeamVotes s;
     MissionVotes := MissionVotes s; MissionResults := MissionResults s;
     RejectCount := RejectCount s; Winner := Winner s; Version := x |}.

(** ** The engine ([internal/games/engine.go]) *)

Record BroadcastEvent := {
  Event : string;
  Payload : gmap string value;
}.

Record Engine := { config : RulesConfig }.

(** [NewEngine]: the stores are passed to each operation below as explicit
    state, so the engine value only carries its configuration. *)
Definition NewEngine (cfg : RulesConfig) : Engine :=
  let cfg := match Phases cfg with None => ClassicAvalonConfig | Some _ => cfg end in
  let cfg := match TeamSizes cfg with
             | None => {| Phases := Phases cfg; MinPlayers := MinPlayers cfg;
                          MaxPlayers := MaxPlayers cfg;
                          TeamSizes := Some [2; 3; 2; 3; 3]%Z;
                          FailThreshold := FailThreshold cfg |}
             | Some _ => cfg
             end in
  let cfg := if (FailThreshold cfg <=? 0)%Z
             then {| Phases := Phases cfg; MinPlayers := MinPlayers cfg;
                     MaxPlayers := MaxPlayers cfg; TeamSizes := TeamSizes cfg;
                     FailThreshold := 3 |}
             else cfg in
  {| config := cfg |}.

Definition getAllowedActions (e : Engine) (phase : string) : list string :=
  match find (λ p, bool_decide (Name p = phase)) (default [] (Phases (config e))) with
  | Some p => AllowedActions p
  | None => []
  end.

Definition isPlayerInGame (state : GameState) (roomPlayerID : string) : bool :=
  existsb (λ id, bool_decide (id = roomPlayerID)) (PlayerIDs state).

Definition isOnProposedTeam (state : GameState) (roomPlayerID : string) : bool :=
  existsb (λ id, bool_decide (id = roomPlayerID)) (ProposedTeam state).

Definition stringSliceFromPayload (v : option value) : list string * bool :=
  match v with
  | Some (VStrings x) => (x, true)
  | Some (VSlice x) =>
      let out := omap (λ e, match e with VString s => Some s | _ => None end) x in
      (out, bool_decide (0 < len out)%Z)
  | _ => ([], false)
  end.

(** [b, ok := payload[key].(bool)], falling back on the strings "true" and
    "false"; [None] is the error branch. *)
Definition boolFromPayload (payload : gmap string value) (key : string) : option bool :=
  match payload !! key with
  | Some (VBool b) => Some b
  | Some (VString s) =>
      if bool_decide (s = "true") then Some true
      else if bool_decide (s = "false") then Some false
      else None
  | _ => None
  end.

(** [for _, v := range m { if v == x { n++ } }] *)
Definition countVotes (x : string) (m : gmap string string) : Z :=
  map_fold (λ _ v n, if bool_decide (v = x) then (n + 1)%Z else n) 0%Z m.

(** [for _, r := range l { if r == x { n++ } }] *)
Definition countResults (x : string) (l : list string) : Z :=
  foldl (λ n r, if bool_decide (r = x) then (n + 1)%Z else n) 0%Z l.

Definition voteRecorded (roomPlayerID : string) : BroadcastEvent :=
  {| Event := "vote_recorded";
     Payload := {[ "player_id" := VString roomPlayerID ]} |}.

Definition gameEnded (winner result : string) : BroadcastEvent :=
  {| Event := "game_ended";
     Payload := <[ "winner" := VString winner ]>
                  {[ "mission_result" := VString result ]} |}.

Definition applyTeamVote (state : GameState) (roomPlayerID : string)
    (payload : gmap string value) : result (GameState * list BroadcastEvent) :=
  match boolFromPayload payload "approved" with
  | None => Err ErrPayloadApproved
  | Some approved =>
      let next := Clone state in
      match TeamVotes next !! roomPlayerID with
      | Some _ => Err ErrAlreadyVoted
      | None =>
          let v := if approved then "approve" else "reject" in
          let next := setTeamVotes (<[ roomPlayerID := v ]> (TeamVotes next)) next in
          if (len (PlayerIDs next) <=? maplen (TeamVotes next))%Z then
            let approveCount := countVotes "approve" (TeamVotes next) in
            if (Z.quot (len (PlayerIDs next)) 2 <? approveCount)%Z then
              let next := setPhase PhaseMissionVote next in
              let next := setTeamVotes ∅ next in
              let ev := {| Event := "team_approved";
                           Payload := {[ "phase" := VString (Phase next) ]} |} in
              Ok (next, [ev])
            else
              let next := setRejectCount (wrap_int (RejectCount next + 1)) next in
              let next := setPhase PhaseTeamSelection next in
              let next := setLeaderIndex
                            (Z.rem (wrap_int (LeaderIndex next + 1)) (len (PlayerIDs next)))
                            next in
              let next := setProposedTeam [] next in
              let next := setTeamVotes ∅ next in
              let ev := {| Event := "team_rejected";
                           Payload := <[ "phase" := VString (Phase next) ]>
                                     (<[ "reject_count" := VInt (RejectCount next) ]>
                                      {[ "leader_id" := VString (LeaderPlayerID next) ]}) |} in
              Ok (next, [ev])
          else Ok (next, [voteRecorded roomPlayerID])
      end
  end.

Definition applyMissionVote (e : Engine) (state : GameState) (roomPlayerID : string)
    (payload : gmap string value) : result (GameState * list BroadcastEvent) :=
  match boolFromPayload payload "success" with
  | None => Err ErrPayloadSuccess
  | Some success =>
      if negb (isOnProposedTeam state roomPlayerID) then Err ErrOnlyTeamMembers
      else
        let next := Clone state in
        match MissionVotes next !! roomPlayerID with
        | Some _ => Err ErrAlreadyVoted
        | None =>
            let next := setMissionVotes
                          (<[ roomPlayerID := if success then "success" else "fail" ]>
                             (MissionVotes next)) next in
            let teamSize := len (ProposedTeam state) in
            if (teamSize <=? maplen (MissionVotes next))%Z then
              let failCount := countVotes "fail" (MissionVotes next) in
              let result := if (0 <? failCount)%Z then "fail" else "success" in
              let next := setMissionResults (MissionResults next ++ [result]) next in
              let next := setMissionVotes ∅ next in
              let next := setProposedTeam [] next in
              let next := setPhase PhaseMissionResolution next in
              let next := setPhase PhaseTeamSelection next in
              let next := setLeaderIndex
                            (Z.rem (wrap_int (LeaderIndex next + 1)) (len (PlayerIDs next)))
                            next in
              let next := setRejectCount 0 next in
              let next := setRoundIndex (wrap_int (RoundIndex next + 1)) next in
              let failTotal := countResults "fail" (MissionResults next) in
              let successTotal := (len (MissionResults next) - failTotal)%Z in
              if (FailThreshold (config e) <=? failTotal)%Z then
                let next := setStatus "finished" next in
                let next := setPhase PhaseFinished next in
                let next := setWinner "evil" next in
                Ok (next, [gameEnded (Winner next) result])
              else if (3 <=? successTotal)%Z then
                let next := setStatus "finished" next in
                let next := setPhase PhaseFinished next in
                let next := setWinner "good" next in
                Ok (next, [gameEnded (Winner next) result])
              else
                let ev := {| Event := "mission_resolved";
                             Payload := <[ "result" := VString result ]>
                                       (<[ "round_index" := VInt (RoundIndex next) ]>
                                        (<[ "leader_id" := VString (LeaderPlayerID next) ]>
                                         {[ "phase" := VString (Phase next) ]})) |} in
                Ok (next, [ev])
            else Ok (next, [voteRecorded roomPlayerID])
        end
  end.

Definition applyVote (e : Engine) (state : GameState) (roomPlayerID : string)
    (payload : gmap string value) : result (GameState * list BroadcastEvent) :=
  if negb (isPlayerInGame state roomPlayerID) then Err ErrPlayerNotInGame
  else if bool_decide (Phase state = PhaseTeamVote) then
    applyTeamVote state roomPlayerID payload
  else if bool_decide (Phase state = PhaseMissionVote) then
    applyMissionVote e state roomPlayerID payload
  else Err (ErrVoteNotAllowed (Phase state)).

Definition proposeTeam (e : Engine) (state : GameState) (roomPlayerID : string)
    (payload : gmap string value) : result (GameState * list BroadcastEvent) :=
  if negb (bool_decide (LeaderPlayerID state = roomPlayerID)) then Err ErrOnlyLeader
  else
    let '(team, ok) := stringSliceFromPayload (payload !! "team_ids") in
    let '(team, ok) := if ok then (team, ok)
                       else stringSliceFromPayload (payload !! "team") in
    if negb ok then Err ErrPayloadTeam
    else
      let teamSizes := default [] (TeamSizes (config e)) in
      let teamSizes := if (len teamSizes =? 0)%Z
                       then DefaultTeamSizesForPlayerCount (len (PlayerIDs state))
                       else teamSizes in
      let roundIdx := RoundIndex state in
      let roundIdx := if ((roundIdx <=? 0) || (len teamSizes <? roundIdx))%Z
                      then 1%Z else roundIdx in
      let requiredSize := nth (Z.to_nat (roundIdx - 1)) teamSizes 0%Z in
      if negb (len team =? requiredSize)%Z then Err (ErrTeamSize requiredSize)
      else
        match find (λ id, negb (isPlayerInGame state id)) team with
        | Some id => Err (ErrNonPlayer id)
        | None =>
            let next := Clone state in
            let next := setProposedTeam team next in
            let next := setPhase PhaseTeamVote next in
            let next := setTeamVotes ∅ next in
            let ev := {| Event := "team_proposed";
                         Payload := <[ "team" := VStrings team ]>
                                   {[ "phase" := VString (Phase next) ]} |} in
            Ok (next, [ev])
        end.

Definition applyAction (e : Engine) (state : GameState) (roomPlayerID : string)
    (payload : gmap string value) : result (GameState * list BroadcastEvent) :=
  let action := asString (payload !! "action") in
  let action := if bool_decide (action = "") then asString (payload !! "type")
                else action in
  if bool_decide (action = "") then Err ErrPayloadAction
  else
    let allowed := getAllowedActions e (Phase state) in
    if negb (existsb (λ a, bool_decide (a = action)) allowed)
    then Err (ErrActionNotAllowed action (Phase state))
    else if bool_decide (action = ActionStartGame) then Err ErrGameAlreadyStarted
    else if bool_decide (action = ActionProposeTeam) then
      proposeTeam e state roomPlayerID payload
    else Err (ErrNotImplemented action).

(** ** Counting votes and results *)

(** The number of entries of a votes map that carry the vote [x]. *)
Definition votesFor (x : string) (m : gmap string string) : Z :=
  Z.of_nat (size (filter (λ kv : string * string, kv.2 = x) m)).

(** The number of rounds of a results list whose result is [x]. *)
Definition resultsOf (x : string) (l : list string) : Z :=
  Z.of_nat (length (filter (λ r : string, r = x) l)).


(** The vote strings the engine records. *)
Definition teamVote (approved : bool) : string :=
  if approved then "approve" else "reject".

Definition missionVote (success : bool) : string :=
  if success then "success" else "fail".

(** The state and event of a rejected proposal. *)
Definition teamRejectedState (s : GameState) : GameState :=
  setTeamVotes ∅
    (setProposedTeam []
       (setLeaderIndex ((LeaderIndex s + 1) mod len (PlayerIDs s))%Z
          (setPhase PhaseTeamSelection
             (setRejectCount (RejectCount s + 1)%Z s)))).

Definition teamRejected (next : GameState) : BroadcastEvent :=
  {| Event := "team_rejected";
     Payload := <[ "phase" := VString PhaseTeamSelection ]>
               (<[ "reject_count" := VInt (RejectCount next) ]>
                {[ "leader_id" := VString (index (PlayerIDs next) (LeaderIndex next)) ]}) |}.

Definition teamApproved : BroadcastEvent :=
  {| Event := "team_approved";
     Payload := {[ "phase" := VString PhaseMissionVote ]} |}.

(** ** Sample positions, used to run the definitions *)

Definition classicEngine : Engine := NewEngine ClassicAvalonConfig.

Definition fivePlayers : list string := ["p1"; "p2"; "p3"; "p4"; "p5"].

(** Five players, round 1, leader p1, proposal {p1, p2}; p1..p4 have voted
    two against two. *)
Definition sampleTeamVote : GameState :=
  {| GameID := "g1"; Phase := PhaseTeamVote; Status := "in_progress";
     RoundIndex := 1; LeaderIndex := 0; PlayerIDs := fivePlayers;
     Roles := ∅; ProposedTeam := ["p1"; "p2"];
     TeamVotes := <[ "p1" := "approve" ]> (<[ "p2" := "approve" ]>
                  (<[ "p3" := "reject" ]> {[ "p4" := "reject" ]}));
     MissionVotes := ∅; MissionResults := []; RejectCount := 0; Winner := "";
     Version := 0 |}.

(** The result of a mission whose votes are [votes]. *)
Definition missionResult (votes : gmap string string) : string :=
  if bool_decide (0 < votesFor "fail" votes)%Z then "fail" else "success".

(** The state after a mission is resolved with [result], before the victory
    conditions are looked at. *)
Definition missionResolvedState (s : GameState) (result : string) : GameState :=
  setRoundIndex (RoundIndex s + 1)%Z
    (setRejectCount 0
       (setLeaderIndex ((LeaderIndex s + 1) mod len (PlayerIDs s))%Z
          (setPhase PhaseTeamSelection
             (setProposedTeam []
                (setMissionVotes ∅
                   (setMissionResults (MissionResults s ++ [result]) s)))))).

Definition finishedState (winner : string) (s : GameState) : GameState :=
  setWinner winner (setPhase PhaseFinished (setStatus "finished" s)).

Definition missionResolved (next : GameState) (result : string) : BroadcastEvent :=
  {| Event := "mission_resolved";
     Payload := <[ "result" := VString result ]>
               (<[ "round_index" := VInt (RoundIndex next) ]>
                (<[ "leader_id" := VString (index (PlayerIDs next) (LeaderIndex next)) ]>
                 {[ "phase" := VString PhaseTeamSelection ]})) |}.

(** Three rounds played (two successes, one failure), round 4, leader p4,
    team {p4, p5, p1}; p4 and p5 have voted success. *)
Definition sampleMissionVote : GameState :=
  {| GameID := "g1"; Phase := PhaseMissionVote; Status := "in_progress";
     RoundIndex := 4; LeaderIndex := 3; PlayerIDs := fivePlayers;
     Roles := ∅; ProposedTeam := ["p4"; "p5"; "p1"];
     TeamVotes := ∅;
     MissionVotes := <[ "p4" := "success" ]> {[ "p5" := "success" ]};
     MissionResults := ["success"; "success"; "fail"];
     RejectCount := 2; Winner := ""; Version := 0 |}.

Definition sixPlayers : list string := ["p1"; "p2"; "p3"; "p4"; "p5"; "p6"].

(** Six players, round 3, leader p3, nothing proposed yet. *)
Definition sampleRound3 : GameState :=
  {| GameID := "g1"; Phase := PhaseTeamSelection; Status := "in_progress";
     RoundIndex := 3; LeaderIndex := 2; PlayerIDs := sixPlayers;
     Roles := ∅; ProposedTeam := []; TeamVotes := ∅; MissionVotes := ∅;
     MissionResults := ["success"; "fail"]; RejectCount := 0; Winner := "";
     Version := 0 |}.

(** The payload of a [propose_team] action as it is decoded from the socket. *)
Definition proposePayload (team : list string) : gmap string value :=
  <[ "action" := VString ActionProposeTeam ]>
    {[ "team_ids" := VSlice (VString <$> team) ]}.

(** The state and event of an accepted proposal. *)
Definition teamProposedState (s : GameState) (team : list string) : GameState :=
  setTeamVotes ∅ (setPhase PhaseTeamVote (setProposedTeam team s)).

Definition teamProposed (team : list string) : BroadcastEvent :=
  {| Event := "team_proposed";
     Payload := <[ "team" := VStrings team ]>
               {[ "phase" := VString PhaseTeamVote ]} |}.

(** ** Snapshot form of the state ([ToMap], [StateFromMap]) *)

Definition ToMap (s : GameState) : gmap string value :=
  let m : gmap string value :=
    <[ "game_id" := VString (GameID s) ]>
    (<[ "phase" := VString (Phase s) ]>
    (<[ "status" := VString (Status s) ]>
    (<[ "round_index" := VInt (RoundIndex s) ]>
    (<[ "leader_index" := VInt (LeaderIndex s) ]>
    (<[ "player_ids" := VStrings (PlayerIDs s) ]>
    (<[ "reject_count" := VInt (RejectCount s) ]>
    {[ "version" := VInt (Version s) ]})))))) in
  let m := if (0 <? maplen (Roles s))%Z
           then <[ "roles" := VStrMap (Roles s) ]> m else m in
  let m := if (0 <? len (ProposedTeam s))%Z
           then <[ "proposed_team" := VStrings (ProposedTeam s) ]> m else m in
  let m := if (0 <? maplen (TeamVotes s))%Z
           then <[ "team_votes" := VStrMap (TeamVotes s) ]> m else m in
  let m := if (0 <? maplen (MissionVotes s))%Z
           then <[ "mission_votes" := VStrMap (MissionVotes s) ]> m else m in
  let m := if (0 <? len (MissionResults s))%Z
           then <[ "mission_results" := VStrings (MissionResults s) ]> m else m in
  let m := if bool_decide (Winner s ≠ "")
           then <[ "winner" := VString (Winner s) ]> m else m in
  m.

(** [int(v)] of a float64 holding the integer [z]; outside the range of [int]
    the conversion yields the smallest int (amd64). *)
Definition intOfFloat (z : Z) : Z :=
  if ((- 2 ^ 63 <=? z) && (z <? 2 ^ 63))%Z then z else (- 2 ^ 63)%Z.

Definition floatToInt (a : option value) : Z * bool :=
  match a with
  | Some (VFloat v) => (intOfFloat v, true)
  | Some (VInt v) => (v, true)
  | _ => (0%Z, false)
  end.

Definition stringOf (e : value) : option string :=
  match e with VString s => Some s | _ => None end.

Definition stringSlice (a : option value) : list string * bool :=
  match a with
  | Some (VStrings v) => (v, true)
  | Some (VSlice v) => (omap stringOf v, true)
  | _ => ([], false)
  end.

Definition stringMap (a : option value) : gmap string string * bool :=
  match a with
  | Some (VMap m) => (omap stringOf m, true)
  | _ => (∅, false)
  end.

(** One field of [StateFromMap]: [if v, ok := ...; ok { s.Field = v }]. *)
Definition readString (m : gmap string value) (key : string)
    (set : string → GameState → GameState) (s : GameState) : GameState :=
  match m !! key with Some (VString v) => set v s | _ => s end.

Definition readInt (m : gmap string value) (key : string)
    (set : Z → GameState → GameState) (s : GameState) : GameState :=
  let '(v, ok) := floatToInt (m !! key) in if ok then set v s else s.

Definition readSlice (m : gmap string value) (key : string)
    (set : list string → GameState → GameState) (s : GameState) : GameState :=
  let '(v, ok) := stringSlice (m !! key) in if ok then set v s else s.

Definition readMap (m : gmap string value) (key : string)
    (set : gmap string string → GameState → GameState) (s : GameState) : GameState :=
  let '(v, ok) := stringMap (m !! key) in if ok then set v s else s.

Definition StateFromMap (m : gmap string value) : GameState :=
  let s := emptyState in
  let s := readString m "game_id" setGameID s in
  let s := readString m "phase" setPhase s in
  let s := readString m "status" setStatus s in
  let s := readInt m "round_index" setRoundIndex s in
  let s := readInt m "leader_index" setLeaderIndex s in
  let s := readSlice m "player_ids" setPlayerIDs s in
  let s := readMap m "roles" setRoles s in
  let s := readSlice m "proposed_team" setProposedTeam s in
  let s := readMap m "team_votes" setTeamVotes s in
  let s := readMap m "mission_votes" setMissionVotes s in
  let s := readSlice m "mission_results" setMissionResults s in
  let s := readInt m "reject_count" setRejectCount s in
  let s := readString m "winner" setWinner s in
  let s := readInt m "version" setVersion s in
  s.

(** ** JSON ([encoding/json]) *)

(** The float64 nearest to the integer [z] (ties to even), for [z] in the
    range of [int]. *)
Definition float64OfInt (z : Z) : Z :=
  let a := Z.abs z in
  if (a <=? 2 ^ 53)%Z then z
  else
    let e := (Z.log2 a - 52)%Z in
    let q := (a / 2 ^ e)%Z in
    let r := (a mod 2 ^ e)%Z in
    let half := (2 ^ (e - 1))%Z in
    let q := if (r <? half)%Z then q
             else if (half <? r)%Z then (q + 1)%Z
             else if Z.even q then q else (q + 1)%Z in
    (Z.sgn z * (q * 2 ^ e))%Z.

(** [json.Marshal] followed by [json.Unmarshal] into an [interface{}]:
    numbers come back as float64, slices as [[]interface{}], maps as
    [map[string]interface{}]. *)
Fixpoint jsonValue (v : value) : value :=
  match v with
  | VNil => VNil
  | VBool b => VBool b
  | VString s => VString s
  | VInt z => VFloat (float64OfInt z)
  | VFloat z => VFloat z
  | VStrings l => VSlice (VString <$> l)
  | VInts l => VSlice ((λ z, VFloat (float64OfInt z)) <$> l)
  | VSlice l => VSlice (jsonValue <$> l)
  | VStrMap m => VMap (VString <$> m)
  | VMap m => VMap (jsonValue <$> m)
  end.

Definition jsonMap (m : gmap string value) : gmap string value :=
  jsonValue <$> m.

(** The integers of a state that a float64 holds exactly. *)
Definition exactInt (z : Z) : Prop := (- 2 ^ 53 <= z <= 2 ^ 53)%Z.

Definition exactInts (s : GameState) : Prop :=
  exactInt (RoundIndex s) ∧ exactInt (LeaderIndex s)
  ∧ exactInt (RejectCount s) ∧ exactInt (Version s).

(** ** The store ([internal/store], tables of [migrations]) *)

(** The rows the engine and the socket handler touch.  JSON columns hold the
    decoded document.  Rows are kept in insertion order. *)
Record GameRow := {
  gID : string;
  gRoomID : string;
  gStatus : string;
  gEndedAt : option Z;
}.

Record SnapshotRow := {
  sGameID : string;
  sVersion : Z;                          (* INTEGER, int32 *)
  sStateJSON : gmap string value;
}.

Record EventRow := {
  evGameID : string;
  evRoomPlayerID : option string;
  evType : string;
  evPayloadJSON : gmap string value;
}.

Record DB := {
  games : list GameRow;
  gamePlayers : gmap string (list string); (* game id -> room players, by join time *)
  snapshots : list SnapshotRow;
  events : list EventRow;
}.

(** What the outside world decides for one call of the engine: which store
    calls return an error (an id that is no UUID, a JSON value that cannot be
    encoded, a database error), the clock, and the permutation drawn for the
    roles ([rng.Perm(n)], a permutation of 0 .. n-1 for the n players). *)
Record Env := {
  failGetLatestSnapshot : bool;
  failGetPlayers : bool;
  failCreateGameEvent : bool;
  failSnapshotLatest : bool;
  failSnapshotInsert : bool;
  failUpdateGameStatus : bool;
  failGetLatestGame : bool;
  now : Z;
  perm : list nat;
}.

Definition withSnapshots (x : list SnapshotRow) (db : DB) : DB :=
  {| games := games db; gamePlayers := gamePlayers db; snapshots := x;
     events := events db |}.

Definition withEvents (x : list EventRow) (db : DB) : DB :=
  {| games := games db; gamePlayers := gamePlayers db; snapshots := snapshots db;
     events := x |}.

Definition withGames (x : list GameRow) (db : DB) : DB :=
  {| games := x; gamePlayers := gamePlayers db; snapshots := snapshots db;
     events := events db |}.

(** The snapshot rows of one game. *)
Definition snapshotsOf (db : DB) (gameID : string) : list SnapshotRow :=
  filter (λ r, sGameID r = gameID) (snapshots db).

(** [GetLatestGameStateSnapshotByGameId]: [ORDER BY version DESC LIMIT 1];
    [None] is [pgx.ErrNoRows]. *)
Definition latestOf (rows : list SnapshotRow) : option SnapshotRow :=
  foldl (λ best r, match best with
                   | None => Some r
                   | Some b => if (sVersion b <? sVersion r)%Z then Some r else Some b
                   end) None rows.

Definition GetLatestGameStateSnapshotByGameId (db : DB) (gameID : string)
    : option SnapshotRow :=
  latestOf (snapshotsOf db gameID).

(** [CreateGameStateSnapshot]: the insert is refused by the unique index on
    (game_id, version). *)
Definition CreateGameStateSnapshot (db : DB) (row : SnapshotRow) : option DB :=
  if existsb (λ r, bool_decide (sGameID r = sGameID row)
                   && (sVersion r =? sVersion row)%Z) (snapshots db)
  then None
  else Some (withSnapshots (snapshots db ++ [row]) db).

(** [GameStore.CreateOrUpdateSnapshot] *)
Definition CreateOrUpdateSnapshot (env : Env) (db : DB) (gameID : string)
    (stateJSON : gmap string value) : result Z * DB :=
  let data := jsonMap stateJSON in
  if failSnapshotLatest env then (Err ErrStore, db)
  else
    let nextVersion := match GetLatestGameStateSnapshotByGameId db gameID with
                       | None => 1%Z
                       | Some snapshot => wrap_int32 (sVersion snapshot + 1)
                       end in
    if failSnapshotInsert env then (Err ErrStore, db)
    else
      match CreateGameStateSnapshot db
              {| sGameID := gameID; sVersion := nextVersion; sStateJSON := data |} with
      | None => (Err ErrStore, db)
      | Some db' => (Ok nextVersion, db')
      end.

(** [GameStore.GetLatestSnapshot]: [Ok None] is the nil map of a game without
    snapshot. *)
Definition GetLatestSnapshot (env : Env) (db : DB) (gameID : string)
    : result (option (gmap string value)) :=
  if failGetLatestSnapshot env then Err ErrStore
  else match GetLatestGameStateSnapshotByGameId db gameID with
       | None => Ok None
       | Some snapshot => Ok (Some (sStateJSON snapshot))
       end.

(** [GameStore.UpdateGameStatus]: [UPDATE games SET status, ended_at WHERE id]. *)
Definition UpdateGameStatus (env : Env) (db : DB) (gameID status : string)
    (endedAt : option Z) : result unit * DB :=
  if failUpdateGameStatus env then (Err ErrStore, db)
  else
    (Ok tt,
     withGames ((λ g, if bool_decide (gID g = gameID)
                      then {| gID := gID g; gRoomID := gRoomID g;
                              gStatus := status; gEndedAt := endedAt |}
                      else g) <$> games db) db).

(** [GameStore.GetGamePlayerIDsInOrder] *)
Definition GetGamePlayerIDsInOrder (env : Env) (db : DB) (gameID : string)
    : result (list string) :=
  if failGetPlayers env then Err ErrStore
  else Ok (default [] (gamePlayers db !! gameID)).

(** [GameEventStore.CreateGameEvent]: the row that is inserted; an empty
    player id is stored as NULL. *)
Definition CreateGameEvent (env : Env) (db : DB) (gameID roomPlayerID type : string)
    (payload : gmap string value) : result EventRow * DB :=
  if failCreateGameEvent env then (Err ErrStore, db)
  else
    let row := {| evGameID := gameID;
                  evRoomPlayerID := if bool_decide (roomPlayerID = "") then None
                                    else Some roomPlayerID;
                  evType := type;
                  evPayloadJSON := jsonMap payload |} in
    (Ok row, withEvents (events db ++ [row]) db).

(** [GameStore.GetLatestGameForRoom]: [ORDER BY created_at DESC], first row;
    [Ok None] is the nil game of a room without games. *)
Definition GetLatestGameForRoom (env : Env) (db : DB) (roomID : string)
    : result (option GameRow) :=
  if failGetLatestGame env then Err ErrStore
  else Ok (last (filter (λ g, gRoomID g = roomID) (games db))).

(** [LobbyStateJSON] *)
Definition LobbyStateJSON : gmap string value := {[ "phase" := VString "lobby" ]}.

(** What [RoomStore.CreateRoom] and [GameStore.CreateGame] write to these
    tables in their transaction: the game row (status waiting), its players,
    and the snapshot of version 1 holding the lobby state.  The primary key
    refuses an id in use. *)
Definition createGame (db : DB) (gameID roomID : string) (players : list string)
    : option DB :=
  if existsb (λ g, bool_decide (gID g = gameID)) (games db) then None
  else
    match CreateGameStateSnapshot db
            {| sGameID := gameID; sVersion := 1; sStateJSON := LobbyStateJSON |} with
    | None => None
    | Some db' =>
        Some {| games := games db' ++ [ {| gID := gameID; gRoomID := roomID;
                                           gStatus := "waiting"; gEndedAt := None |} ];
                gamePlayers := <[ gameID := players ]> (gamePlayers db');
                snapshots := snapshots db';
                events := events db' |}
    end.

Definition emptyDB : DB :=
  {| games := []; gamePlayers := ∅; snapshots := []; events := [] |}.

(** ** [Engine.ApplyMove] over the store *)

(** The payload is a Go map, passed by reference: the caller and the engine
    see one object.  [heap] holds the map objects, a payload is [None] (nil)
    or the address of one. *)
Definition loc := nat.

Record World := {
  heap : gmap loc (gmap string value);
  db : DB;
}.

Definition withDB (x : DB) (w : World) : World := {| heap := heap w; db := x |}.
Definition withHeap (x : gmap loc (gmap string value)) (w : World) : World :=
  {| heap := x; db := db w |}.

(** Reading a nil map yields no entry. *)
Definition deref (w : World) (payload : option loc) : gmap string value :=
  match payload with
  | Some l => default ∅ (heap w !! l)
  | None => ∅
  end.

(** [GetState] *)
Definition GetState (env : Env) (d : DB) (gameID : string) : result (option GameState) :=
  match GetLatestSnapshot env d gameID with
  | Err e => Err e
  | Ok None => Ok None
  | Ok (Some m) => Ok (Some (StateFromMap m))
  end.

(** The roles dealt by [bootstrapAndStart]: the players at the first
    [evilCount] entries of the permutation are evil, every player without a
    role is good.  [None] is the run-time panic of [order[i]] or
    [playerIDs[order[i]]] out of range, which the source meets with fewer
    players than [evilCount]. *)
Definition assignRoles (playerIDs : list string) (order : list nat)
    : option (gmap string string) :=
  let n := len playerIDs in
  let evilCount := if (7 <=? n)%Z then 3 else 2 in
  roles ← foldl (λ roles i, roles ← roles;
                            j ← order !! i;
                            id ← playerIDs !! j;
                            Some (<[ id := "evil" ]> roles))
                (Some (∅ : gmap string string)) (seq 0 evilCount);
  Some (foldl (λ roles id, if bool_decide (default "" (roles !! id) = "")
                           then <[ id := "good" ]> roles else roles)
              roles playerIDs).

Definition bootstrapAndStart (e : Engine) (env : Env) (w : World)
    (gameID roomPlayerID : string)
    : result (GameState * list BroadcastEvent) * World :=
  match GetGamePlayerIDsInOrder env (db w) gameID with
  | Err _ => (Err ErrGetPlayers, w)
  | Ok playerIDs =>
      let n := len playerIDs in
      if ((n <? MinPlayers (config e)) || (MaxPlayers (config e) <? n))%Z
      then (Err (ErrPlayerCount n (MinPlayers (config e)) (MaxPlayers (config e))), w)
      else
        match assignRoles playerIDs (perm env) with
        | None => (Err PanicIndexOutOfRange, w)
        | Some roles =>
            let teamSizes := default [] (TeamSizes (config e)) in
            let teamSizes := if (len teamSizes =? 0)%Z
                             then DefaultTeamSizesForPlayerCount n else teamSizes in
            let state := {| GameID := gameID; Phase := PhaseTeamSelection;
                            Status := "in_progress"; RoundIndex := 1; LeaderIndex := 0;
                            PlayerIDs := playerIDs; Roles := roles; ProposedTeam := [];
                            TeamVotes := ∅; MissionVotes := ∅; MissionResults := [];
                            RejectCount := 0; Winner := ""; Version := 0 |} in
            let stateMap := <[ "team_sizes" := VInts teamSizes ]> (ToMap state) in
            match CreateOrUpdateSnapshot env (db w) gameID stateMap with
            | (Err _, d) => (Err ErrInitialSnapshot, withDB d w)
            | (Ok version, d) =>
                let state := setVersion version state in
                match UpdateGameStatus env d gameID "in_progress" None with
                | (Err _, d) => (Err ErrUpdateStatus, withDB d w)
                | (Ok _, d) =>
                    let ev := {| Event := "game_started";
                                 Payload := <[ "phase" := VString (Phase state) ]>
                                           (<[ "round_index" := VInt (RoundIndex state) ]>
                                            {[ "leader_id" := VString (LeaderPlayerID state) ]}) |} in
                    (Ok (state, [ev]), withDB d w)
                end
            end
        end
  end.

(** The dispatch on the move type: validation and the next state. *)
Definition validateMove (e : Engine) (state : GameState)
    (roomPlayerID moveType : string) (payload : gmap string value)
    : result (GameState * list BroadcastEvent) :=
  if bool_decide (moveType = "vote") then applyVote e state roomPlayerID payload
  else if bool_decide (moveType = "action") then applyAction e state roomPlayerID payload
  else Err (ErrUnknownMoveType moveType).

(** The persistence of an accepted move: event, then snapshot, then status. *)
Definition persistMove (env : Env) (w : World) (gameID roomPlayerID moveType : string)
    (payload : option loc) (next : GameState) (evs : list BroadcastEvent)
    : result (GameState * list BroadcastEvent) * World :=
  let eventPayload := <[ "move_type" := VString moveType ]> (deref w payload) in
  let w := match payload with
           | Some l => withHeap (<[ l := eventPayload ]> (heap w)) w
           | None => w
           end in
  match CreateGameEvent env (db w) gameID roomPlayerID moveType eventPayload with
  | (Err _, d) => (Err ErrPersistEvent, withDB d w)
  | (Ok _, d) =>
      let stateMap := ToMap next in
      match CreateOrUpdateSnapshot env d gameID stateMap with
      | (Err _, d) => (Err ErrPersistSnapshot, withDB d w)
      | (Ok version, d) =>
          let next := setVersion version next in
          let d := if bool_decide (Status next = "finished")
                   then snd (UpdateGameStatus env d gameID "finished" (Some (now env)))
                   else d in
          (Ok (next, evs), withDB d w)
      end
  end.

(** The branch of [ApplyMove] taken without a snapshot, or in a lobby without
    players: only [start_game] is let through. *)
Definition startOnly (e : Engine) (env : Env) (w : World)
    (gameID roomPlayerID moveType : string) (payload : option loc)
    : result (GameState * list BroadcastEvent) * World :=
  if negb (bool_decide (moveType = "action")) then (Err ErrGameNotStarted, w)
  else if negb (bool_decide (asString (deref w payload !! "action") = ActionStartGame))
  then (Err ErrOnlyStartGame, w)
  else bootstrapAndStart e env w gameID roomPlayerID.

Definition ApplyMove (e : Engine) (env : Env) (w : World)
    (gameID roomPlayerID moveType : string) (payload : option loc)
    : result (GameState * list BroadcastEvent) * World :=
  match GetState env (db w) gameID with
  | Err _ => (Err ErrGetState, w)
  | Ok None => startOnly e env w gameID roomPlayerID moveType payload
  | Ok (Some state) =>
      if bool_decide (Phase state = PhaseLobby) && (len (PlayerIDs state) =? 0)%Z
      then startOnly e env w gameID roomPlayerID moveType payload
      else if bool_decide (Status state = "finished") then (Err ErrGameFinished, w)
      else
        match validateMove e state roomPlayerID moveType (deref w payload) with
        | Err err => (Err err, w)
        | Ok (next, evs) =>
            persistMove env w gameID roomPlayerID moveType payload next evs
        end
  end.

(** ** Runs of the system *)

(** The worlds a run can reach: games are created, callers build payload
    maps, the game socket inserts events ([HandleEvent]), and moves are
    applied (by any engine, whatever the store calls return). *)
Inductive reachable : World → Prop :=
  | reach_empty : reachable {| heap := ∅; db := emptyDB |}
  | reach_create w gameID roomID players d :
      reachable w →
      createGame (db w) gameID roomID players = Some d →
      reachable (withDB d w)
  | reach_alloc w h :
      reachable w → reachable (withHeap h w)
  | reach_event w env gameID roomPlayerID type payload :
      reachable w →
      reachable (withDB (snd (CreateGameEvent env (db w) gameID roomPlayerID
                                type payload)) w)
  | reach_move w e env gameID roomPlayerID moveType payload :
      reachable w →
      reachable (snd (ApplyMove e env w gameID roomPlayerID moveType payload)).

(** A message of a client: actor, move type, payload. *)
Record Move := {
  mActor : string;
  mType : string;
  mPayload : gmap string value;
}.

(** The handler decodes the payload into a fresh map and hands it to the
    engine; in these runs the map lives at address 0. *)
Definition send (e : Engine) (env : Env) (gameID : string) (w : World) (m : Move)
    : result (GameState * list BroadcastEvent) * World :=
  ApplyMove e env (withHeap (<[ 0 := mPayload m ]> (heap w)) w)
            gameID (mActor m) (mType m) (Some 0).

Definition play (e : Engine) (env : Env) (gameID : string) (w : World)
    (ms : list Move) : World :=
  foldl (λ w m, snd (send e env gameID w m)) w ms.

(** An environment in which every store call succeeds. *)
Definition calm : Env :=
  {| failGetLatestSnapshot := false; failGetPlayers := false;
     failCreateGameEvent := false; failSnapshotLatest := false;
     failSnapshotInsert := false; failUpdateGameStatus := false;
     failGetLatestGame := false; now := 1000; perm := [3; 1; 4; 0; 2] |}.

(** The same, except that the insert of the snapshot row fails. *)
Definition snapshotDown : Env :=
  {| failGetLatestSnapshot := false; failGetPlayers := false;
     failCreateGameEvent := false; failSnapshotLatest := false;
     failSnapshotInsert := true; failUpdateGameStatus := false;
     failGetLatestGame := false; now := 1000; perm := [3; 1; 4; 0; 2] |}.

Definition startGame (actor : string) : Move :=
  {| mActor := actor; mType := "action";
     mPayload := {[ "action" := VString ActionStartGame ]} |}.

Definition propose (actor : string) (team : list string) : Move :=
  {| mActor := actor; mType := "action"; mPayload := proposePayload team |}.

Definition castTeamVote (actor : string) (approved : bool) : Move :=
  {| mActor := actor; mType := "vote";
     mPayload := {[ "approved" := VBool approved ]} |}.

Definition castMissionVote (actor : string) (success : bool) : Move :=
  {| mActor := actor; mType := "vote";
     mPayload := {[ "success" := VBool success ]} |}.

(** One round in which everybody approves the team. *)
Definition playRound (players : list string) (leader : string)
    (team : list string) (votes : list bool) : list Move :=
  propose leader team
  :: ((λ p, castTeamVote p true) <$> players)
  ++ zip_with castMissionVote team votes.

(** A room with one game of five players, in the lobby. *)
Definition lobbyWorld : World :=
  {| heap := ∅;
     db := default emptyDB (createGame emptyDB "g1" "r1" fivePlayers) |}.

(** Scenario 1 of the specification: two successful missions, then a failed one. *)
Definition threeRounds : list Move :=
  startGame "p1"
  :: playRound fivePlayers "p1" ["p1"; "p2"] [true; true]
  ++ playRound fivePlayers "p2" ["p2"; "p3"; "p4"] [true; true; true]
  ++ playRound fivePlayers "p3" ["p3"; "p4"] [false; true].

(** ... and a fourth round, won by good. *)
Definition fullGame : list Move :=
  threeRounds ++ playRound fivePlayers "p4" ["p4"; "p5"; "p1"] [true; true; true].

Definition midGameWorld : World := play classicEngine calm "g1" lobbyWorld threeRounds.
Definition finishedWorld : World := play classicEngine calm "g1" lobbyWorld fullGame.

(** The states the engine writes: a finished status comes with the finished
    phase, a proposed team is made of players, and a mission result is
    "success" or "fail". *)
Definition wellFormed (s : GameState) : Prop :=
  (Status s = "finished" → Phase s = PhaseFinished)
  ∧ Forall (λ id, id ∈ PlayerIDs s) (ProposedTeam s)
  ∧ Forall (λ r, r = "success" ∨ r = "fail") (MissionResults s).

Definition coherentRow (r : SnapshotRow) : Prop :=
  wellFormed (StateFromMap (sStateJSON r)).

Definition coherent (d : DB) : Prop := Forall coherentRow (snapshots d).

(** The state held by the latest snapshot of a game, if it has one. *)
Definition latestState (d : DB) (gameID : string) : option GameState :=
  (λ r, StateFromMap (sStateJSON r)) <$> GetLatestGameStateSnapshotByGameId d gameID.

(** The versions of the snapshots of a game, in the order they were written. *)
Definition versionsOf (d : DB) (gameID : string) : list Z :=
  sVersion <$> snapshotsOf d gameID.

(** 1, 2, ..., n *)
Definition consecutiveFromOne (vs : list Z) : Prop :=
  vs = Z.of_nat <$> seq 1 (length vs).

(** The largest version of a list, 0 when there is none. *)
Definition maxVersion (vs : list Z) : Z := foldr Z.max 0%Z vs.

(** The invariant: the snapshots of every game that has not exhausted the
    int32 versions are numbered 1, 2, ..., n. *)
Definition versioned (d : DB) : Prop :=
  ∀ gameID, (len (versionsOf d gameID) <= max_int32)%Z →
            consecutiveFromOne (versionsOf d gameID).

(** Round 4 of scenario 1: the leader p4 has built the payload of a proposal
    at address 0. *)
Definition proposalWorld : World :=
  withHeap {[ 0 := proposePayload ["p4"; "p5"; "p1"] ]} midGameWorld.

(** The event row written for a move. *)
Definition moveEvent (gameID roomPlayerID moveType : string)
    (payload : gmap string value) : EventRow :=
  {| evGameID := gameID;
     evRoomPlayerID := if bool_decide (roomPlayerID = "") then None
                       else Some roomPlayerID;
     evType := moveType;
     evPayloadJSON := jsonMap (<[ "move_type" := VString moveType ]> payload) |}.

(** ** The room socket ([internal/websocket]) *)

Record ServerEnvelope := {
  envType : string;
  envEvent : string;
  envPayload : gmap string value;
}.

(** A session: its room, its player, and the messages waiting in its send
    channel (oldest first). *)
Record Client := {
  cRoomID : string;
  cRoomPlayerID : string;
  cSend : list ServerEnvelope;
}.

(** The hub as the handlers see it: the messages waiting in its broadcast
    channel, each with its room, and the sessions by address. *)
Record Hub := {
  broadcast : list (string * ServerEnvelope);
  sessions : gmap nat Client;
}.

(** The handler holds a game store and an engine, either of which may be nil. *)
Record EventHandler := {
  gameStore : bool;
  engine : option Engine;
}.

(** The capacity of [client.send]. *)
Definition sendCapacity : nat := 256.

Definition ServerTypeEvent : string := "event".
Definition ServerTypeState : string := "state".
Definition ServerTypeError : string := "error".
Definition ServerEventState : string := "state".

(** [select { case client.send <- msg: default: log }] *)
Definition sendEnvelopeToClient (client : Client) (envelope : ServerEnvelope) : Client :=
  if decide (length (cSend client) < sendCapacity)
  then {| cRoomID := cRoomID client; cRoomPlayerID := cRoomPlayerID client;
          cSend := cSend client ++ [envelope] |}
  else client.

Definition errorEnvelope (message : string) : ServerEnvelope :=
  {| envType := ServerTypeError; envEvent := "";
     envPayload := {[ "message" := VString message ]} |}.

Definition sendErrorToClient (client : Client) (message : string) : Client :=
  sendEnvelopeToClient client (errorEnvelope message).

(** [handleSyncState], on the session that sent the message. *)
Definition syncState (h : EventHandler) (env : Env) (d : DB) (client : Client) : Client :=
  if negb (gameStore h) || negb (bool_decide (is_Some (engine h)))
  then sendErrorToClient client "sync_state not available"
  else
    match GetLatestGameForRoom env d (cRoomID client) with
    | Err _ | Ok None => sendErrorToClient client "no game found for room"
    | Ok (Some game) =>
        match GetState env d (gID game) with
        | Err _ => sendErrorToClient client "failed to load state"
        | Ok state =>
            let payload : gmap string value := {[ "game_id" := VString (gID game) ]} in
            let payload :=
              match state with
              | Some state =>
                  <[ "version" := VInt (Version state) ]>
                    (<[ "phase" := VString (Phase state) ]>
                       (<[ "state" := VMap (ToMap state) ]> payload))
              | None =>
                  <[ "state" := VMap {[ "phase" := VString "lobby" ]} ]> payload
              end in
            sendEnvelopeToClient client
              {| envType := ServerTypeState; envEvent := ServerEventState;
                 envPayload := payload |}
        end
    end.

(** [handleSyncState] in the hub: the session at address [c] sent
    [sync_state]. *)
Definition handleSyncState (h : EventHandler) (env : Env) (d : DB) (hub : Hub)
    (c : nat) : Hub :=
  match sessions hub !! c with
  | Some client =>
      {| broadcast := broadcast hub;
         sessions := <[ c := syncState h env d client ]> (sessions hub) |}
  | None => hub
  end.

Definition roomHandler : EventHandler :=
  {| gameStore := true; engine := Some classicEngine |}.

(** Two sessions of room r1, and one of a room r2 that has no game. *)
Definition sampleHub : Hub :=
  {| broadcast := [];
     sessions := <[ 1 := {| cRoomID := "r1"; cRoomPlayerID := "p5"; cSend := [] |} ]>
                (<[ 2 := {| cRoomID := "r1"; cRoomPlayerID := "p1"; cSend := [] |} ]>
                 {[ 3 := {| cRoomID := "r2"; cRoomPlayerID := "q1"; cSend := [] |} ]}) |}.

(** ** The token service ([internal/auth]) *)

#[global] Instance byte_eq_dec : EqDecision byte := Byte.byte_eq_dec.

Record Claims := {
  RoomID : string;
  RoomPlayerID : string;
  Exp : Z;
}.

(** What the token code takes from the Go library: SHA-256 ([crypto/sha256]),
    the unpadded URL alphabet of [encoding/base64], and [encoding/json] on
    [Claims]. *)
Record Lib := {
  sha256 : list byte → list byte;
  b64encode : list byte → list byte;
  b64decode : list byte → option (list byte);
  jsonMarshal : Claims → list byte;
  jsonUnmarshal : list byte → option Claims;
}.

(** The contract of [base64.RawURLEncoding]: decoding undoes encoding, and
    the alphabet has no dot. *)
Definition LibOk (L : Lib) : Prop :=
  (∀ b, b64decode L (b64encode L b) = Some b)
  ∧ (∀ b, "."%byte ∉ b64encode L b).

(** [crypto/hmac] (RFC 2104) over a hash of block size 64: a key longer than
    a block is hashed, and the key is then copied into a block of zero bytes;
    the inner pad is the block xor 0x36, the outer pad the block xor 0x5c. *)
Definition blockSize : nat := 64.

Definition xorByte (a b : byte) : byte :=
  default x00 (Byte.of_N (N.lxor (Byte.to_N a) (Byte.to_N b))).

Definition hmacKey (L : Lib) (key : list byte) : list byte :=
  let key := if decide (blockSize < length key) then sha256 L key else key in
  take blockSize (key ++ replicate (blockSize - length key) x00).

Definition hmacSHA256 (L : Lib) (key msg : list byte) : list byte :=
  let k := hmacKey L key in
  let ipad := xorByte x36 <$> k in
  let opad := xorByte x5c <$> k in
  sha256 L (opad ++ sha256 L (ipad ++ msg)).

Inductive tokenError :=
  | ErrSecretRequired        (* "token secret is required" *)
  | ErrTokenFormat           (* "invalid token format" *)
  | ErrSignatureEncoding     (* "invalid token signature encoding: ..." *)
  | ErrSignature             (* "invalid token signature" *)
  | ErrPayloadEncoding       (* "invalid token payload encoding: ..." *)
  | ErrPayload               (* "invalid token payload: ..." *)
  | ErrExpired               (* "token expired" *)
  | ErrClaims.               (* "invalid token claims: missing room_id or room_player_id" *)

(** [t.Unix()] of a time given in nanoseconds since the epoch. *)
Definition unixSeconds (ns : Z) : Z := (ns / 10 ^ 9)%Z.

(** The payload part of a token: the base64 of the JSON of the claims. *)
Definition tokenPayload (L : Lib) (roomID roomPlayerID : string) (exp : Z) : list byte :=
  b64encode L (jsonMarshal L {| RoomID := roomID; RoomPlayerID := roomPlayerID;
                               Exp := exp |}).

(** [GenerateToken]; [now] is [time.Now()], [expiry] the lifetime, both in
    nanoseconds.  The result is the token and the expiry time. *)
Definition GenerateToken (L : Lib) (now : Z) (roomID roomPlayerID : string)
    (secret : list byte) (expiry : Z) : tokenError + (list byte * Z) :=
  if decide (length secret = 0) then inl ErrSecretRequired
  else
    let expiresAt := (now + expiry)%Z in
    let b64Payload := tokenPayload L roomID roomPlayerID (unixSeconds expiresAt) in
    let sig := hmacSHA256 L secret b64Payload in
    let b64Sig := b64encode L sig in
    inr (b64Payload ++ ["."%byte] ++ b64Sig, expiresAt).

(** [strings.SplitN(token, ".", 2)] when it yields two parts. *)
Fixpoint splitDot (token : list byte) : option (list byte * list byte) :=
  match token with
  | [] => None
  | c :: rest =>
      if decide (c = "."%byte) then Some ([], rest)
      else match splitDot rest with
           | Some (a, b) => Some (c :: a, b)
           | None => None
           end
  end.

(** [VerifyToken]; [now] is [time.Now()] in nanoseconds. *)
Definition VerifyToken (L : Lib) (now : Z) (token secret : list byte)
    : tokenError + Claims :=
  if decide (length secret = 0) then inl ErrSecretRequired
  else
    match splitDot token with
    | None => inl ErrTokenFormat
    | Some (b64Payload, b64Sig) =>
        let expectedSig := hmacSHA256 L secret b64Payload in
        match b64decode L b64Sig with
        | None => inl ErrSignatureEncoding
        | Some sig =>
            if negb (bool_decide (sig = expectedSig)) then inl ErrSignature
            else
              match b64decode L b64Payload with
              | None => inl ErrPayloadEncoding
              | Some payload =>
                  match jsonUnmarshal L payload with
                  | None => inl ErrPayload
                  | Some claims =>
                      if (Exp claims <? unixSeconds now)%Z then inl ErrExpired
                      else if bool_decide (RoomID claims = "")
                              || bool_decide (RoomPlayerID claims = "")
                      then inl ErrClaims
                      else inr claims
                  end
              end
        end
    end.

(** A small library that meets the contract, to run the definitions: the
    identity in the place of the hash, two letters a byte in the place of
    base 64, and claims written as room, player and expiry separated by
    line feeds. *)
Definition nibble (n : N) : byte :=
  default "a"%byte (Byte.of_N (97 + n)).

Definition unnibble (c : byte) : option N :=
  let n := Byte.to_N c in
  if ((97 <=? n) && (n <? 113))%N then Some (n - 97)%N else None.

Fixpoint hexEncode (b : list byte) : list byte :=
  match b with
  | [] => []
  | x :: b => nibble (Byte.to_N x / 16) :: nibble (Byte.to_N x mod 16) :: hexEncode b
  end.

Fixpoint hexDecode (fuel : nat) (s : list byte) : option (list byte) :=
  match fuel, s with
  | _, [] => Some []
  | S fuel, hi :: lo :: s =>
      h ← unnibble hi; l ← unnibble lo; x ← Byte.of_N (16 * h + l);
      rest ← hexDecode fuel s; Some (x :: rest)
  | _, _ => None
  end.

(** The expiry written bit by bit. *)
Fixpoint bitsOfPos (p : positive) : list byte :=
  match p with
  | xH => []
  | xO p => "0"%byte :: bitsOfPos p
  | xI p => "1"%byte :: bitsOfPos p
  end.

Fixpoint posOfBits (b : list byte) : option positive :=
  match b with
  | [] => Some xH
  | c :: b =>
      if decide (c = "0"%byte) then xO <$> posOfBits b
      else if decide (c = "1"%byte) then xI <$> posOfBits b
      else None
  end.

Definition bitsOfZ (z : Z) : list byte :=
  match z with
  | Z0 => ["z"%byte]
  | Zpos p => "p"%byte :: bitsOfPos p
  | Zneg p => "n"%byte :: bitsOfPos p
  end.

Definition zOfBits (b : list byte) : option Z :=
  match b with
  | [] => None
  | c :: b =>
      if decide (c = "z"%byte) then Some 0%Z
      else if decide (c = "p"%byte) then Zpos <$> posOfBits b
      else if decide (c = "n"%byte) then Zneg <$> posOfBits b
      else None
  end.

Fixpoint splitLine (s : list byte) : list byte * list byte :=
  match s with
  | [] => ([], [])
  | c :: rest =>
      if decide (c = "010"%byte) then ([], rest)
      else let '(a, b) := splitLine rest in (c :: a, b)
  end.

Definition plainLib : Lib :=
  {| sha256 := λ b, b;
     b64encode := hexEncode;
     b64decode := λ s, hexDecode (length s) s;
     jsonMarshal := λ c,
       String.list_byte_of_string (RoomID c) ++ ["010"%byte]
       ++ String.list_byte_of_string (RoomPlayerID c) ++ ["010"%byte]
       ++ bitsOfZ (Exp c);
     jsonUnmarshal := λ b,
       let '(room, b) := splitLine b in
       let '(player, b) := splitLine b in
       exp ← zOfBits b;
       Some {| RoomID := String.string_of_list_byte room;
               RoomPlayerID := String.string_of_list_byte player;
               Exp := exp |} |}.

(** The secret "k", and the same followed by a zero byte. *)
Definition secretK : list byte := ["k"%byte].

(** One day, and a clock, in nanoseconds. *)
Definition DefaultTokenExpiry : Z := (24 * 3600 * 10 ^ 9)%Z.
Definition noon : Z := (1700000000 * 10 ^ 9)%Z.

(** The claims of the sample token. *)
Definition sampleClaims : Claims :=
  {| RoomID := "room"; RoomPlayerID := "player";
     Exp := unixSeconds (noon + DefaultTokenExpiry) |}.

(** ** What one call leaves of the store *)

(** The game rows an update of the status leaves: the same games in the same
    order, and every row but those of [gameID] as it was. *)
Definition sameGamesBut (gameID : string) (old new : list GameRow) : Prop :=
  Forall2 (λ g g', gID g' = gID g ∧ gRoomID g' = gRoomID g
                   ∧ (gID g ≠ gameID → g' = g)) old new.

(** One call of the engine for [gameID] appends to the tables and never
    rewrites them. *)
Definition grows (gameID : string) (d d' : DB) : Prop :=
  (∃ new, snapshots d' = snapshots d ++ new ∧ length new ≤ 1
          ∧ Forall (λ r, sGameID r = gameID) new)
  ∧ (∃ new, events d' = events d ++ new ∧ length new ≤ 1
            ∧ Forall (λ r, evGameID r = gameID) new)
  ∧ sameGamesBut gameID (games d) (games d')
  ∧ gamePlayers d' = gamePlayers d.

(** The version field inside the stored states: no write of the engine
    sets it ([ToMap] is taken before [Version] is assigned). *)
Definition versionUnset (d : DB) : Prop :=
  Forall (λ r, Version (StateFromMap (sStateJSON r)) = 0%Z) (snapshots d).

(** ** The rate limiter ([internal/ratelimit]) *)

Module RateLimit.

(** [Noop.Allow] *)
Definition NoopAllow (key : string) : bool * Z := (true, 0%Z).

(** [InMemory]: per key, the times of the requests let through, oldest
    first.  A [time.Time] is a number of nanoseconds on the limiter's clock
    ([nowFunc]), a [time.Duration] a number of nanoseconds; both stay far from
    the bounds of int64. *)
Record InMemory := {
  entries : gmap string (list Z);
  limit : Z;
  window : Z;
}.

Definition NewInMemory (limit window : Z) : InMemory :=
  {| entries := ∅; limit := limit; window := window |}.

(** The float64 nearest to the rational [a / b] (ties to even), for
    positive [a] and [b] and a quotient in the range of the normal numbers:
    mantissa [m] and exponent [e] of the value [m * 2 ^ e]. *)
Definition nearestFloat64 (a b : Z) : Z * Z :=
  let k := (Z.log2 a - Z.log2 b)%Z in
  let k := if (a * 2 ^ Z.max 0 (- k) <? b * 2 ^ Z.max 0 k)%Z
           then (k - 1)%Z else k in
  let e := (k - 52)%Z in
  let num := (a * 2 ^ Z.max 0 (- e))%Z in
  let den := (b * 2 ^ Z.max 0 e)%Z in
  let q := (num / den)%Z in
  let r := (num mod den)%Z in
  let q := if (2 * r <? den)%Z then q
           else if (den <? 2 * r)%Z then (q + 1)%Z
           else if Z.even q then q else (q + 1)%Z in
  (q, e).

(** [int(d.Seconds())].  [Duration.Seconds] is
    [float64(sec) + float64(nsec)/1e9] for [sec := d / Second] and
    [nsec := d % Second]: the two integers are exact in float64, the
    quotient and the sum are each rounded to the nearest float64, and the
    conversion to [int] truncates.  From 2^24 seconds on, a duration one
    nanosecond short of a whole second is rounded up to it. *)
Definition wholeSeconds (d : Z) : Z :=
  let sec := (Z.abs d / 10 ^ 9)%Z in
  let nsec := (Z.abs d mod 10 ^ 9)%Z in
  if (nsec =? 0)%Z then (Z.sgn d * sec)%Z
  else
    let '(m, e) := nearestFloat64 nsec (10 ^ 9) in
    let '(m, e) := nearestFloat64 (sec * 2 ^ (- e) + m) (2 ^ (- e)) in
    (Z.sgn d * (if (0 <=? e)%Z then m * 2 ^ e else m / 2 ^ (- e)))%Z.

(** [InMemory.Allow] at the time [now].  The loop compacts the slice of the
    key in place: the first [i] cells of its array receive the times that are
    still inside the window, the cells behind keep what they held.  When the
    request is let through the slice stored for the key is the compacted one
    followed by [now]; when it is refused the map still holds the old slice
    header over the compacted array.  [None] is the panic of [times[0]] on an
    empty slice. *)
Definition Allow (r : InMemory) (now : Z) (key : string)
    : option (bool * Z) * InMemory :=
  let cutoff := (now - window r)%Z in
  let times := default [] (entries r !! key) in
  let kept := filter (λ t, (cutoff < t)%Z) times in
  let compacted :=
    match entries r !! key with
    | Some _ => <[ key := kept ++ drop (length kept) times ]> (entries r)
    | None => entries r
    end in
  if (limit r <=? len kept)%Z then
    let r' := {| entries := compacted; limit := limit r; window := window r |} in
    match kept with
    | [] => (None, r')
    | oldest :: _ =>
        let retryAfter := (oldest + window r - now)%Z in
        let retryAfterSec :=
          if (0 <? retryAfter)%Z
          then let s := wholeSeconds retryAfter in if (s <? 1)%Z then 1%Z else s
          else 0%Z in
        (Some (false, retryAfterSec), r')
    end
  else
    (Some (true, 0%Z),
     {| entries := <[ key := kept ++ [now] ]> (entries r);
        limit := limit r; window := window r |}).

(** A sequence of requests, each with its time and key, served one after the
    other; the result lists the requests that were let through. *)
Fixpoint serve (r : InMemory) (calls : list (Z * string))
    : list (Z * string) * InMemory :=
  match calls with
  | [] => ([], r)
  | (now, key) :: rest =>
      let '(res, r') := Allow r now key in
      let '(granted, r'') := serve r' rest in
      (match res with
       | Some (true, _) => (now, key) :: granted
       | _ => granted
       end, r'')
  end.

(** The requests of [key] among [granted] whose time lies in the window
    that ends at [t]. *)
Definition inWindow (r : InMemory) (key : string) (t : Z)
    (granted : list (Z * string)) : list (Z * string) :=
  filter (λ c, c.2 = key ∧ (t - window r < c.1 <= t)%Z) granted.

(** The invariant of a limiter that has let through the requests [hist],
    none of them after [lo]: per key, the stored times are the times of the
    requests of the key that are later than some cut at least a window before
    [lo], there are at most [limit] of them, and no window holds more than
    [limit] requests of a key. *)
Definition tracks (r : InMemory) (lo : Z) (hist : list (Z * string)) : Prop :=
  (0 < limit r)%Z ∧ (0 < window r)%Z
  ∧ (∀ c, c ∈ hist → (c.1 <= lo)%Z)
  ∧ (∀ key, ∃ cut,
       (cut + window r <= lo)%Z
       ∧ default [] (entries r !! key)
         = (filter (λ c, c.2 = key ∧ (cut < c.1)%Z) hist).*1
       ∧ (len (default [] (entries r !! key)) <= limit r)%Z)
  ∧ (∀ key t, (len (inWindow r key t hist) <= limit r)%Z).

(** The [Limiter] interface and its two implementations. *)
Inductive Limiter :=
  | LNoop
  | LInMemory (r : InMemory).

Definition LimiterAllow (l : Limiter) (now : Z) (key : string)
    : option (bool * Z) * Limiter :=
  match l with
  | LNoop => (Some (NoopAllow key), LNoop)
  | LInMemory r => let '(res, r') := Allow r now key in (res, LInMemory r')
  end.

End RateLimit.

(** [RateLimitMiddleware] ([internal/httpapi/middleware.go]): what becomes of
    a request whose key function returned [key]. *)
Inductive Served :=
  | TooManyRequests (retryAfterHeader : option Z)  (* 429 "rate limit exceeded" *)
  | Next                                           (* the wrapped handler runs *)
  | Panic.

Definition RateLimitMiddleware (limiter : RateLimit.Limiter) (now : Z) (key : string)
    : Served * RateLimit.Limiter :=
  let key := if bool_decide (key = "") then "unknown" else key in
  match RateLimit.LimiterAllow limiter now key with
  | (None, l) => (Panic, l)
  | (Some (allowed, retryAfter), l) =>
      if negb allowed
      then (TooManyRequests (if (0 <? retryAfter)%Z then Some retryAfter else None), l)
      else (Next, l)
  end.

(** ** The keys of a snapshot *)

(** The fourteen keys [StateFromMap] reads. *)
Definition stateKeys : list string :=
  [ "game_id"; "phase"; "status"; "round_index"; "leader_index"; "player_ids";
    "roles"; "proposed_team"; "team_votes"; "mission_votes"; "mission_results";
    "reject_count"; "winner"; "version" ].

(** ** The hub loop ([Hub.Run], [internal/websocket]) *)

(** The hub and its clients as the loop of [Hub.Run] sees them.  A client is
    an object at an address; its send channel is a buffer of capacity 256
    that is open or closed.  The loop handles one request at a time.  (The
    sessions of [handleSyncState] above are these clients while their channel
    is open.) *)
Module WS.

Inductive OutgoingMessage :=
  | GameEvent (e : EventRow)
  | Envelope (e : ServerEnvelope).

(** [chan *OutgoingMessage], buffered. *)
Record Chan := {
  buf : list OutgoingMessage;
  closed : bool;
}.

Definition capacity : nat := 256.

(** [make(chan *OutgoingMessage, 256)] *)
Definition newChan : Chan := {| buf := []; closed := false |}.

(** [select { case ch <- m: default: }]: [None] is the panic of a send on a
    closed channel; the flag tells whether the message was taken. *)
Definition trySend (ch : Chan) (m : OutgoingMessage) : option (Chan * bool) :=
  if closed ch then None
  else if decide (length (buf ch) < capacity)
       then Some ({| buf := buf ch ++ [m]; closed := false |}, true)
       else Some (ch, false).

(** [close(ch)]: [None] is the panic of closing a closed channel. *)
Definition close (ch : Chan) : option Chan :=
  if closed ch then None else Some {| buf := buf ch; closed := true |}.

Record Client := {
  RoomID : string;
  GameID : string;
  RoomPlayerID : string;
  DisplayName : string;
  RateLimitKey : string;
  send : Chan;
}.

Definition withSend (ch : Chan) (c : Client) : Client :=
  {| RoomID := RoomID c; GameID := GameID c; RoomPlayerID := RoomPlayerID c;
     DisplayName := DisplayName c; RateLimitKey := RateLimitKey c; send := ch |}.

Record BroadcastMessage := {
  bRoomID : string;
  bEvent : option EventRow;
  bEnvelope : option ServerEnvelope;
  bExcludeClient : option nat;
}.

(** [rooms] is [map[string]map[*Client]bool], whose entries are all [true];
    [broadcast] holds the messages handed to the hub and not yet taken by
    the loop (a sender waits while the channel is full); [clients] holds the
    client objects by address. *)
Record Hub := {
  rooms : gmap string (gset nat);
  broadcast : list BroadcastMessage;
  clients : gmap nat Client;
}.

Definition NewHub : Hub := {| rooms := ∅; broadcast := []; clients := ∅ |}.

Definition withRooms (x : gmap string (gset nat)) (h : Hub) : Hub :=
  {| rooms := x; broadcast := broadcast h; clients := clients h |}.

Definition withClients (x : gmap nat Client) (h : Hub) : Hub :=
  {| rooms := rooms h; broadcast := broadcast h; clients := x |}.

Definition withBroadcast (x : list BroadcastMessage) (h : Hub) : Hub :=
  {| rooms := rooms h; broadcast := x; clients := clients h |}.

(** [case client := <-h.register] *)
Definition register (h : Hub) (c : nat) : option Hub :=
  client ← clients h !! c;
  let room := default ∅ (rooms h !! RoomID client) in
  Some (withRooms (<[ RoomID client := room ∪ {[ c ]} ]> (rooms h)) h).

(** [case client := <-h.unregister] *)
Definition unregister (h : Hub) (c : nat) : option Hub :=
  client ← clients h !! c;
  match rooms h !! RoomID client with
  | Some room =>
      if decide (c ∈ room) then
        let room := room ∖ {[ c ]} in
        ch ← close (send client);
        let h := withClients (<[ c := withSend ch client ]> (clients h)) h in
        Some (withRooms (if decide (size room = 0)
                         then delete (RoomID client) (rooms h)
                         else <[ RoomID client := room ]> (rooms h)) h)
      else Some h
  | None => Some h
  end.

(** The message the loop sends to the clients for a broadcast message. *)
Definition outgoing (m : BroadcastMessage) : option OutgoingMessage :=
  match bEvent m, bEnvelope m with
  | Some e, _ => Some (GameEvent e)
  | None, Some e => Some (Envelope e)
  | None, None => None
  end.

(** One turn of [for client := range room] in the broadcast case, for the
    client at [c]: a client whose buffer is full is closed and taken out of
    the room. *)
Definition deliverTo (m : BroadcastMessage) (h : option Hub) (c : nat) : option Hub :=
  h ← h;
  match rooms h !! bRoomID m with
  | Some room =>
      if decide (c ∈ room) then
        match outgoing m with
        | None => Some h
        | Some out =>
            if decide (bExcludeClient m = Some c) then Some h
            else
              client ← clients h !! c;
              match trySend (send client) out with
              | None => None
              | Some (ch, true) =>
                  Some (withClients (<[ c := withSend ch client ]> (clients h)) h)
              | Some (_, false) =>
                  ch ← close (send client);
                  Some (withRooms (<[ bRoomID m := room ∖ {[ c ]} ]> (rooms h))
                          (withClients (<[ c := withSend ch client ]> (clients h)) h))
              end
        end
      else Some h
  | None => Some h
  end.

(** [case message := <-h.broadcast]: the oldest message is taken and sent to
    the clients of its room, in the order [order] in which the range over
    the room happens to visit them. *)
Definition deliver (h : Hub) (order : list nat) : option Hub :=
  match broadcast h with
  | [] => Some h
  | m :: rest => foldl (deliverTo m) (Some (withBroadcast rest h)) order
  end.

(** [Broadcast], [BroadcastExcept], [BroadcastEnvelope] and
    [BroadcastEnvelopeExcept] hand a message to the hub. *)
Definition post (m : BroadcastMessage) (h : Hub) : Hub :=
  withBroadcast (broadcast h ++ [m]) h.

Definition Broadcast (h : Hub) (roomID : string) (event : EventRow) : Hub :=
  post {| bRoomID := roomID; bEvent := Some event; bEnvelope := None;
          bExcludeClient := None |} h.

Definition BroadcastExcept (h : Hub) (roomID : string) (event : EventRow)
    (excludeClient : option nat) : Hub :=
  post {| bRoomID := roomID; bEvent := Some event; bEnvelope := None;
          bExcludeClient := excludeClient |} h.

Definition BroadcastEnvelope (h : Hub) (roomID : string) (envelope : ServerEnvelope)
    : Hub :=
  post {| bRoomID := roomID; bEvent := None; bEnvelope := Some envelope;
          bExcludeClient := None |} h.

Definition BroadcastEnvelopeExcept (h : Hub) (roomID : string)
    (envelope : ServerEnvelope) (excludeClient : option nat) : Hub :=
  post {| bRoomID := roomID; bEvent := None; bEnvelope := Some envelope;
          bExcludeClient := excludeClient |} h.

Definition GetRoomClientCount (h : Hub) (roomID : string) : Z :=
  match rooms h !! roomID with
  | Some room => Z.of_nat (size room)
  | None => 0%Z
  end.

(** A new connection ([HandleWebSocket], [HandleRoomWebSocket]): the client
    object is made with an open, empty send channel. *)
Definition connect (h : Hub) (c : nat) (roomID gameID roomPlayerID displayName
    rateLimitKey : string) : Hub :=
  withClients (<[ c := {| RoomID := roomID; GameID := gameID;
                          RoomPlayerID := roomPlayerID; DisplayName := displayName;
                          RateLimitKey := rateLimitKey; send := newChan |} ]>
                 (clients h)) h.

(** [sendEnvelopeToClient]: a handler puts an envelope into the send channel
    of its own client, if there is room; [None] is the panic of a send on a
    closed channel. *)
Definition sendEnvelopeToClient (h : Hub) (c : nat) (envelope : ServerEnvelope)
    : option Hub :=
  client ← clients h !! c;
  match trySend (send client) (Envelope envelope) with
  | None => None
  | Some (ch, _) => Some (withClients (<[ c := withSend ch client ]> (clients h)) h)
  end.

(** [<-c.send] in [writePump]: the oldest waiting message is taken. *)
Definition receive (h : Hub) (c : nat) : Hub :=
  match clients h !! c with
  | Some client =>
      withClients (<[ c := withSend {| buf := tail (buf (send client));
                                       closed := closed (send client) |}
                             client ]> (clients h)) h
  | None => h
  end.

(** The clients of a room. *)
Definition members (h : Hub) (roomID : string) : gset nat :=
  default ∅ (rooms h !! roomID).

(** The states of the hub in a run: connections are made at new addresses
    and registered while their channel is open (a connection registers once,
    before its pumps start); the loop serves register, unregister and
    broadcast requests in any order; messages are handed to the hub;
    handlers answer their own client; and the write pumps take messages from
    the send channels. *)
Inductive reachable : Hub → Prop :=
  | reach_new : reachable NewHub
  | reach_connect h c roomID gameID roomPlayerID displayName rateLimitKey :
      reachable h → clients h !! c = None →
      reachable (connect h c roomID gameID roomPlayerID displayName rateLimitKey)
  | reach_register h c client h' :
      reachable h → clients h !! c = Some client → closed (send client) = false →
      register h c = Some h' → reachable h'
  | reach_unregister h c h' :
      reachable h → unregister h c = Some h' → reachable h'
  | reach_deliver h order h' :
      reachable h → deliver h order = Some h' → reachable h'
  | reach_post h m :
      reachable h → reachable (post m h)
  | reach_send h c envelope h' :
      reachable h → sendEnvelopeToClient h c envelope = Some h' → reachable h'
  | reach_receive h c :
      reachable h → reachable (receive h c).

(** [n] answers of a handler to the client at [c]. *)
Fixpoint answers (n : nat) (h : Hub) (c : nat) (envelope : ServerEnvelope)
    : option Hub :=
  match n with
  | O => Some h
  | S n => h ← sendEnvelopeToClient h c envelope; answers n h c envelope
  end.

(** A room of two connections, and the same room when the second one has
    stopped reading while 256 answers were sent to it. *)
Definition ann : Client :=
  {| RoomID := "r1"; GameID := ""; RoomPlayerID := "p1"; DisplayName := "Ann";
     RateLimitKey := "10.0.0.1"; send := newChan |}.

Definition bob : Client :=
  {| RoomID := "r1"; GameID := ""; RoomPlayerID := "p2"; DisplayName := "Bob";
     RateLimitKey := "10.0.0.2"; send := newChan |}.

Definition chat : ServerEnvelope :=
  {| envType := "event"; envEvent := "chat";
     envPayload := {[ "display_name" := VString "Ann"; "message" := VString "hi" ]} |}.

Definition roomOfOne : Hub :=
  {| rooms := {[ "r1" := {[ 1 ]} ]}; broadcast := []; clients := {[ 1 := ann ]} |}.

Definition roomOfTwo : Hub :=
  {| rooms := {[ "r1" := {[ 1; 2 ]} ]}; broadcast := [];
     clients := {[ 1 := ann; 2 := bob ]} |}.

Definition ping : ServerEnvelope :=
  {| envType := "event"; envEvent := "ping"; envPayload := ∅ |}.

Definition slowBob : Client :=
  withSend {| buf := replicate capacity (Envelope ping); closed := false |} bob.

Definition slowRoom : Hub :=
  {| rooms := {[ "r1" := {[ 1; 2 ]} ]}; broadcast := [];
     clients := {[ 1 := ann; 2 := slowBob ]} |}.

(** The invariant of the loop: the members of a room are clients of that
    room whose send channel is open. *)
Definition sound (h : Hub) : Prop :=
  ∀ roomID room c,
    rooms h !! roomID = Some room → c ∈ room →
    ∃ client, clients h !! c = Some client ∧ RoomID client = roomID
              ∧ closed (send client) = false.

End WS.
(** * Properties *)

(** ** Basic facts *)

Lemma Clone_eq (s : GameState) : Clone s = s.
Proof. by destruct s. Qed.

Lemma countVotes_votesFor (x : string) (m : gmap string string) :
  countVotes x m = votesFor x m.
Proof.
  unfold countVotes, votesFor.
  apply (map_fold_weak_ind
           (λ (n : Z) (m : gmap string string),
              n = Z.of_nat (size (filter (λ kv : string * string, kv.2 = x) m)))).
  - by rewrite map_filter_empty, map_size_empty.
  - intros k v m' n Hk ->.
    case_bool_decide as Hv.
    + rewrite map_filter_insert_True by done.
      rewrite map_size_insert_None; [lia|].
      by rewrite map_lookup_filter_None; left.
    + rewrite map_filter_insert_not' by (simpl; naive_solver).
      done.
Qed.

Lemma votesFor_pos (x : string) (m : gmap string string) :
  (0 < votesFor x m)%Z ↔ ∃ k, m !! k = Some x.
Proof.
  unfold votesFor. split.
  - intros Hpos.
    destruct (map_choose (filter (λ kv : string * string, kv.2 = x) m)) as (k & v & Hkv).
    { intros Hempty. rewrite Hempty, map_size_empty in Hpos. lia. }
    apply map_lookup_filter_Some in Hkv as [Hk Hv]. simpl in Hv. subst. eauto.
  - intros [k Hk].
    assert (filter (λ kv : string * string, kv.2 = x) m !! k = Some x) as Hf
      by by apply map_lookup_filter_Some.
    destruct (decide (size (filter (λ kv : string * string, kv.2 = x) m) = 0)) as [H0|]; [|lia].
    apply map_size_empty_inv in H0. rewrite H0 in Hf. by rewrite lookup_empty in Hf.
Qed.

Lemma countResults_from (x : string) (l : list string) (n : Z) :
  foldl (λ n r, if bool_decide (r = x) then (n + 1)%Z else n) n l
  = (n + resultsOf x l)%Z.
Proof.
  unfold resultsOf. revert n. induction l as [|r l IH]; intros n; simpl.
  - lia.
  - rewrite IH. rewrite filter_cons. case_bool_decide; case_decide; try done; simpl; lia.
Qed.

Lemma countResults_resultsOf (x : string) (l : list string) :
  countResults x l = resultsOf x l.
Proof. unfold countResults. by rewrite countResults_from. Qed.

Lemma isPlayerInGame_true (s : GameState) (id : string) :
  isPlayerInGame s id = true ↔ id ∈ PlayerIDs s.
Proof.
  unfold isPlayerInGame. rewrite existsb_exists. split.
  - intros (y & Hy & Heq). apply bool_decide_eq_true in Heq. subst.
    by apply list_elem_of_In.
  - intros Hin. exists id. split; [by apply list_elem_of_In|].
    by apply bool_decide_eq_true.
Qed.

Lemma isOnProposedTeam_true (s : GameState) (id : string) :
  isOnProposedTeam s id = true ↔ id ∈ ProposedTeam s.
Proof.
  unfold isOnProposedTeam. rewrite existsb_exists. split.
  - intros (y & Hy & Heq). apply bool_decide_eq_true in Heq. subst.
    by apply list_elem_of_In.
  - intros Hin. exists id. split; [by apply list_elem_of_In|].
    by apply bool_decide_eq_true.
Qed.

Lemma wrap_int_id (z : Z) : (- 2 ^ 63 <= z < 2 ^ 63)%Z → wrap_int z = z.
Proof. intros H. unfold wrap_int. rewrite Z.mod_small; lia. Qed.

Lemma len_nonneg {A} (l : list A) : (0 <= len l)%Z.
Proof. unfold len. lia. Qed.

(** ** Team vote *)

Lemma LeaderPlayerID_in_range (s : GameState) :
  (0 <= LeaderIndex s < len (PlayerIDs s))%Z →
  LeaderPlayerID s = index (PlayerIDs s) (LeaderIndex s).
Proof.
  intros H. unfold LeaderPlayerID.
  destruct (LeaderIndex s <? 0)%Z eqn:E1; [lia|].
  destruct (len (PlayerIDs s) <=? LeaderIndex s)%Z eqn:E2; [lia|]. done.
Qed.

(** The flag of a vote: a JSON boolean, or one of the strings "true" and
    "false". *)
Lemma boolFromPayload_flag (payload : gmap string value) (key : string) (b : bool) :
  payload !! key = Some (VBool b)
  ∨ payload !! key = Some (VString (if b then "true" else "false")) →
  boolFromPayload payload key = Some b.
Proof. unfold boolFromPayload. intros [-> | ->]; [done|]. by destruct b. Qed.

Lemma index_lookup (l : list string) (i : Z) :
  (0 <= i < len l)%Z → l !! Z.to_nat i = Some (index l i).
Proof.
  intros Hi. unfold index, len in *.
  destruct (lookup_lt_is_Some_2 l (Z.to_nat i)) as [x Hx]; [lia|].
  by rewrite (nth_lookup_Some _ _ _ _ Hx).
Qed.

(** The steps of a team vote, in terms of the setters. *)
Lemma applyTeamVote_steps
    (e : Engine) (s : GameState) (actor : string)
    (payload : gmap string value) (approved : bool) :
  Phase s = PhaseTeamVote →
  actor ∈ PlayerIDs s →
  TeamVotes s !! actor = None →
  boolFromPayload payload "approved" = Some approved →
  (0 <= LeaderIndex s < max_int)%Z →
  (- 2 ^ 63 <= RejectCount s < max_int)%Z →
  let votes := <[ actor := teamVote approved ]> (TeamVotes s) in
  let n := len (PlayerIDs s) in
  (maplen votes < n →
     applyVote e s actor payload
     = Ok (setTeamVotes votes s, [voteRecorded actor]))%Z
  ∧ (maplen votes = n → n / 2 < votesFor "approve" votes →
     applyVote e s actor payload
     = Ok (setTeamVotes ∅ (setPhase PhaseMissionVote s), [teamApproved]))%Z
  ∧ (maplen votes = n → votesFor "approve" votes <= n / 2 →
     applyVote e s actor payload
     = Ok (teamRejectedState s, [teamRejected (teamRejectedState s)])
     ∧ RejectCount (teamRejectedState s) = RejectCount s + 1
     ∧ LeaderIndex (teamRejectedState s) = (LeaderIndex s + 1) mod n)%Z.
Proof.
  intros Hphase Hin Hnone Hpay Hleader Hrej votes n.
  assert (0 < n)%Z as Hn.
  { subst n. unfold len. destruct (PlayerIDs s); [by apply elem_of_nil in Hin|simpl; lia]. }
  assert (applyVote e s actor payload = applyTeamVote s actor payload) as ->.
  { unfold applyVote. apply isPlayerInGame_true in Hin. rewrite Hin. simpl.
    by rewrite bool_decide_eq_true_2. }
  unfold applyTeamVote. rewrite Hpay, Clone_eq, Hnone.
  cbn [TeamVotes setTeamVotes PlayerIDs].
  fold (teamVote approved). fold votes. fold n.
  rewrite countVotes_votesFor.
  rewrite Z.quot_div_nonneg by lia.
  unfold max_int in *.
  split; [|split].
  - intros Hlt. destruct (n <=? maplen votes)%Z eqn:E; [lia|done].
  - intros Heq Happ. destruct (n <=? maplen votes)%Z eqn:E; [|lia].
    destruct (n / 2 <? votesFor "approve" votes)%Z eqn:E2; [|lia]. done.
  - intros Heq Happ. destruct (n <=? maplen votes)%Z eqn:E; [|lia].
    destruct (n / 2 <? votesFor "approve" votes)%Z eqn:E2; [lia|].
    cbn [setTeamVotes setProposedTeam setLeaderIndex setPhase setRejectCount
         RejectCount LeaderIndex PlayerIDs Phase].
    fold n.
    rewrite !wrap_int_id by lia.
    rewrite Z.rem_mod_nonneg by lia.
    rewrite LeaderPlayerID_in_range.
    2:{ cbn [setTeamVotes setProposedTeam setLeaderIndex setPhase setRejectCount
             LeaderIndex PlayerIDs].
        fold n. apply Z.mod_pos_bound. lia. }
    done.
Qed.


(** C2.  A vote in "team_vote" by a player who has not voted yet, carrying
    the flag [approved] (a boolean, or the string "true" or "false"), is
    recorded as "approve" or "reject".  While fewer than |player_ids| votes
    are in, the state only gains the vote and the single event is
    "vote_recorded" naming the voter.  When the vote completes the ballot, a
    strict majority of approvals moves the game to "mission_vote" with the
    votes cleared and a "team_approved" event; otherwise reject_count grows
    by one, the leader index advances by one modulo |player_ids|, the phase
    returns to "team_selection", the proposal and the votes are cleared, and
    "team_rejected" carries the new reject_count and the id of the new
    leader.  Every other field of the state stays as it was. *)
Theorem team_vote_transition
    (e : Engine) (s : GameState) (actor : string)
    (payload : gmap string value) (approved : bool) :
  Phase s = "team_vote" →
  actor ∈ PlayerIDs s →
  TeamVotes s !! actor = None →
  payload !! "approved" = Some (VBool approved)
  ∨ payload !! "approved" = Some (VString (if approved then "true" else "false")) →
  (0 <= LeaderIndex s < max_int)%Z →
  (- 2 ^ 63 <= RejectCount s < max_int)%Z →
  let votes := <[ actor := if approved then "approve" else "reject" ]> (TeamVotes s) in
  let n := len (PlayerIDs s) in
  let leader := ((LeaderIndex s + 1) mod n)%Z in
  (maplen votes < n →
     applyVote e s actor payload
     = Ok ({| GameID := GameID s; Phase := "team_vote"; Status := Status s;
              RoundIndex := RoundIndex s; LeaderIndex := LeaderIndex s;
              PlayerIDs := PlayerIDs s; Roles := Roles s;
              ProposedTeam := ProposedTeam s; TeamVotes := votes;
              MissionVotes := MissionVotes s; MissionResults := MissionResults s;
              RejectCount := RejectCount s; Winner := Winner s;
              Version := Version s |},
           [ {| Event := "vote_recorded";
                Payload := {[ "player_id" := VString actor ]} |} ]))%Z
  ∧ (maplen votes = n → n / 2 < votesFor "approve" votes →
     applyVote e s actor payload
     = Ok ({| GameID := GameID s; Phase := "mission_vote"; Status := Status s;
              RoundIndex := RoundIndex s; LeaderIndex := LeaderIndex s;
              PlayerIDs := PlayerIDs s; Roles := Roles s;
              ProposedTeam := ProposedTeam s; TeamVotes := ∅;
              MissionVotes := MissionVotes s; MissionResults := MissionResults s;
              RejectCount := RejectCount s; Winner := Winner s;
              Version := Version s |},
           [ {| Event := "team_approved";
                Payload := {[ "phase" := VString "mission_vote" ]} |} ]))%Z
  ∧ (maplen votes = n → votesFor "approve" votes <= n / 2 →
     ∃ leaderID,
       PlayerIDs s !! Z.to_nat leader = Some leaderID
       ∧ applyVote e s actor payload
         = Ok ({| GameID := GameID s; Phase := "team_selection";
                  Status := Status s; RoundIndex := RoundIndex s;
                  LeaderIndex := leader;
                  PlayerIDs := PlayerIDs s; Roles := Roles s;
                  ProposedTeam := []; TeamVotes := ∅;
                  MissionVotes := MissionVotes s;
                  MissionResults := MissionResults s;
                  RejectCount := RejectCount s + 1; Winner := Winner s;
                  Version := Version s |},
               [ {| Event := "team_rejected";
                    Payload := <[ "phase" := VString "team_selection" ]>
                              (<[ "reject_count" := VInt (RejectCount s + 1) ]>
                               {[ "leader_id" := VString leaderID ]}) |} ]))%Z.
Proof.
  intros Hphase Hin Hnone Hflag Hleader Hrej votes n leader.
  pose proof (boolFromPayload_flag payload "approved" approved Hflag) as Hpay.
  destruct (applyTeamVote_steps e s actor payload approved
              Hphase Hin Hnone Hpay Hleader Hrej) as (Hrec & Happ & Hrejd).
  assert (0 < n)%Z as Hn.
  { subst n. unfold len. destruct (PlayerIDs s); [by apply elem_of_nil in Hin|simpl; lia]. }
  split; [|split].
  - intros Hlt. rewrite (Hrec Hlt). subst votes.
    rewrite <- Hphase. by destruct s.
  - intros Heq Hmaj. rewrite (Happ Heq Hmaj). by destruct s.
  - intros Heq Hmin. destruct (Hrejd Heq Hmin) as (Hres & _ & _).
    exists (index (PlayerIDs s) leader). split.
    + apply index_lookup. subst leader. by apply Z.mod_pos_bound.
    + rewrite Hres. subst leader n. by destruct s.
Qed.

Lemma team_vote_transition_witness :
  applyVote classicEngine sampleTeamVote "p5" {[ "approved" := VBool false ]}
  = Ok ({| GameID := "g1"; Phase := "team_selection"; Status := "in_progress";
           RoundIndex := 1; LeaderIndex := 1; PlayerIDs := fivePlayers;
           Roles := ∅; ProposedTeam := []; TeamVotes := ∅; MissionVotes := ∅;
           MissionResults := []; RejectCount := 1; Winner := ""; Version := 0 |},
        [ {| Event := "team_rejected";
             Payload := <[ "phase" := VString "team_selection" ]>
                       (<[ "reject_count" := VInt 1 ]>
                        {[ "leader_id" := VString "p2" ]}) |} ]).
Proof.
  assert (Phase sampleTeamVote = "team_vote") as H1 by reflexivity.
  assert ("p5" ∈ PlayerIDs sampleTeamVote) as H2
    by (apply isPlayerInGame_true; vm_compute; reflexivity).
  assert (TeamVotes sampleTeamVote !! "p5" = None) as H3 by (vm_compute; reflexivity).
  assert (0 <= LeaderIndex sampleTeamVote < max_int)%Z as H5 by (vm_compute; intuition congruence).
  assert (- 2 ^ 63 <= RejectCount sampleTeamVote < max_int)%Z as H6
    by (vm_compute; intuition congruence).
  assert (({[ "approved" := VBool false ]} : gmap string value) !! "approved"
          = Some (VBool false)
          ∨ ({[ "approved" := VBool false ]} : gmap string value) !! "approved"
            = Some (VString "false")) as H4 by (left; vm_compute; reflexivity).
  destruct (team_vote_transition classicEngine sampleTeamVote "p5"
              {[ "approved" := VBool false ]} false
              H1 H2 H3 H4 H5 H6) as (_ & _ & Hrej).
  destruct Hrej as (leaderID & Hleader & Hres);
    [vm_compute; reflexivity|vm_compute; intros; discriminate|].
  assert (leaderID = "p2") as -> by (vm_compute in Hleader; congruence).
  exact Hres.
Defined.

(** ** Mission vote *)

Lemma resultsOf_app (x : string) (l1 l2 : list string) :
  resultsOf x (l1 ++ l2) = (resultsOf x l1 + resultsOf x l2)%Z.
Proof. unfold resultsOf. rewrite filter_app, length_app. lia. Qed.

(** When every result is "success" or "fail", the successes are the rounds
    that are not failures. *)
Lemma resultsOf_success (l : list string) :
  Forall (λ r, r = "success" ∨ r = "fail") l →
  (len l - resultsOf "fail" l = resultsOf "success" l)%Z.
Proof.
  unfold len, resultsOf. induction 1 as [|r l Hr _ IH]; [done|].
  rewrite !filter_cons. simpl length.
  destruct Hr as [-> | ->]; repeat case_decide; try done; simpl length; lia.
Qed.

Lemma missionResult_cases (votes : gmap string string) :
  missionResult votes = "success" ∨ missionResult votes = "fail".
Proof. unfold missionResult. case_bool_decide; auto. Qed.

(** The steps of a mission vote, in terms of the setters. *)
Lemma applyMissionVote_steps
    (e : Engine) (s : GameState) (actor : string)
    (payload : gmap string value) (success : bool) :
  wellFormed s →
  Phase s = PhaseMissionVote →
  actor ∈ ProposedTeam s →
  MissionVotes s !! actor = None →
  boolFromPayload payload "success" = Some success →
  (0 <= LeaderIndex s < max_int)%Z →
  (- 2 ^ 63 <= RoundIndex s < max_int)%Z →
  let votes := <[ actor := missionVote success ]> (MissionVotes s) in
  let result := missionResult votes in
  let next := missionResolvedState s result in
  let fails := resultsOf "fail" (MissionResults next) in
  let successes := resultsOf "success" (MissionResults next) in
  (maplen votes < len (ProposedTeam s) →
     applyVote e s actor payload
     = Ok (setMissionVotes votes s, [voteRecorded actor]))%Z
  ∧ (result = "fail" ↔ ∃ p, votes !! p = Some "fail")
  ∧ MissionResults next = MissionResults s ++ [result]
  ∧ ProposedTeam next = [] ∧ MissionVotes next = ∅
  ∧ (maplen votes = len (ProposedTeam s) → FailThreshold (config e) <= fails →
     applyVote e s actor payload
     = Ok (finishedState "evil" next, [gameEnded "evil" result]))%Z
  ∧ (maplen votes = len (ProposedTeam s) → fails < FailThreshold (config e) →
     3 <= successes →
     applyVote e s actor payload
     = Ok (finishedState "good" next, [gameEnded "good" result]))%Z
  ∧ (maplen votes = len (ProposedTeam s) → fails < FailThreshold (config e) →
     successes < 3 →
     applyVote e s actor payload = Ok (next, [missionResolved next result])
     ∧ Phase next = PhaseTeamSelection
     ∧ RoundIndex next = RoundIndex s + 1
     ∧ LeaderIndex next = (LeaderIndex s + 1) mod len (PlayerIDs s)
     ∧ RejectCount next = 0)%Z
  ∧ (∀ cfg, FailThreshold cfg <= 0 → FailThreshold (config (NewEngine cfg)) = 3)%Z.
Proof.
  intros (_ & Hplayers & Hres) Hphase Hteam Hnone Hpay Hleader Hround
    votes result next fails successes.
  assert (actor ∈ PlayerIDs s) as Hin
    by (rewrite Forall_forall in Hplayers; by apply Hplayers).
  set (n := len (PlayerIDs s)).
  assert (0 < n)%Z as Hn.
  { subst n. unfold len. destruct (PlayerIDs s); [by apply elem_of_nil in Hin|simpl; lia]. }
  assert (applyVote e s actor payload = applyMissionVote e s actor payload) as ->.
  { unfold applyVote. apply isPlayerInGame_true in Hin. rewrite Hin. simpl.
    rewrite bool_decide_eq_false_2 by (rewrite Hphase; discriminate).
    by rewrite bool_decide_eq_true_2. }
  assert (len (MissionResults next) - fails = successes)%Z as Hsucc.
  { subst fails successes. apply resultsOf_success.
    subst next. cbn. apply Forall_app. split; [done|].
    apply Forall_singleton. apply missionResult_cases. }
  unfold applyMissionVote. rewrite Hpay.
  apply isOnProposedTeam_true in Hteam. rewrite Hteam. simpl negb. cbv iota.
  rewrite Clone_eq, Hnone.
  fold (missionVote success). fold votes.
  cbn [MissionVotes setMissionVotes setMissionResults setProposedTeam setPhase
       setLeaderIndex setRejectCount setRoundIndex MissionResults PlayerIDs
       LeaderIndex RoundIndex ProposedTeam].
  rewrite countVotes_votesFor, !countResults_resultsOf.
  replace (if (0 <? votesFor "fail" votes)%Z then "fail" else "success")
    with result.
  2:{ subst result. unfold missionResult.
      destruct (0 <? votesFor "fail" votes)%Z eqn:E; case_bool_decide; try done; lia. }
  fold n. unfold max_int in *.
  rewrite !wrap_int_id by lia.
  rewrite Z.rem_mod_nonneg by lia.
  change (MissionResults s ++ [result]) with (MissionResults next).
  fold fails. rewrite Hsucc.
  split; [|split; [|split; [|split; [|split; [|split; [|split; [|split]]]]]]].
  - intros Hlt. destruct (len (ProposedTeam s) <=? maplen votes)%Z eqn:E; [lia|done].
  - subst result. unfold missionResult. rewrite <- votesFor_pos.
    case_bool_decide; split; (done || lia).
  - done.
  - done.
  - done.
  - intros Heq Hf. destruct (len (ProposedTeam s) <=? maplen votes)%Z eqn:E; [|lia].
    destruct (FailThreshold (config e) <=? fails)%Z eqn:E1; [|lia]. done.
  - intros Heq Hf Hs. destruct (len (ProposedTeam s) <=? maplen votes)%Z eqn:E; [|lia].
    destruct (FailThreshold (config e) <=? fails)%Z eqn:E1; [lia|].
    destruct (3 <=? successes)%Z eqn:E2; [|lia]. done.
  - intros Heq Hf Hs. destruct (len (ProposedTeam s) <=? maplen votes)%Z eqn:E; [|lia].
    destruct (FailThreshold (config e) <=? fails)%Z eqn:E1; [lia|].
    destruct (3 <=? successes)%Z eqn:E2; [lia|].
    rewrite LeaderPlayerID_in_range.
    2:{ cbn [setMissionVotes setMissionResults setProposedTeam setPhase
             setLeaderIndex setRejectCount setRoundIndex LeaderIndex PlayerIDs].
        fold n. apply Z.mod_pos_bound. lia. }
    done.
  - intros cfg Hcfg. unfold NewEngine.
    destruct (Phases cfg), (TeamSizes cfg); cbn;
      destruct (FailThreshold cfg <=? 0)%Z eqn:E; try lia; done.
Qed.


(** C1.  In a state of a run ([wellFormed]: the team is made of players, the
    results are "success" or "fail"), a vote in "mission_vote" by a member of
    the proposed team who has not voted yet, carrying the flag [success] (a
    boolean, or the string "true" or "false"), is recorded as "success" or
    "fail".  While fewer than |proposed_team| votes are in, the state only
    gains the vote and the single event is "vote_recorded".  When the vote
    completes the mission, the result is "fail" exactly when some recorded
    vote is "fail" and "success" otherwise; it is appended to
    mission_results, the proposal and the votes are cleared, the round is
    incremented, the leader advanced by one modulo |player_ids| and
    reject_count reset.  Then fail_threshold failures end the game for evil
    (status "finished", phase "finished", winner "evil"), else three
    successes end it for good, both with "game_ended"; else the game goes on
    in "team_selection" with a "mission_resolved" event.  Every other field
    of the state stays as it was.  The threshold of an engine built without
    one is 3. *)
Theorem mission_vote_transition
    (e : Engine) (s : GameState) (actor : string)
    (payload : gmap string value) (success : bool) :
  wellFormed s →
  Phase s = "mission_vote" →
  actor ∈ ProposedTeam s →
  MissionVotes s !! actor = None →
  payload !! "success" = Some (VBool success)
  ∨ payload !! "success" = Some (VString (if success then "true" else "false")) →
  (0 <= LeaderIndex s < max_int)%Z →
  (- 2 ^ 63 <= RoundIndex s < max_int)%Z →
  let votes := <[ actor := if success then "success" else "fail" ]> (MissionVotes s) in
  let result := missionResult votes in
  let results := MissionResults s ++ [result] in
  let fails := resultsOf "fail" results in
  let successes := resultsOf "success" results in
  let leader := ((LeaderIndex s + 1) mod len (PlayerIDs s))%Z in
  let resolved (phase status winner : string) :=
    {| GameID := GameID s; Phase := phase; Status := status;
       RoundIndex := RoundIndex s + 1; LeaderIndex := leader;
       PlayerIDs := PlayerIDs s; Roles := Roles s;
       ProposedTeam := []; TeamVotes := TeamVotes s; MissionVotes := ∅;
       MissionResults := results; RejectCount := 0; Winner := winner;
       Version := Version s |} in
  let ended (winner : string) :=
    {| Event := "game_ended";
       Payload := <[ "winner" := VString winner ]>
                    {[ "mission_result" := VString result ]} |} in
  (maplen votes < len (ProposedTeam s) →
     applyVote e s actor payload
     = Ok ({| GameID := GameID s; Phase := "mission_vote"; Status := Status s;
              RoundIndex := RoundIndex s; LeaderIndex := LeaderIndex s;
              PlayerIDs := PlayerIDs s; Roles := Roles s;
              ProposedTeam := ProposedTeam s; TeamVotes := TeamVotes s;
              MissionVotes := votes; MissionResults := MissionResults s;
              RejectCount := RejectCount s; Winner := Winner s;
              Version := Version s |},
           [ {| Event := "vote_recorded";
                Payload := {[ "player_id" := VString actor ]} |} ]))%Z
  ∧ ((result = "fail" ∧ ∃ p, votes !! p = Some "fail")
     ∨ (result = "success" ∧ ¬ ∃ p, votes !! p = Some "fail"))
  ∧ (maplen votes = len (ProposedTeam s) → FailThreshold (config e) <= fails →
     applyVote e s actor payload
     = Ok (resolved "finished" "finished" "evil", [ended "evil"]))%Z
  ∧ (maplen votes = len (ProposedTeam s) → fails < FailThreshold (config e) →
     3 <= successes →
     applyVote e s actor payload
     = Ok (resolved "finished" "finished" "good", [ended "good"]))%Z
  ∧ (maplen votes = len (ProposedTeam s) → fails < FailThreshold (config e) →
     successes < 3 →
     ∃ leaderID,
       PlayerIDs s !! Z.to_nat leader = Some leaderID
       ∧ applyVote e s actor payload
         = Ok (resolved "team_selection" (Status s) (Winner s),
               [ {| Event := "mission_resolved";
                    Payload := <[ "result" := VString result ]>
                              (<[ "round_index" := VInt (RoundIndex s + 1) ]>
                               (<[ "leader_id" := VString leaderID ]>
                                {[ "phase" := VString "team_selection" ]})) |} ]))%Z
  ∧ (∀ cfg, FailThreshold cfg <= 0 → FailThreshold (config (NewEngine cfg)) = 3)%Z.
Proof.
  intros Hwf Hphase Hteam Hnone Hflag Hleader Hround
    votes result results fails successes leader resolved ended.
  pose proof (boolFromPayload_flag payload "success" success Hflag) as Hpay.
  destruct (applyMissionVote_steps e s actor payload success
              Hwf Hphase Hteam Hnone Hpay Hleader Hround)
    as (Hrec & Hres & _ & _ & _ & Hevil & Hgood & Hgoes & Hcfg).
  assert (actor ∈ PlayerIDs s) as Hin.
  { destruct Hwf as (_ & Hplayers & _).
    rewrite Forall_forall in Hplayers. by apply Hplayers. }
  assert (0 < len (PlayerIDs s))%Z as Hn.
  { unfold len. destruct (PlayerIDs s); [by apply elem_of_nil in Hin|simpl; lia]. }
  split; [|split; [|split; [|split; [|split]]]].
  - intros Hlt. rewrite (Hrec Hlt). subst votes. rewrite <- Hphase. by destruct s.
  - destruct (missionResult_cases votes) as [Hs|Hf].
    + right. split; [done|]. intros Hp. apply Hres in Hp.
      change (missionResult votes = "fail") in Hp. rewrite Hs in Hp. discriminate.
    + left. split; [done|]. by apply Hres.
  - intros Heq Hf. rewrite (Hevil Heq Hf).
    subst resolved ended results leader result votes. by destruct s.
  - intros Heq Hf Hs. rewrite (Hgood Heq Hf Hs).
    subst resolved ended results leader result votes. by destruct s.
  - intros Heq Hf Hs. destruct (Hgoes Heq Hf Hs) as (Hnext & _).
    exists (index (PlayerIDs s) leader). split.
    + apply index_lookup. subst leader. by apply Z.mod_pos_bound.
    + rewrite Hnext.
      subst resolved ended results leader result votes. by destruct s.
  - exact Hcfg.
Qed.

Lemma mission_vote_transition_witness :
  applyVote classicEngine sampleMissionVote "p1" {[ "success" := VBool true ]}
  = Ok ({| GameID := "g1"; Phase := "finished"; Status := "finished";
           RoundIndex := 5; LeaderIndex := 4; PlayerIDs := fivePlayers;
           Roles := ∅; ProposedTeam := []; TeamVotes := ∅; MissionVotes := ∅;
           MissionResults := ["success"; "success"; "fail"; "success"];
           RejectCount := 0; Winner := "good"; Version := 0 |},
        [ {| Event := "game_ended";
             Payload := <[ "winner" := VString "good" ]>
                          {[ "mission_result" := VString "success" ]} |} ]).
Proof.
  assert (wellFormed sampleMissionVote) as H0.
  { unfold wellFormed. split_and!; [discriminate| |].
    - cbn [sampleMissionVote ProposedTeam PlayerIDs fivePlayers].
      repeat constructor.
    - cbn [sampleMissionVote MissionResults].
      repeat (constructor; [auto|]). constructor. }
  assert (Phase sampleMissionVote = "mission_vote") as H1 by reflexivity.
  assert ("p1" ∈ ProposedTeam sampleMissionVote) as H2
    by (apply isOnProposedTeam_true; vm_compute; reflexivity).
  assert (MissionVotes sampleMissionVote !! "p1" = None) as H4
    by (vm_compute; reflexivity).
  assert (({[ "success" := VBool true ]} : gmap string value) !! "success"
          = Some (VBool true)
          ∨ ({[ "success" := VBool true ]} : gmap string value) !! "success"
            = Some (VString "true")) as H5 by (left; vm_compute; reflexivity).
  assert (0 <= LeaderIndex sampleMissionVote < max_int)%Z as H7
    by (vm_compute; intuition congruence).
  assert (- 2 ^ 63 <= RoundIndex sampleMissionVote < max_int)%Z as H8
    by (vm_compute; intuition congruence).
  destruct (mission_vote_transition classicEngine sampleMissionVote "p1"
              {[ "success" := VBool true ]} true
              H0 H1 H2 H4 H5 H7 H8) as (_ & _ & _ & Hgood & _).
  rewrite Hgood; [vm_compute; reflexivity|vm_compute; reflexivity
                 |vm_compute; reflexivity|vm_compute; intros; discriminate].
Defined.

(** ** Team proposal *)

(** The engine built from the classic preset carries the five-player sizes. *)
Lemma classicEngine_team_sizes :
  TeamSizes (config classicEngine) = Some [2; 3; 2; 3; 3]%Z.
Proof. reflexivity. Qed.

(** An accepted proposal only names players of the game. *)
Lemma proposeTeam_members (e : Engine) (s next : GameState) (actor : string)
    (payload : gmap string value) (evs : list BroadcastEvent) :
  proposeTeam e s actor payload = Ok (next, evs) →
  Forall (λ id, id ∈ PlayerIDs next) (ProposedTeam next)
  ∧ Phase next = PhaseTeamVote ∧ TeamVotes next = ∅.
Proof.
  unfold proposeTeam. case_bool_decide; simpl; [|done].
  destruct (stringSliceFromPayload (payload !! "team_ids")) as [team ok].
  destruct (if ok then (team, ok) else stringSliceFromPayload (payload !! "team"))
    as [team' ok'].
  destruct ok'; simpl; [|done].
  match goal with |- context [negb ?b] => destruct b; simpl; [|done] end.
  destruct (find _ team') as [id|] eqn:Hfind; [done|].
  intros [= <- <-]. cbn. split; [|done].
  apply Forall_forall. intros id Hid.
  apply isPlayerInGame_true.
  apply list_elem_of_In in Hid.
  apply (find_none _ _ Hfind) in Hid as Hneg.
  by apply negb_false_iff in Hneg.
Qed.

(** C4.  With the engine built from the classic preset, six players and
    round 3: the per-player-count table asks for a team of 4, but the engine
    refuses a team of 4 (asking for 2) and accepts a team of 2. *)
Theorem propose_team_six_players_round3 :
  nth 2 (DefaultTeamSizesForPlayerCount (len (PlayerIDs sampleRound3))) 0%Z = 4%Z
  ∧ applyAction classicEngine sampleRound3 "p3"
      (proposePayload ["p3"; "p4"; "p5"; "p6"])
    = Err (ErrTeamSize 2)
  ∧ applyAction classicEngine sampleRound3 "p3" (proposePayload ["p3"; "p4"])
    = Ok (teamProposedState sampleRound3 ["p3"; "p4"], [teamProposed ["p3"; "p4"]]).
Proof. split; [|split]; vm_compute; reflexivity. Qed.

(** ** Snapshot round trip *)

Lemma lookup_cond_insert_ne (b : bool) (k k' : string) (v : value)
    (m : gmap string value) :
  k ≠ k' → (if b then <[ k := v ]> m else m) !! k' = m !! k'.
Proof. intros. destruct b; [by rewrite lookup_insert_ne|done]. Qed.

Lemma lookup_cond_insert_eq (b : bool) (k : string) (v : value)
    (m : gmap string value) :
  (if b then <[ k := v ]> m else m) !! k = if b then Some v else m !! k.
Proof. destruct b; [by rewrite lookup_insert_eq|done]. Qed.

Ltac tomap_lookup :=
  unfold ToMap; cbv zeta;
  repeat first
    [ rewrite lookup_cond_insert_ne by done
    | rewrite lookup_cond_insert_eq
    | rewrite lookup_insert_ne by done
    | rewrite lookup_insert_eq
    | rewrite lookup_singleton_eq
    | rewrite lookup_singleton_ne by done ];
  try done.

Lemma ToMap_game_id s : ToMap s !! "game_id" = Some (VString (GameID s)).
Proof. tomap_lookup. Qed.
Lemma ToMap_phase s : ToMap s !! "phase" = Some (VString (Phase s)).
Proof. tomap_lookup. Qed.
Lemma ToMap_status s : ToMap s !! "status" = Some (VString (Status s)).
Proof. tomap_lookup. Qed.
Lemma ToMap_round_index s : ToMap s !! "round_index" = Some (VInt (RoundIndex s)).
Proof. tomap_lookup. Qed.
Lemma ToMap_leader_index s : ToMap s !! "leader_index" = Some (VInt (LeaderIndex s)).
Proof. tomap_lookup. Qed.
Lemma ToMap_player_ids s : ToMap s !! "player_ids" = Some (VStrings (PlayerIDs s)).
Proof. tomap_lookup. Qed.
Lemma ToMap_reject_count s : ToMap s !! "reject_count" = Some (VInt (RejectCount s)).
Proof. tomap_lookup. Qed.
Lemma ToMap_version s : ToMap s !! "version" = Some (VInt (Version s)).
Proof. tomap_lookup. Qed.
Lemma ToMap_roles s :
  ToMap s !! "roles"
  = if (0 <? maplen (Roles s))%Z then Some (VStrMap (Roles s)) else None.
Proof. tomap_lookup. Qed.
Lemma ToMap_proposed_team s :
  ToMap s !! "proposed_team"
  = if (0 <? len (ProposedTeam s))%Z then Some (VStrings (ProposedTeam s)) else None.
Proof. tomap_lookup. Qed.
Lemma ToMap_team_votes s :
  ToMap s !! "team_votes"
  = if (0 <? maplen (TeamVotes s))%Z then Some (VStrMap (TeamVotes s)) else None.
Proof. tomap_lookup. Qed.
Lemma ToMap_mission_votes s :
  ToMap s !! "mission_votes"
  = if (0 <? maplen (MissionVotes s))%Z then Some (VStrMap (MissionVotes s)) else None.
Proof. tomap_lookup. Qed.
Lemma ToMap_mission_results s :
  ToMap s !! "mission_results"
  = if (0 <? len (MissionResults s))%Z then Some (VStrings (MissionResults s)) else None.
Proof. tomap_lookup. Qed.
Lemma ToMap_winner s :
  ToMap s !! "winner"
  = if bool_decide (Winner s ≠ "") then Some (VString (Winner s)) else None.
Proof. tomap_lookup. Qed.

Lemma len_zero_nil {A} (l : list A) : (0 <? len l)%Z = false → l = [].
Proof. unfold len. destruct l; [done|]. simpl length. intros H. apply Z.ltb_ge in H. lia. Qed.

Lemma maplen_zero_empty {A} (m : gmap string A) : (0 <? maplen m)%Z = false → m = ∅.
Proof.
  unfold maplen. intros H. apply Z.ltb_ge in H.
  apply map_size_empty_inv. lia.
Qed.

Lemma omap_stringOf_list (l : list string) : omap stringOf (VString <$> l) = l.
Proof. induction l as [|x l IH]; [done|]. simpl. f_equal. exact IH. Qed.

Lemma omap_stringOf_map (m : gmap string string) :
  omap stringOf (VString <$> m) = m.
Proof.
  apply map_eq. intros k. rewrite lookup_omap, lookup_fmap.
  by destruct (m !! k).
Qed.

Lemma intOfFloat_float64OfInt (z : Z) :
  exactInt z → intOfFloat (float64OfInt z) = z.
Proof.
  unfold exactInt, intOfFloat, float64OfInt. intros H.
  destruct (Z.abs z <=? 2 ^ 53)%Z eqn:E; [|lia].
  destruct (- 2 ^ 63 <=? z)%Z eqn:E1; [|lia].
  destruct (z <? 2 ^ 63)%Z eqn:E2; [|lia]. done.
Qed.

(** What each reader of [StateFromMap] makes of an entry written by [ToMap],
    read directly ... *)
Section Readers.
Context (m : gmap string value) (key : string) (st : GameState).

Lemma readString_string v set :
  m !! key = Some (VString v) → readString m key set st = set v st.
Proof. unfold readString. by intros ->. Qed.

Lemma readString_cond (b : bool) v set :
  m !! key = (if b then Some (VString v) else None) →
  readString m key set st = if b then set v st else st.
Proof. unfold readString. intros ->. by destruct b. Qed.

Lemma readInt_int z set : m !! key = Some (VInt z) → readInt m key set st = set z st.
Proof. unfold readInt. by intros ->. Qed.

Lemma readSlice_strings l set :
  m !! key = Some (VStrings l) → readSlice m key set st = set l st.
Proof. unfold readSlice. by intros ->. Qed.

Lemma readSlice_cond (b : bool) l set :
  m !! key = (if b then Some (VStrings l) else None) →
  readSlice m key set st = if b then set l st else st.
Proof. unfold readSlice. intros ->. by destruct b. Qed.

Lemma readMap_cond (b : bool) x set :
  m !! key = (if b then Some (VStrMap x) else None) → readMap m key set st = st.
Proof. unfold readMap. intros ->. by destruct b. Qed.

(** ... and after a passage through JSON. *)
Lemma readString_json_string v set :
  m !! key = Some (VString v) → readString (jsonMap m) key set st = set v st.
Proof. unfold readString, jsonMap. rewrite lookup_fmap. by intros ->. Qed.

Lemma readString_json_cond (b : bool) v set :
  m !! key = (if b then Some (VString v) else None) →
  readString (jsonMap m) key set st = if b then set v st else st.
Proof. unfold readString, jsonMap. rewrite lookup_fmap. intros ->. by destruct b. Qed.

Lemma readInt_json_int z set :
  m !! key = Some (VInt z) →
  readInt (jsonMap m) key set st = set (intOfFloat (float64OfInt z)) st.
Proof. unfold readInt, jsonMap. rewrite lookup_fmap. by intros ->. Qed.

Lemma readSlice_json_strings l set :
  m !! key = Some (VStrings l) → readSlice (jsonMap m) key set st = set l st.
Proof.
  unfold readSlice, jsonMap. rewrite lookup_fmap. intros ->.
  change (stringSlice (jsonValue <$> Some (VStrings l)))
    with (omap stringOf (VString <$> l), true).
  by rewrite omap_stringOf_list.
Qed.

Lemma readSlice_json_cond (b : bool) l set :
  m !! key = (if b then Some (VStrings l) else None) →
  readSlice (jsonMap m) key set st = if b then set l st else st.
Proof.
  destruct b; [apply readSlice_json_strings|].
  unfold readSlice, jsonMap. rewrite lookup_fmap. by intros ->.
Qed.

Lemma readMap_json_cond (b : bool) x set :
  m !! key = (if b then Some (VStrMap x) else None) →
  readMap (jsonMap m) key set st = if b then set x st else st.
Proof.
  unfold readMap, jsonMap. rewrite lookup_fmap. intros ->. destruct b; [|done].
  change (stringMap (jsonValue <$> Some (VStrMap x)))
    with (omap stringOf (VString <$> x), true).
  by rewrite omap_stringOf_map.
Qed.

End Readers.

(** [StateFromMap (ToMap s)] and [StateFromMap (jsonMap (ToMap s))], field by
    field. *)
Lemma StateFromMap_ToMap_fields (s : GameState) :
  StateFromMap (ToMap s)
  = setVersion (Version s)
      ((if bool_decide (Winner s ≠ "") then setWinner (Winner s) else id)
      (setRejectCount (RejectCount s)
      ((if (0 <? len (MissionResults s))%Z
        then setMissionResults (MissionResults s) else id)
      ((if (0 <? len (ProposedTeam s))%Z
        then setProposedTeam (ProposedTeam s) else id)
      (setPlayerIDs (PlayerIDs s)
      (setLeaderIndex (LeaderIndex s)
      (setRoundIndex (RoundIndex s)
      (setStatus (Status s)
      (setPhase (Phase s)
      (setGameID (GameID s) emptyState)))))))))).
Proof.
  unfold StateFromMap. cbv zeta.
  rewrite (readString_string _ _ _ _ _ (ToMap_game_id s)).
  rewrite (readString_string _ _ _ _ _ (ToMap_phase s)).
  rewrite (readString_string _ _ _ _ _ (ToMap_status s)).
  rewrite (readInt_int _ _ _ _ _ (ToMap_round_index s)).
  rewrite (readInt_int _ _ _ _ _ (ToMap_leader_index s)).
  rewrite (readSlice_strings _ _ _ _ _ (ToMap_player_ids s)).
  rewrite (readMap_cond _ _ _ _ _ _ (ToMap_roles s)).
  rewrite (readSlice_cond _ _ _ _ _ _ (ToMap_proposed_team s)).
  rewrite (readMap_cond _ _ _ _ _ _ (ToMap_team_votes s)).
  rewrite (readMap_cond _ _ _ _ _ _ (ToMap_mission_votes s)).
  rewrite (readSlice_cond _ _ _ _ _ _ (ToMap_mission_results s)).
  rewrite (readInt_int _ _ _ _ _ (ToMap_reject_count s)).
  rewrite (readString_cond _ _ _ _ _ _ (ToMap_winner s)).
  rewrite (readInt_int _ _ _ _ _ (ToMap_version s)).
  by repeat case_match.
Qed.

Lemma StateFromMap_json_ToMap_fields (s : GameState) :
  StateFromMap (jsonMap (ToMap s))
  = setVersion (intOfFloat (float64OfInt (Version s)))
      ((if bool_decide (Winner s ≠ "") then setWinner (Winner s) else id)
      (setRejectCount (intOfFloat (float64OfInt (RejectCount s)))
      ((if (0 <? len (MissionResults s))%Z
        then setMissionResults (MissionResults s) else id)
      ((if (0 <? maplen (MissionVotes s))%Z
        then setMissionVotes (MissionVotes s) else id)
      ((if (0 <? maplen (TeamVotes s))%Z
        then setTeamVotes (TeamVotes s) else id)
      ((if (0 <? len (ProposedTeam s))%Z
        then setProposedTeam (ProposedTeam s) else id)
      ((if (0 <? maplen (Roles s))%Z then setRoles (Roles s) else id)
      (setPlayerIDs (PlayerIDs s)
      (setLeaderIndex (intOfFloat (float64OfInt (LeaderIndex s)))
      (setRoundIndex (intOfFloat (float64OfInt (RoundIndex s)))
      (setStatus (Status s)
      (setPhase (Phase s)
      (setGameID (GameID s) emptyState))))))))))))).
Proof.
  unfold StateFromMap. cbv zeta.
  rewrite (readString_json_string _ _ _ _ _ (ToMap_game_id s)).
  rewrite (readString_json_string _ _ _ _ _ (ToMap_phase s)).
  rewrite (readString_json_string _ _ _ _ _ (ToMap_status s)).
  rewrite (readInt_json_int _ _ _ _ _ (ToMap_round_index s)).
  rewrite (readInt_json_int _ _ _ _ _ (ToMap_leader_index s)).
  rewrite (readSlice_json_strings _ _ _ _ _ (ToMap_player_ids s)).
  rewrite (readMap_json_cond _ _ _ _ _ _ (ToMap_roles s)).
  rewrite (readSlice_json_cond _ _ _ _ _ _ (ToMap_proposed_team s)).
  rewrite (readMap_json_cond _ _ _ _ _ _ (ToMap_team_votes s)).
  rewrite (readMap_json_cond _ _ _ _ _ _ (ToMap_mission_votes s)).
  rewrite (readSlice_json_cond _ _ _ _ _ _ (ToMap_mission_results s)).
  rewrite (readInt_json_int _ _ _ _ _ (ToMap_reject_count s)).
  rewrite (readString_json_cond _ _ _ _ _ _ (ToMap_winner s)).
  rewrite (readInt_json_int _ _ _ _ _ (ToMap_version s)).
  by repeat case_match.
Qed.

(** An optional field that is left out is empty, so reading nothing back
    leaves the right value. *)
Ltac decide_optional :=
  repeat match goal with
  | |- context [(0 <? maplen ?m)%Z] =>
      let E := fresh "E" in
      destruct (0 <? maplen m)%Z eqn:E; [|apply maplen_zero_empty in E]
  | |- context [(0 <? len ?l)%Z] =>
      let E := fresh "E" in
      destruct (0 <? len l)%Z eqn:E; [|apply len_zero_nil in E]
  | |- context [bool_decide (?w ≠ "")] =>
      let E := fresh "E" in
      destruct (bool_decide (w ≠ "")) eqn:E;
      [|apply bool_decide_eq_false_1, dec_stable in E]
  end.

(** Read directly, the role and vote maps are dropped whatever they hold. *)
Lemma StateFromMap_ToMap (s : GameState) :
  StateFromMap (ToMap s)
  = setMissionVotes ∅ (setTeamVotes ∅ (setRoles ∅ s)).
Proof.
  rewrite StateFromMap_ToMap_fields.
  destruct s; cbn -[Z.ltb]; decide_optional; subst; reflexivity.
Qed.

(** Without passing through JSON, everything but the three vote and role
    maps is read back. *)
Lemma StateFromMap_ToMap_without_maps (s : GameState) :
  Roles s = ∅ → TeamVotes s = ∅ → MissionVotes s = ∅ →
  StateFromMap (ToMap s) = s.
Proof.
  intros Hr Ht Hm. rewrite StateFromMap_ToMap.
  destruct s; simpl in *; subst; reflexivity.
Qed.

(** Through JSON, as the store writes and reads snapshots, the whole state is
    read back. *)
Lemma StateFromMap_json_ToMap (s : GameState) :
  exactInts s → StateFromMap (jsonMap (ToMap s)) = s.
Proof.
  intros (Hri & Hli & Hrc & Hve).
  rewrite StateFromMap_json_ToMap_fields.
  rewrite !intOfFloat_float64OfInt by done.
  destruct s; cbn -[Z.ltb]; decide_optional; subst; reflexivity.
Qed.

(** C8.  A state with a recorded team vote is not read back from its own
    [ToMap]: [StateFromMap] only accepts a [map[string]interface{}] for the
    vote and role maps, and [ToMap] hands it a [map[string]string], so the
    votes are lost.  The same state is read back once the map has gone
    through JSON. *)
Theorem StateFromMap_ToMap_drops_votes :
  StateFromMap (ToMap sampleTeamVote) ≠ sampleTeamVote
  ∧ TeamVotes sampleTeamVote !! "p1" = Some "approve"
  ∧ TeamVotes (StateFromMap (ToMap sampleTeamVote)) = ∅
  ∧ StateFromMap (ToMap sampleTeamVote) = setTeamVotes ∅ sampleTeamVote
  ∧ StateFromMap (jsonMap (ToMap sampleTeamVote)) = sampleTeamVote.
Proof.
  assert (TeamVotes (StateFromMap (ToMap sampleTeamVote)) = ∅) as Hvotes
    by (vm_compute; reflexivity).
  split; [|split; [|split; [|split]]].
  - intros Heq. rewrite Heq in Hvotes.
    assert (TeamVotes sampleTeamVote !! "p1" = None) as Hp1
      by (rewrite Hvotes; apply lookup_empty).
    vm_compute in Hp1. discriminate.
  - vm_compute; reflexivity.
  - exact Hvotes.
  - vm_compute; reflexivity.
  - vm_compute; reflexivity.
Qed.

(** ** Runs *)

Lemma reachable_send e env gameID w m :
  reachable w → reachable (snd (send e env gameID w m)).
Proof. intros Hw. unfold send. by apply reach_move, reach_alloc. Qed.

Lemma reachable_play e env gameID ms w :
  reachable w → reachable (play e env gameID w ms).
Proof.
  unfold play. revert w. induction ms as [|m ms IH]; intros w Hw; [done|].
  simpl. apply IH. by apply reachable_send.
Qed.

Lemma reachable_lobbyWorld : reachable lobbyWorld.
Proof.
  apply (reach_create {| heap := ∅; db := emptyDB |} "g1" "r1" fivePlayers).
  - apply reach_empty.
  - vm_compute. reflexivity.
Qed.


(** Scenario 1: after two successes and a failure the game is in round 4. *)
Example scenario_three_rounds :
  GetState calm (db midGameWorld) "g1"
  = Ok (Some (setRoles (<[ "p1" := "good" ]> (<[ "p2" := "evil" ]>
                         (<[ "p3" := "good" ]> (<[ "p4" := "evil" ]>
                          {[ "p5" := "good" ]}))))
               (setMissionResults ["success"; "success"; "fail"]
                 (setLeaderIndex 3 (setRoundIndex 4
                   (setStatus "in_progress" (setPhase PhaseTeamSelection
                     (setPlayerIDs fivePlayers (setGameID "g1" emptyState))))))))).
Proof. vm_compute. reflexivity. Qed.

(** ** What the engine writes *)

Lemma proposeTeam_status e s a p next evs :
  proposeTeam e s a p = Ok (next, evs) → Status next = Status s.
Proof.
  unfold proposeTeam. rewrite Clone_eq.
  repeat case_match; intros; simplify_eq; done.
Qed.

Lemma proposeTeam_results e s a p next evs :
  proposeTeam e s a p = Ok (next, evs) → MissionResults next = MissionResults s.
Proof.
  unfold proposeTeam. rewrite Clone_eq.
  repeat case_match; intros; simplify_eq; done.
Qed.

Lemma missionResult_value (b : bool) :
  (if b then "fail" else "success") = "success"
  ∨ (if b then "fail" else "success") = "fail".
Proof. destruct b; auto. Qed.

Lemma applyTeamVote_wellFormed s a p next evs :
  Status s ≠ "finished" → wellFormed s →
  applyTeamVote s a p = Ok (next, evs) → wellFormed next.
Proof.
  intros Hrun (Hfin & Hteam & Hres). unfold applyTeamVote. rewrite Clone_eq.
  repeat case_match; intros; simplify_eq; unfold wellFormed; by split_and!.
Qed.

Lemma applyMissionVote_wellFormed e s a p next evs :
  Status s ≠ "finished" → wellFormed s →
  applyMissionVote e s a p = Ok (next, evs) → wellFormed next.
Proof.
  intros Hrun (Hfin & Hteam & Hres). unfold applyMissionVote. rewrite Clone_eq.
  repeat case_match; intros; simplify_eq; unfold wellFormed; split_and!; cbn;
    try done;
    apply Forall_app; (split; [done|]); apply Forall_singleton; auto.
Qed.

Lemma proposeTeam_wellFormed e s a p next evs :
  Status s ≠ "finished" → wellFormed s →
  proposeTeam e s a p = Ok (next, evs) → wellFormed next.
Proof.
  intros Hrun (Hfin & _ & Hr) H.
  pose proof (proposeTeam_status _ _ _ _ _ _ H) as Hst.
  pose proof (proposeTeam_results _ _ _ _ _ _ H) as Hres.
  apply proposeTeam_members in H as (Hteam & Hph & _).
  unfold wellFormed. split_and!; [|done|by rewrite Hres].
  intros Hf. by rewrite Hst in Hf.
Qed.

Lemma validateMove_wellFormed e s a mt p next evs :
  Status s ≠ "finished" → wellFormed s →
  validateMove e s a mt p = Ok (next, evs) → wellFormed next.
Proof.
  intros Hrun Hs. unfold validateMove, applyVote, applyAction.
  repeat case_match; intros; simplify_eq;
    eauto using applyTeamVote_wellFormed, applyMissionVote_wellFormed,
      proposeTeam_wellFormed.
Qed.

(** [StateFromMap] only looks at the fourteen keys of the state. *)
Lemma StateFromMap_team_sizes (m : gmap string value) (v : value) :
  StateFromMap (<[ "team_sizes" := v ]> m) = StateFromMap m.
Proof.
  assert (∀ key set st, "team_sizes" ≠ key →
            readString (<[ "team_sizes" := v ]> m) key set st = readString m key set st)
    as Hstr by (intros; unfold readString; by rewrite lookup_insert_ne).
  assert (∀ key set st, "team_sizes" ≠ key →
            readInt (<[ "team_sizes" := v ]> m) key set st = readInt m key set st)
    as Hint by (intros; unfold readInt; by rewrite lookup_insert_ne).
  assert (∀ key set st, "team_sizes" ≠ key →
            readSlice (<[ "team_sizes" := v ]> m) key set st = readSlice m key set st)
    as Hsl by (intros; unfold readSlice; by rewrite lookup_insert_ne).
  assert (∀ key set st, "team_sizes" ≠ key →
            readMap (<[ "team_sizes" := v ]> m) key set st = readMap m key set st)
    as Hmap by (intros; unfold readMap; by rewrite lookup_insert_ne).
  unfold StateFromMap. cbv zeta.
  by rewrite !Hstr, !Hint, !Hsl, !Hmap by done.
Qed.

Lemma jsonMap_insert (m : gmap string value) (k : string) (v : value) :
  jsonMap (<[ k := v ]> m) = <[ k := jsonValue v ]> (jsonMap m).
Proof. unfold jsonMap. apply fmap_insert. Qed.

(** Texts and lists are read back from any snapshot the engine writes,
    whatever the integers. *)
Lemma StateFromMap_json_ToMap_text (s : GameState) :
  let s' := StateFromMap (jsonMap (ToMap s)) in
  Status s' = Status s ∧ Phase s' = Phase s ∧ PlayerIDs s' = PlayerIDs s
  ∧ ProposedTeam s' = ProposedTeam s ∧ MissionResults s' = MissionResults s.
Proof.
  cbv zeta. rewrite StateFromMap_json_ToMap_fields.
  destruct s; cbn -[Z.ltb]; decide_optional; subst; done.
Qed.

Lemma wellFormed_json (s : GameState) :
  wellFormed s → wellFormed (StateFromMap (jsonMap (ToMap s))).
Proof.
  unfold wellFormed.
  by destruct (StateFromMap_json_ToMap_text s) as (-> & -> & -> & -> & ->).
Qed.

Lemma coherent_snoc (d : DB) (row : SnapshotRow) :
  coherent d → coherentRow row →
  coherent (withSnapshots (snapshots d ++ [row]) d).
Proof.
  unfold coherent. intros Hd Hrow. cbn. apply Forall_app. split; [done|].
  by apply Forall_singleton.
Qed.

Lemma CreateOrUpdateSnapshot_coherent env d gameID s r d' :
  coherent d →
  wellFormed (StateFromMap (jsonMap s)) →
  CreateOrUpdateSnapshot env d gameID s = (r, d') →
  coherent d'.
Proof.
  intros Hd Hs. unfold CreateOrUpdateSnapshot, CreateGameStateSnapshot.
  repeat case_match; intros; simplify_eq; try done;
    by apply coherent_snoc.
Qed.

Lemma CreateOrUpdateSnapshot_events env d gameID s :
  events (snd (CreateOrUpdateSnapshot env d gameID s)) = events d.
Proof.
  unfold CreateOrUpdateSnapshot, CreateGameStateSnapshot.
  repeat case_match; simplify_eq; done.
Qed.

Lemma UpdateGameStatus_snapshots env d gameID status endedAt :
  snapshots (snd (UpdateGameStatus env d gameID status endedAt)) = snapshots d
  ∧ events (snd (UpdateGameStatus env d gameID status endedAt)) = events d.
Proof. unfold UpdateGameStatus. by case_match. Qed.

Lemma UpdateGameStatus_coherent env d gameID status endedAt :
  coherent d → coherent (snd (UpdateGameStatus env d gameID status endedAt)).
Proof.
  unfold coherent.
  by destruct (UpdateGameStatus_snapshots env d gameID status endedAt) as [-> _].
Qed.

Lemma CreateGameEvent_snapshots env d gameID actor type payload :
  snapshots (snd (CreateGameEvent env d gameID actor type payload)) = snapshots d.
Proof. unfold CreateGameEvent. by case_match. Qed.

Lemma bootstrapAndStart_coherent e env w gameID actor :
  coherent (db w) → coherent (db (snd (bootstrapAndStart e env w gameID actor))).
Proof.
  intros Hw. unfold bootstrapAndStart.
  destruct (GetGamePlayerIDsInOrder env (db w) gameID) as [players|]; [|done].
  case_match; [done|].
  destruct (assignRoles players (perm env)) as [roles|]; [|done].
  match goal with
  | |- context [CreateOrUpdateSnapshot env (db w) gameID ?m] =>
      destruct (CreateOrUpdateSnapshot env (db w) gameID m) as [r d] eqn:Hsnap
  end.
  assert (coherent d) as Hd.
  { eapply CreateOrUpdateSnapshot_coherent; [exact Hw| |exact Hsnap].
    rewrite jsonMap_insert, StateFromMap_team_sizes.
    apply wellFormed_json. unfold wellFormed. by split_and!. }
  destruct r as [version|]; [|done].
  pose proof (UpdateGameStatus_coherent env d gameID "in_progress" None Hd) as Hu.
  destruct (UpdateGameStatus env d gameID "in_progress" None) as [[|] d'']; done.
Qed.

Lemma persistMove_coherent env w gameID actor moveType payload next evs :
  coherent (db w) →
  wellFormed next →
  coherent (db (snd (persistMove env w gameID actor moveType payload next evs))).
Proof.
  intros Hw Hnext. unfold persistMove.
  set (w1 := match payload with Some l => _ | None => w end).
  assert (db w1 = db w) as Hw1 by (subst w1; by destruct payload).
  match goal with
  | |- context [CreateGameEvent env (db w1) gameID actor moveType ?p] =>
      pose proof (CreateGameEvent_snapshots env (db w1) gameID actor moveType p) as Hev;
      destruct (CreateGameEvent env (db w1) gameID actor moveType p) as [rev d1]
  end.
  cbn in Hev.
  assert (coherent d1) as Hd1 by (unfold coherent; rewrite Hev, Hw1; exact Hw).
  destruct rev as [row|]; [|done].
  destruct (CreateOrUpdateSnapshot env d1 gameID (ToMap next)) as [r d2] eqn:Hsnap.
  assert (coherent d2) as Hd2.
  { eapply CreateOrUpdateSnapshot_coherent; [exact Hd1| |exact Hsnap].
    by apply wellFormed_json. }
  destruct r as [version|]; [|done].
  cbn. case_bool_decide; [|done].
  by apply UpdateGameStatus_coherent.
Qed.

Lemma latestOf_elem (rows : list SnapshotRow) (r : SnapshotRow) :
  latestOf rows = Some r → r ∈ rows.
Proof.
  unfold latestOf.
  assert (∀ best, foldl (λ best r, match best with
                     | None => Some r
                     | Some b => if (sVersion b <? sVersion r)%Z then Some r else Some b
                     end) best rows = Some r →
            r ∈ rows ∨ best = Some r) as H.
  { induction rows as [|x rows IH]; intros best; simpl; [auto|].
    intros Hf. apply IH in Hf as [Hin|Hbest].
    - left. by right.
    - destruct best as [b|]; [case_match|]; simplify_eq; auto; left; by left. }
  intros Hf. by apply H in Hf as [|].
Qed.

Lemma latest_snapshot_elem (d : DB) (gameID : string) (r : SnapshotRow) :
  GetLatestGameStateSnapshotByGameId d gameID = Some r →
  r ∈ snapshots d ∧ sGameID r = gameID.
Proof.
  unfold GetLatestGameStateSnapshotByGameId, snapshotsOf. intros H.
  apply latestOf_elem in H. by apply list_elem_of_filter in H as [? ?].
Qed.

Lemma GetState_wellFormed env d gameID state :
  coherent d → GetState env d gameID = Ok (Some state) → wellFormed state.
Proof.
  intros Hd. unfold GetState, GetLatestSnapshot.
  destruct (failGetLatestSnapshot env); [done|].
  destruct (GetLatestGameStateSnapshotByGameId d gameID) as [row|] eqn:Hrow; [|done].
  intros [= <-]. unfold coherent in Hd. rewrite Forall_forall in Hd.
  apply (Hd row). by apply latest_snapshot_elem in Hrow as [? _].
Qed.

Lemma ApplyMove_coherent e env w gameID actor moveType payload :
  coherent (db w) →
  coherent (db (snd (ApplyMove e env w gameID actor moveType payload))).
Proof.
  intros Hw. unfold ApplyMove, startOnly.
  destruct (GetState env (db w) gameID) as [[state|]|] eqn:Hstate; [| |done].
  - pose proof (GetState_wellFormed _ _ _ _ Hw Hstate) as Hwf.
    repeat case_match; try done; try by apply bootstrapAndStart_coherent.
    simplify_eq. apply persistMove_coherent; [done|].
    eapply validateMove_wellFormed; [|done..].
    match goal with H : bool_decide (Status _ = _) = false |- _ =>
      by apply bool_decide_eq_false_1 in H end.
  - repeat case_match; try done; by apply bootstrapAndStart_coherent.
Qed.

Lemma createGame_coherent d gameID roomID players d' :
  coherent d → createGame d gameID roomID players = Some d' → coherent d'.
Proof.
  unfold createGame, CreateGameStateSnapshot.
  intros Hd. repeat case_match; intros; simplify_eq.
  unfold coherent. cbn. apply Forall_app. split; [done|].
  apply Forall_singleton. unfold coherentRow, wellFormed. cbn [sStateJSON].
  assert (StateFromMap LobbyStateJSON = setPhase PhaseLobby emptyState) as ->
    by (vm_compute; reflexivity).
  by split_and!.
Qed.

Lemma reachable_coherent (w : World) : reachable w → coherent (db w).
Proof.
  induction 1 as [|w gameID roomID players d _ IH Hc|w h _ IH
                  |w env g a t p _ IH|w e env g a mt p _ IH].
  - by apply Forall_nil.
  - by eapply createGame_coherent.
  - done.
  - unfold coherent. cbn [db withDB]. by rewrite CreateGameEvent_snapshots.
  - by apply ApplyMove_coherent.
Qed.

(** The states that moves are applied to in a run are well formed. *)
Lemma reachable_wellFormed (w : World) (env : Env) (gameID : string)
    (state : GameState) :
  reachable w → GetState env (db w) gameID = Ok (Some state) → wellFormed state.
Proof.
  intros Hw. apply GetState_wellFormed. by apply reachable_coherent.
Qed.

(** ** Finished games *)

(** C6.  Once the latest snapshot of a game has status "finished", every
    call of [ApplyMove] for that game, whatever the actor, the move type and
    the payload, returns an error ("game already finished", or "get state"
    when the snapshot cannot be loaded) and leaves the store as it is: no
    snapshot and no event is written. *)
Theorem finished_game_rejects_moves
    (e : Engine) (env : Env) (w : World)
    (gameID actor moveType : string) (payload : option loc) :
  reachable w →
  Status <$> latestState (db w) gameID = Some "finished" →
  ApplyMove e env w gameID actor moveType payload
  = (Err (if failGetLatestSnapshot env then ErrGetState else ErrGameFinished), w).
Proof.
  intros Hw Hfin. unfold latestState in Hfin.
  destruct (GetLatestGameStateSnapshotByGameId (db w) gameID) as [row|] eqn:Hrow;
    [|done].
  simpl in Hfin. injection Hfin as Hfin.
  assert (Phase (StateFromMap (sStateJSON row)) = PhaseFinished) as Hphase.
  { apply reachable_coherent in Hw. unfold coherent in Hw.
    rewrite Forall_forall in Hw.
    apply (Hw row); [|done].
    by apply latest_snapshot_elem in Hrow as [? _]. }
  unfold ApplyMove, GetState, GetLatestSnapshot.
  destruct (failGetLatestSnapshot env); [done|].
  rewrite Hrow, Hphase, Hfin. done.
Qed.

Lemma finished_game_rejects_moves_witness :
  ApplyMove classicEngine calm finishedWorld "g1" "p5" "action" None
  = (Err ErrGameFinished, finishedWorld).
Proof.
  apply (finished_game_rejects_moves classicEngine calm finishedWorld
           "g1" "p5" "action" None).
  - apply reachable_play, reachable_lobbyWorld.
  - vm_compute. reflexivity.
Defined.

(** ** Snapshot versions *)

Lemma latestOf_snoc (rows : list SnapshotRow) (r : SnapshotRow) :
  latestOf (rows ++ [r])
  = match latestOf rows with
    | None => Some r
    | Some b => if (sVersion b <? sVersion r)%Z then Some r else Some b
    end.
Proof. unfold latestOf. by rewrite foldl_app. Qed.

Lemma consecutive_snoc (vs : list Z) (v : Z) :
  consecutiveFromOne (vs ++ [v]) →
  consecutiveFromOne vs ∧ v = (len vs + 1)%Z.
Proof.
  unfold consecutiveFromOne, len. rewrite length_app. simpl length.
  rewrite Nat.add_1_r, seq_S, fmap_app. simpl. intros H.
  apply app_inj_2 in H as [H1 H2]; [|done].
  split; [done|]. injection H2 as ->. lia.
Qed.

Lemma consecutive_elem (vs : list Z) (v : Z) :
  consecutiveFromOne vs → v ∈ vs → (1 <= v <= len vs)%Z.
Proof.
  unfold consecutiveFromOne, len. intros -> Hv.
  apply list_elem_of_fmap in Hv as (n & -> & Hn).
  rewrite length_fmap, length_seq.
  apply elem_of_seq in Hn. lia.
Qed.

Lemma consecutive_max (vs : list Z) :
  consecutiveFromOne vs → maxVersion vs = len vs.
Proof.
  induction vs as [|v vs IH] using rev_ind; [done|].
  intros H. apply consecutive_snoc in H as [Hvs ->].
  unfold maxVersion, len in *. rewrite foldr_app. simpl.
  rewrite length_app. simpl length.
  specialize (IH Hvs).
  assert (∀ (l : list Z) (a : Z), (0 <= a)%Z →
            foldr Z.max a l = Z.max a (foldr Z.max 0%Z l)) as Hmax.
  { induction l as [|x l IHl]; intros a Ha; simpl; [lia|]. rewrite IHl by done. lia. }
  rewrite Hmax by lia. rewrite IH. lia.
Qed.

(** On the snapshots of a game numbered 1..n, the latest row carries n. *)
Lemma latestOf_consecutive (rows : list SnapshotRow) :
  consecutiveFromOne (sVersion <$> rows) →
  sVersion <$> latestOf rows
  = if decide (rows = []) then None else Some (len rows).
Proof.
  induction rows as [|r rows IH] using rev_ind; [done|].
  rewrite fmap_app. simpl. intros H.
  apply consecutive_snoc in H as [Hrows Hr].
  specialize (IH Hrows). rewrite latestOf_snoc.
  unfold len in *. rewrite length_fmap in Hr.
  rewrite length_app. simpl length.
  destruct (decide (rows ++ [r] = [])) as [Heq|_];
    [by destruct rows|].
  destruct (latestOf rows) as [b|]; simpl in *.
  - destruct (decide (rows = [])); [done|]. injection IH as IH.
    destruct (sVersion b <? sVersion r)%Z eqn:E; simpl; [f_equal; lia|lia].
  - simpl. f_equal. lia.
Qed.

Lemma snapshotsOf_snoc (d : DB) (row : SnapshotRow) (gameID : string) :
  snapshotsOf (withSnapshots (snapshots d ++ [row]) d) gameID
  = snapshotsOf d gameID ++ (if decide (sGameID row = gameID) then [row] else []).
Proof.
  unfold snapshotsOf. cbn. rewrite filter_app. f_equal.
Qed.

(** The version computed by [CreateOrUpdateSnapshot], and the row it adds. *)
Lemma next_version d gameID :
  consecutiveFromOne (versionsOf d gameID) →
  (len (versionsOf d gameID) < max_int32)%Z →
  match GetLatestGameStateSnapshotByGameId d gameID with
  | Some snapshot => wrap_int32 (sVersion snapshot + 1)
  | None => 1%Z
  end = (len (versionsOf d gameID) + 1)%Z.
Proof.
  intros Hcons Hlen.
  unfold GetLatestGameStateSnapshotByGameId.
  pose proof (latestOf_consecutive _ Hcons) as Hlatest.
  unfold versionsOf, len in *. rewrite length_fmap in *.
  destruct (latestOf (snapshotsOf d gameID)) as [b|]; simpl in Hlatest.
  - destruct (decide (snapshotsOf d gameID = [])); [done|].
    injection Hlatest as ->. unfold wrap_int32, max_int32 in *.
    rewrite Z.mod_small; lia.
  - destruct (decide (snapshotsOf d gameID = [])) as [->|]; done.
Qed.

Lemma CreateOrUpdateSnapshot_next env d gameID m v d' :
  consecutiveFromOne (versionsOf d gameID) →
  (len (versionsOf d gameID) < max_int32)%Z →
  CreateOrUpdateSnapshot env d gameID m = (Ok v, d') →
  v = (len (versionsOf d gameID) + 1)%Z
  ∧ d' = withSnapshots (snapshots d ++ [ {| sGameID := gameID; sVersion := v;
                                           sStateJSON := jsonMap m |} ]) d.
Proof.
  intros Hcons Hlen. unfold CreateOrUpdateSnapshot.
  destruct (failSnapshotLatest env); [done|].
  rewrite next_version by done.
  destruct (failSnapshotInsert env); [done|].
  unfold CreateGameStateSnapshot. cbn [sGameID sVersion].
  destruct (existsb _ (snapshots d)); [done|].
  intros [= <- <-]. done.
Qed.

Lemma CreateOrUpdateSnapshot_snapshots env d gameID m :
  snapshots (snd (CreateOrUpdateSnapshot env d gameID m)) = snapshots d
  ∨ ∃ v, fst (CreateOrUpdateSnapshot env d gameID m) = Ok v.
Proof.
  unfold CreateOrUpdateSnapshot, CreateGameStateSnapshot.
  repeat case_match; simplify_eq; eauto.
Qed.

Lemma versioned_snapshots (d d' : DB) :
  snapshots d' = snapshots d → versioned d → versioned d'.
Proof.
  unfold versioned, versionsOf, snapshotsOf. by intros ->.
Qed.

Lemma versioned_snoc (d : DB) (row : SnapshotRow) :
  versioned d →
  (consecutiveFromOne (versionsOf d (sGameID row)) →
   (len (versionsOf d (sGameID row)) < max_int32)%Z →
   sVersion row = (len (versionsOf d (sGameID row)) + 1)%Z) →
  versioned (withSnapshots (snapshots d ++ [row]) d).
Proof.
  intros Hd Hrow g. unfold versionsOf. rewrite snapshotsOf_snoc.
  case_decide as Hg.
  - subst g. rewrite fmap_app. unfold len. rewrite length_app, length_fmap.
    simpl. intros Hlen.
    assert (consecutiveFromOne (versionsOf d (sGameID row))) as Hc.
    { apply Hd. unfold versionsOf, len. rewrite length_fmap. lia. }
    rewrite Hrow; [|done|unfold versionsOf, len, max_int32 in *;
                          rewrite length_fmap; lia].
    unfold consecutiveFromOne in *. unfold versionsOf in *.
    rewrite length_app, length_fmap. simpl length.
    rewrite Nat.add_1_r, seq_S, fmap_app. simpl.
    rewrite length_fmap in Hc. rewrite <- Hc.
    f_equal. f_equal. unfold len. rewrite length_fmap. lia.
  - rewrite app_nil_r. apply Hd.
Qed.

Lemma CreateOrUpdateSnapshot_versioned env d gameID m :
  versioned d → versioned (snd (CreateOrUpdateSnapshot env d gameID m)).
Proof.
  intros Hd. unfold CreateOrUpdateSnapshot.
  destruct (failSnapshotLatest env); [done|].
  destruct (failSnapshotInsert env); [done|].
  unfold CreateGameStateSnapshot. cbn [sGameID sVersion].
  destruct (existsb _ (snapshots d)); [done|].
  cbn [snd]. apply versioned_snoc; [done|]. cbn [sGameID sVersion].
  intros Hcons Hlen. by apply next_version.
Qed.

Lemma UpdateGameStatus_versioned env d gameID status endedAt :
  versioned d → versioned (snd (UpdateGameStatus env d gameID status endedAt)).
Proof.
  apply versioned_snapshots.
  by destruct (UpdateGameStatus_snapshots env d gameID status endedAt) as [-> _].
Qed.

Lemma bootstrapAndStart_versioned e env w gameID actor :
  versioned (db w) → versioned (db (snd (bootstrapAndStart e env w gameID actor))).
Proof.
  intros Hw. unfold bootstrapAndStart.
  destruct (GetGamePlayerIDsInOrder env (db w) gameID) as [players|]; [|done].
  case_match; [done|].
  destruct (assignRoles players (perm env)) as [roles|]; [|done].
  match goal with
  | |- context [CreateOrUpdateSnapshot env (db w) gameID ?m] =>
      pose proof (CreateOrUpdateSnapshot_versioned env (db w) gameID m Hw) as Hd;
      destruct (CreateOrUpdateSnapshot env (db w) gameID m) as [r d]
  end.
  cbn in Hd. destruct r as [version|]; [|done].
  pose proof (UpdateGameStatus_versioned env d gameID "in_progress" None Hd) as Hu.
  destruct (UpdateGameStatus env d gameID "in_progress" None) as [[|] d'']; done.
Qed.

Lemma persistMove_versioned env w gameID actor moveType payload next evs :
  versioned (db w) →
  versioned (db (snd (persistMove env w gameID actor moveType payload next evs))).
Proof.
  intros Hw. unfold persistMove.
  set (w1 := match payload with Some l => _ | None => w end).
  assert (db w1 = db w) as Hw1 by (subst w1; by destruct payload).
  match goal with
  | |- context [CreateGameEvent env (db w1) gameID actor moveType ?p] =>
      pose proof (CreateGameEvent_snapshots env (db w1) gameID actor moveType p) as Hev;
      destruct (CreateGameEvent env (db w1) gameID actor moveType p) as [rev d1]
  end.
  cbn in Hev.
  assert (versioned d1) as Hd1.
  { eapply versioned_snapshots; [|exact Hw]. by rewrite Hev, Hw1. }
  destruct rev as [row|]; [|done].
  pose proof (CreateOrUpdateSnapshot_versioned env d1 gameID (ToMap next) Hd1) as Hd2.
  destruct (CreateOrUpdateSnapshot env d1 gameID (ToMap next)) as [r d2].
  cbn in Hd2. destruct r as [version|]; [|done].
  cbn. case_bool_decide; [|done].
  by apply UpdateGameStatus_versioned.
Qed.

Lemma ApplyMove_versioned e env w gameID actor moveType payload :
  versioned (db w) →
  versioned (db (snd (ApplyMove e env w gameID actor moveType payload))).
Proof.
  intros Hw. unfold ApplyMove, startOnly.
  destruct (GetState env (db w) gameID) as [[state|]|]; [| |done];
    repeat case_match; try done;
    try (by apply bootstrapAndStart_versioned);
    by apply persistMove_versioned.
Qed.

Lemma createGame_versions d gameID roomID players d' :
  versioned d → createGame d gameID roomID players = Some d' →
  snapshots d' = snapshots d ++ [ {| sGameID := gameID; sVersion := 1;
                                     sStateJSON := LobbyStateJSON |} ]
  ∧ ((len (versionsOf d gameID) <= max_int32)%Z → versionsOf d gameID = []).
Proof.
  unfold createGame, CreateGameStateSnapshot. cbn [sGameID sVersion].
  intros Hd.
  destruct (existsb _ (games d)); [done|].
  destruct (existsb _ (snapshots d)) eqn:Hex; [done|].
  intros [= <-]. cbn. split; [done|].
  intros Hlen. specialize (Hd gameID Hlen).
  destruct (versionsOf d gameID) as [|v vs] eqn:Hvs; [done|].
  exfalso.
  assert (v = 1%Z) as ->.
  { unfold consecutiveFromOne in Hd. simpl length in Hd.
    change (seq 1 (S (length vs))) with (1 :: seq 2 (length vs)) in Hd.
    rewrite fmap_cons in Hd. by injection Hd. }
  unfold versionsOf in Hvs.
  destruct (snapshotsOf d gameID) as [|r rows] eqn:Hrows; [done|].
  injection Hvs as Hr _.
  assert (r ∈ snapshotsOf d gameID) as Hin by (rewrite Hrows; left).
  apply list_elem_of_filter in Hin as [Hg Hin].
  apply list_elem_of_In in Hin.
  assert (existsb (λ r, bool_decide (sGameID r = gameID) && (sVersion r =? 1)%Z)
            (snapshots d) = true) as Htrue.
  { apply existsb_exists. exists r. split; [done|].
    rewrite bool_decide_eq_true_2 by done. rewrite Hr. done. }
  congruence.
Qed.

Lemma createGame_versioned d gameID roomID players d' :
  versioned d → createGame d gameID roomID players = Some d' → versioned d'.
Proof.
  intros Hd Hc.
  destruct (createGame_versions _ _ _ _ _ Hd Hc) as [Hs Hnil].
  assert (versioned (withSnapshots
            (snapshots d ++ [ {| sGameID := gameID; sVersion := 1;
                                 sStateJSON := LobbyStateJSON |} ]) d)) as Hv.
  { apply versioned_snoc; [done|]. cbn. intros _ Hlen.
    rewrite Hnil by lia. done. }
  eapply versioned_snapshots; [|exact Hv]. by rewrite Hs.
Qed.

Lemma reachable_versioned (w : World) : reachable w → versioned (db w).
Proof.
  induction 1 as [|w gameID roomID players d _ IH Hc|w h _ IH
                  |w env g a t p _ IH|w e env g a mt p _ IH].
  - intros g _. done.
  - by eapply createGame_versioned.
  - done.
  - eapply versioned_snapshots; [|exact IH]. cbn [db withDB].
    apply CreateGameEvent_snapshots.
  - by apply ApplyMove_versioned.
Qed.

(** C5.  In every run, the snapshots of a game are numbered 1, 2, 3, ...
    without gaps: any two consecutive snapshots differ by one and start at 1
    or above; a game is created with a snapshot of version 1; and every
    later write takes the largest existing version plus one.  (Versions are
    int32: the statement is for games that have not used them all.) *)
Theorem snapshot_versions_consecutive (w : World) (gameID : string) :
  reachable w →
  (len (versionsOf (db w) gameID) < max_int32)%Z →
  consecutiveFromOne (versionsOf (db w) gameID)
  ∧ (∀ i s1 s2,
       snapshotsOf (db w) gameID !! i = Some s1 →
       snapshotsOf (db w) gameID !! S i = Some s2 →
       sVersion s2 = sVersion s1 + 1 ∧ 1 <= sVersion s1)%Z
  ∧ (∀ roomID players d,
       createGame (db w) gameID roomID players = Some d →
       versionsOf d gameID = [1%Z])
  ∧ (∀ env m v d,
       CreateOrUpdateSnapshot env (db w) gameID m = (Ok v, d) →
       v = (maxVersion (versionsOf (db w) gameID) + 1)%Z
       ∧ versionsOf d gameID = versionsOf (db w) gameID ++ [v]).
Proof.
  intros Hw Hlen.
  pose proof (reachable_versioned w Hw) as Hv.
  assert (consecutiveFromOne (versionsOf (db w) gameID)) as Hcons
    by (apply Hv; lia).
  split; [done|]. split; [|split].
  - intros i s1 s2 H1 H2.
    assert (versionsOf (db w) gameID !! i = Some (sVersion s1)) as V1
      by (unfold versionsOf; by rewrite list_lookup_fmap, H1).
    assert (versionsOf (db w) gameID !! S i = Some (sVersion s2)) as V2
      by (unfold versionsOf; by rewrite list_lookup_fmap, H2).
    rewrite Hcons in V1, V2. rewrite list_lookup_fmap in V1, V2.
    destruct (seq 1 (length (versionsOf (db w) gameID)) !! i) as [n1|] eqn:E1; [|done].
    destruct (seq 1 (length (versionsOf (db w) gameID)) !! S i) as [n2|] eqn:E2; [|done].
    apply lookup_seq in E1 as [-> _]. apply lookup_seq in E2 as [-> _].
    simpl in V1, V2. injection V1 as <-. injection V2 as <-. lia.
  - intros roomID players d Hc.
    destruct (createGame_versions _ _ _ _ _ Hv Hc) as [Hs Hnil].
    unfold versionsOf, snapshotsOf in *. rewrite Hs, filter_app, fmap_app.
    rewrite Hnil by lia. rewrite filter_cons, filter_nil.
    by rewrite decide_True.
  - intros env m v d Hc.
    apply CreateOrUpdateSnapshot_next in Hc as [-> ->]; [|done..].
    rewrite consecutive_max by done. split; [done|].
    unfold versionsOf at 1. rewrite snapshotsOf_snoc. cbn [sGameID].
    rewrite decide_True by done. by rewrite fmap_app.
Qed.

Lemma snapshot_versions_consecutive_witness :
  consecutiveFromOne (versionsOf (db midGameWorld) "g1")
  ∧ versionsOf (db midGameWorld) "g1" !! 26%nat = Some 27%Z.
Proof.
  assert (reachable midGameWorld) as H1
    by apply reachable_play, reachable_lobbyWorld.
  assert (len (versionsOf (db midGameWorld) "g1") < max_int32)%Z as H2
    by (vm_compute; reflexivity).
  destruct (snapshot_versions_consecutive midGameWorld "g1" H1 H2) as [Hc _].
  split; [exact Hc|].
  vm_compute. reflexivity.
Defined.

(** ** Persistence of a move *)

(** An accepted move goes on to the store calls. *)
Lemma ApplyMove_accepted e env w gameID actor moveType payload state next evs :
  GetState env (db w) gameID = Ok (Some state) →
  bool_decide (Phase state = PhaseLobby) && (len (PlayerIDs state) =? 0)%Z = false →
  Status state ≠ "finished" →
  validateMove e state actor moveType (deref w payload) = Ok (next, evs) →
  ApplyMove e env w gameID actor moveType payload
  = persistMove env w gameID actor moveType payload next evs.
Proof.
  intros Hstate Hlobby Hfin Hvalid. unfold ApplyMove.
  rewrite Hstate, Hlobby, Hvalid.
  by rewrite bool_decide_eq_false_2.
Qed.

(** The store calls of an accepted move, one after the other: the event is
    inserted before the snapshot is written, by a separate call. *)
Lemma persistMove_event_first env w gameID actor moveType payload next evs :
  failCreateGameEvent env = false →
  failSnapshotLatest env || failSnapshotInsert env = true →
  let r := persistMove env w gameID actor moveType payload next evs in
  fst r = Err ErrPersistSnapshot
  ∧ snapshots (db (snd r)) = snapshots (db w)
  ∧ events (db (snd r))
    = events (db w) ++ [moveEvent gameID actor moveType (deref w payload)].
Proof.
  intros Hev Hsnap. unfold persistMove, CreateGameEvent, CreateOrUpdateSnapshot.
  destruct payload as [l|]; cbn [db withHeap withDB heap]; rewrite Hev;
    destruct (failSnapshotLatest env); simpl in Hsnap; try rewrite Hsnap; done.
Qed.

(** C3.  The proposal of round 4 is valid (with a working store it is
    accepted).  When the event row is inserted and the insert of the snapshot
    row then fails, [ApplyMove] returns "persist snapshot", no snapshot has
    been added, and the event of the failed move stays in the store. *)
Theorem event_remains_when_snapshot_fails :
  let r := ApplyMove classicEngine snapshotDown proposalWorld
             "g1" "p4" "action" (Some 0) in
  fst (ApplyMove classicEngine calm proposalWorld "g1" "p4" "action" (Some 0))
  = Ok (setVersion 28
          (teamProposedState
             (default emptyState (latestState (db proposalWorld) "g1"))
             ["p4"; "p5"; "p1"]),
        [teamProposed ["p4"; "p5"; "p1"]])
  ∧ fst r = Err ErrPersistSnapshot
  ∧ snapshots (db (snd r)) = snapshots (db proposalWorld)
  ∧ events (db (snd r))
    = events (db proposalWorld)
      ++ [moveEvent "g1" "p4" "action" (proposePayload ["p4"; "p5"; "p1"])].
Proof.
  cbv zeta. split; [vm_compute; reflexivity|].
  set (state := default emptyState (latestState (db proposalWorld) "g1")).
  rewrite (ApplyMove_accepted classicEngine snapshotDown proposalWorld
             "g1" "p4" "action" (Some 0) state
             (teamProposedState state ["p4"; "p5"; "p1"])
             [teamProposed ["p4"; "p5"; "p1"]]);
    [|vm_compute; reflexivity|vm_compute; reflexivity
     |vm_compute; discriminate|vm_compute; reflexivity].
  apply (persistMove_event_first snapshotDown proposalWorld "g1" "p4" "action"
           (Some 0)); reflexivity.
Qed.

(** C10.  A move that passes validation (a vote, or an action other than the
    bootstrap) with a non-nil payload: [ApplyMove] writes "move_type" into the
    map object the caller passed, whatever the store calls return afterwards,
    so the caller's map has changed when the call returns; the other objects
    are untouched; and the event row that is inserted carries the caller's
    payload with the "move_type" entry. *)
Theorem apply_move_writes_move_type
    (e : Engine) (env : Env) (w : World) (gameID actor moveType : string)
    (l : loc) (m : gmap string value) (state next : GameState)
    (evs : list BroadcastEvent) :
  heap w !! l = Some m →
  GetState env (db w) gameID = Ok (Some state) →
  ¬ (Phase state = PhaseLobby ∧ PlayerIDs state = []) →
  Status state ≠ "finished" →
  validateMove e state actor moveType m = Ok (next, evs) →
  let w' := snd (ApplyMove e env w gameID actor moveType (Some l)) in
  heap w' !! l = Some (<[ "move_type" := VString moveType ]> m)
  ∧ (∀ l', l' ≠ l → heap w' !! l' = heap w !! l')
  ∧ (failCreateGameEvent env = false →
     events (db w') = events (db w) ++ [moveEvent gameID actor moveType m]).
Proof.
  intros Hl Hstate Hlobby Hfin Hvalid w'.
  assert (deref w (Some l) = m) as Hderef by (unfold deref; by rewrite Hl).
  assert (bool_decide (Phase state = PhaseLobby)
          && (len (PlayerIDs state) =? 0)%Z = false) as Hgate.
  { apply andb_false_iff.
    destruct (decide (Phase state = PhaseLobby)) as [Hp|Hp];
      [right|left; by apply bool_decide_eq_false_2].
    apply Z.eqb_neq. unfold len.
    destruct (PlayerIDs state) eqn:E; [by destruct Hlobby|simpl; lia]. }
  subst w'.
  rewrite (ApplyMove_accepted e env w gameID actor moveType (Some l) state next evs)
    by (rewrite ?Hderef; done).
  unfold persistMove. rewrite Hderef.
  set (w1 := withHeap _ w).
  assert (∀ r, heap (withDB r w1) = <[ l := <[ "move_type" := VString moveType ]> m ]> (heap w))
    as Hheap by done.
  assert (db w1 = db w) as Hdb by done.
  unfold CreateGameEvent. rewrite Hdb.
  destruct (failCreateGameEvent env).
  { cbn [snd]. rewrite Hheap. split; [apply lookup_insert_eq|].
    split; [intros l' Hl'; by rewrite lookup_insert_ne|done]. }
  match goal with
  | |- context [CreateOrUpdateSnapshot env ?d gameID ?s] =>
      pose proof (CreateOrUpdateSnapshot_events env d gameID s) as Hev;
      destruct (CreateOrUpdateSnapshot env d gameID s) as [r d2]
  end.
  cbn in Hev.
  destruct r as [version|]; cbn [snd].
  - rewrite Hheap. split; [apply lookup_insert_eq|].
    split; [intros l' Hl'; by rewrite lookup_insert_ne|].
    intros _. cbn [db withDB].
    destruct (bool_decide (Status (setVersion version next) = "finished")).
    + destruct (UpdateGameStatus_snapshots env d2 gameID "finished" (Some (now env)))
        as [_ ->]. by rewrite Hev.
    + by rewrite Hev.
  - rewrite Hheap. split; [apply lookup_insert_eq|].
    split; [intros l' Hl'; by rewrite lookup_insert_ne|].
    intros _. cbn [db withDB]. by rewrite Hev.
Qed.

Lemma apply_move_writes_move_type_witness :
  heap proposalWorld !! 0 = Some (proposePayload ["p4"; "p5"; "p1"])
  ∧ proposePayload ["p4"; "p5"; "p1"] !! "move_type" = None
  ∧ heap (snd (ApplyMove classicEngine calm proposalWorld "g1" "p4" "action"
                 (Some 0))) !! 0
    = Some (<[ "move_type" := VString "action" ]>
              (proposePayload ["p4"; "p5"; "p1"])).
Proof.
  split; [vm_compute; reflexivity|]. split; [vm_compute; reflexivity|].
  set (state := default emptyState (latestState (db proposalWorld) "g1")).
  assert (heap proposalWorld !! 0 = Some (proposePayload ["p4"; "p5"; "p1"])) as H1
    by (vm_compute; reflexivity).
  assert (GetState calm (db proposalWorld) "g1" = Ok (Some state)) as H2
    by (vm_compute; reflexivity).
  assert (¬ (Phase state = PhaseLobby ∧ PlayerIDs state = [])) as H3
    by (intros [Hp _]; vm_compute in Hp; discriminate).
  assert (Status state ≠ "finished") as H4 by (vm_compute; discriminate).
  assert (validateMove classicEngine state "p4" "action"
            (proposePayload ["p4"; "p5"; "p1"])
          = Ok (teamProposedState state ["p4"; "p5"; "p1"],
                [teamProposed ["p4"; "p5"; "p1"]])) as H5
    by (vm_compute; reflexivity).
  destruct (apply_move_writes_move_type classicEngine calm proposalWorld
              "g1" "p4" "action" 0 _ state _ _ H1 H2 H3 H4 H5) as [Hheap _].
  exact Hheap.
Defined.

(** ** [sync_state] *)

(** C7, as stated, fails for a room without a game: the session of room r2
    is sent an error envelope, not a state envelope with the lobby phase. *)
Lemma sync_state_without_game_is_error :
  GetLatestGameForRoom calm (db midGameWorld) "r2" = Ok None
  ∧ cSend <$> sessions (handleSyncState roomHandler calm (db midGameWorld) sampleHub 3) !! 3
    = Some [errorEnvelope "no game found for room"]
  ∧ ¬ (∃ payload,
         cSend <$> sessions (handleSyncState roomHandler calm (db midGameWorld)
                               sampleHub 3) !! 3
         = Some [ {| envType := ServerTypeState; envEvent := ServerEventState;
                     envPayload := payload |} ]).
Proof.
  assert (cSend <$> sessions (handleSyncState roomHandler calm (db midGameWorld)
                                sampleHub 3) !! 3
          = Some [errorEnvelope "no game found for room"]) as Hsend
    by (vm_compute; reflexivity).
  split; [vm_compute; reflexivity|]. split; [exact Hsend|].
  intros [payload Hp]. rewrite Hsend in Hp. discriminate.
Qed.

(** C7, amended.  A [sync_state] message touches the sender's session only:
    nothing is put on the broadcast channel and no other session changes.
    With room in its send channel, the session receives exactly one envelope:
    for a room whose latest game has a snapshot, a state envelope
    (type "state", event "state") whose payload carries the game id, the state
    read from the latest snapshot and its phase; for a game without snapshot,
    a state envelope whose state is {phase: "lobby"}; for a room without a
    game, the error envelope "no game found for room". *)
Theorem sync_state_reply
    (h : EventHandler) (env : Env) (d : DB) (hub : Hub) (c : nat) (client : Client) :
  sessions hub !! c = Some client →
  gameStore h = true →
  is_Some (engine h) →
  length (cSend client) < sendCapacity →
  let hub' := handleSyncState h env d hub c in
  broadcast hub' = broadcast hub
  ∧ (∀ c', c' ≠ c → sessions hub' !! c' = sessions hub !! c')
  ∧ ∃ envelope,
      sessions hub' !! c
      = Some {| cRoomID := cRoomID client; cRoomPlayerID := cRoomPlayerID client;
                cSend := cSend client ++ [envelope] |}
      ∧ (∀ game state,
           GetLatestGameForRoom env d (cRoomID client) = Ok (Some game) →
           GetState env d (gID game) = Ok (Some state) →
           envType envelope = "state" ∧ envEvent envelope = "state"
           ∧ envPayload envelope !! "game_id" = Some (VString (gID game))
           ∧ envPayload envelope !! "state" = Some (VMap (ToMap state))
           ∧ envPayload envelope !! "phase" = Some (VString (Phase state)))
      ∧ (∀ game,
           GetLatestGameForRoom env d (cRoomID client) = Ok (Some game) →
           GetState env d (gID game) = Ok None →
           envelope
           = {| envType := "state"; envEvent := "state";
                envPayload := <[ "state" := VMap {[ "phase" := VString "lobby" ]} ]>
                                {[ "game_id" := VString (gID game) ]} |})
      ∧ (GetLatestGameForRoom env d (cRoomID client) = Ok None →
         envelope = errorEnvelope "no game found for room").
Proof.
  intros Hc Hstore Hengine Hroom hub'. subst hub'.
  unfold handleSyncState. rewrite Hc. cbn [broadcast sessions].
  split; [done|]. split; [intros c' Hc'; by rewrite lookup_insert_ne|].
  rewrite lookup_insert_eq.
  assert (∀ envelope, sendEnvelopeToClient client envelope
            = {| cRoomID := cRoomID client; cRoomPlayerID := cRoomPlayerID client;
                 cSend := cSend client ++ [envelope] |}) as Hsend.
  { intros envelope. unfold sendEnvelopeToClient. by rewrite decide_True. }
  unfold syncState, sendErrorToClient. rewrite Hstore.
  rewrite bool_decide_eq_true_2 by done. cbn [negb orb].
  destruct (GetLatestGameForRoom env d (cRoomID client)) as [[game|]|] eqn:Hgame.
  - destruct (GetState env d (gID game)) as [[state|]|] eqn:Hstate.
    + rewrite Hsend. eexists. split; [done|].
      split; [|split]; [| |done].
      2:{ intros game' [= <-]. rewrite Hstate. done. }
      intros game' state' [= <-]. rewrite Hstate. intros [= <-].
      cbn [envType envEvent envPayload].
      split; [done|]. split; [done|].
      split; [|split].
      * rewrite !lookup_insert_ne by done. apply lookup_singleton_eq.
      * rewrite !lookup_insert_ne by done. apply lookup_insert_eq.
      * rewrite lookup_insert_ne by done. apply lookup_insert_eq.
    + rewrite Hsend. eexists. split; [done|].
      split; [|split]; [| |done].
      * intros game' state' [= <-]. rewrite Hstate. done.
      * intros game' [= <-] _. done.
    + rewrite Hsend. eexists. split; [done|].
      split; [|split]; [| |done].
      * intros game' state' [= <-]. rewrite Hstate. done.
      * intros game' [= <-]. rewrite Hstate. done.
  - rewrite Hsend. eexists. split; [done|]. by split; [|split].
  - rewrite Hsend. eexists. split; [done|]. by split; [|split].
Qed.

Lemma sync_state_reply_witness :
  ∃ envelope,
    cSend <$> sessions (handleSyncState roomHandler calm (db midGameWorld) sampleHub 1) !! 1
    = Some [envelope]
    ∧ envType envelope = "state"
    ∧ envPayload envelope !! "game_id" = Some (VString "g1")
    ∧ envPayload envelope !! "phase" = Some (VString PhaseTeamSelection).
Proof.
  set (client := {| cRoomID := "r1"; cRoomPlayerID := "p5"; cSend := [] |}).
  set (game := {| gID := "g1"; gRoomID := "r1"; gStatus := "in_progress";
                  gEndedAt := None |}).
  set (state := default emptyState (latestState (db midGameWorld) "g1")).
  assert (sessions sampleHub !! 1 = Some client) as H1 by (vm_compute; reflexivity).
  assert (gameStore roomHandler = true) as H2 by reflexivity.
  assert (is_Some (engine roomHandler)) as H3 by (eexists; reflexivity).
  assert (length (cSend client) < sendCapacity) as H4 by (vm_compute; lia).
  assert (GetLatestGameForRoom calm (db midGameWorld) (cRoomID client) = Ok (Some game))
    as H5 by (vm_compute; reflexivity).
  assert (GetState calm (db midGameWorld) (gID game) = Ok (Some state)) as H6
    by (vm_compute; reflexivity).
  destruct (sync_state_reply roomHandler calm (db midGameWorld) sampleHub 1 client
              H1 H2 H3 H4) as (_ & _ & envelope & Hs & Hstate & _ & _).
  destruct (Hstate game state H5 H6) as (Ht & _ & Hg & _ & Hp).
  exists envelope. rewrite Hs. split; [done|]. split; [done|]. split; [done|].
  rewrite Hp. vm_compute. reflexivity.
Defined.

(** The version of that envelope is the "version" entry of the stored state,
    which [ApplyMove] writes before it knows the version of the row: after the
    27 snapshots of scenario 1 it is still 0. *)
Example sync_state_version_entry :
  sVersion <$> GetLatestGameStateSnapshotByGameId (db midGameWorld) "g1" = Some 27%Z
  ∧ (λ c, (λ e, envPayload e !! "version") <$> cSend c)
      <$> sessions (handleSyncState roomHandler calm (db midGameWorld) sampleHub 1) !! 1
    = Some [Some (VInt 0)].
Proof. split; vm_compute; reflexivity. Qed.

(** ** Tokens *)



Lemma splitDot_app (a b : list byte) :
  "."%byte ∉ a → splitDot (a ++ "."%byte :: b) = Some (a, b).
Proof.
  induction a as [|c a IH]; intros Hdot; simpl.
  - done.
  - rewrite decide_False by (intros ->; apply Hdot; left).
    rewrite IH; [done|]. intros Hin. apply Hdot. by right.
Qed.

(** The token made by [GenerateToken], and how [VerifyToken] takes it apart. *)
Lemma GenerateToken_token (L : Lib) (now : Z) (room player : string)
    (secret : list byte) (expiry : Z) (tok : list byte) (exp : Z) :
  GenerateToken L now room player secret expiry = inr (tok, exp) →
  secret ≠ [] ∧ exp = (now + expiry)%Z
  ∧ tok = tokenPayload L room player (unixSeconds exp)
          ++ "."%byte
          :: b64encode L (hmacSHA256 L secret
                            (tokenPayload L room player (unixSeconds exp))).
Proof.
  unfold GenerateToken. case_decide as Hs; [done|].
  intros [= <- <-]. split; [|done]. by intros ->.
Qed.

Lemma VerifyToken_generated (L : Lib) (now now' : Z) (room player : string)
    (s1 s2 : list byte) (expiry : Z) (tok : list byte) (exp : Z) :
  LibOk L →
  GenerateToken L now room player s1 expiry = inr (tok, exp) →
  s2 ≠ [] →
  let payload := tokenPayload L room player (unixSeconds exp) in
  VerifyToken L now' tok s2
  = if negb (bool_decide (hmacSHA256 L s1 payload = hmacSHA256 L s2 payload))
    then inl ErrSignature
    else match jsonUnmarshal L (jsonMarshal L {| RoomID := room;
                                                 RoomPlayerID := player;
                                                 Exp := unixSeconds exp |}) with
         | None => inl ErrPayload
         | Some claims =>
             if (Exp claims <? unixSeconds now')%Z then inl ErrExpired
             else if bool_decide (RoomID claims = "")
                     || bool_decide (RoomPlayerID claims = "")
             then inl ErrClaims
             else inr claims
         end.
Proof.
  intros [Hdec Hdot] Hgen Hs2 payload.
  apply GenerateToken_token in Hgen as (_ & _ & ->). fold payload.
  unfold VerifyToken.
  rewrite decide_False by (by destruct s2).
  rewrite splitDot_app by apply Hdot.
  rewrite Hdec. cbv beta iota.
  destruct (negb (bool_decide (hmacSHA256 L s1 payload = hmacSHA256 L s2 payload)));
    [done|].
  unfold payload, tokenPayload. rewrite Hdec. done.
Qed.

Lemma unnibble_nibble (x : byte) :
  unnibble (nibble (Byte.to_N x / 16)) = Some (Byte.to_N x / 16)%N
  ∧ unnibble (nibble (Byte.to_N x mod 16)) = Some (Byte.to_N x mod 16)%N
  ∧ Byte.of_N (16 * (Byte.to_N x / 16) + Byte.to_N x mod 16) = Some x
  ∧ nibble (Byte.to_N x / 16) ≠ "."%byte
  ∧ nibble (Byte.to_N x mod 16) ≠ "."%byte.
Proof. destruct x; vm_compute; repeat split; discriminate. Qed.

Lemma hexDecode_hexEncode (b : list byte) (fuel : nat) :
  length b ≤ fuel → hexDecode fuel (hexEncode b) = Some b.
Proof.
  revert fuel. induction b as [|x b IH]; intros fuel Hfuel.
  - by destruct fuel.
  - destruct fuel as [|fuel]; simpl in Hfuel; [lia|].
    destruct (unnibble_nibble x) as (Hhi & Hlo & Hx & _).
    cbn [hexEncode hexDecode]. rewrite Hhi, Hlo. cbn [mbind option_bind].
    rewrite Hx. cbn [mbind option_bind]. rewrite IH by lia. done.
Qed.

Lemma hexEncode_length (b : list byte) : length (hexEncode b) = 2 * length b.
Proof. induction b as [|x b IH]; simpl; [done|]. rewrite IH. lia. Qed.

Lemma plainLib_ok : LibOk plainLib.
Proof.
  split; intros b; cbn.
  - apply hexDecode_hexEncode. rewrite hexEncode_length. lia.
  - induction b as [|x b IH]; [apply not_elem_of_nil|].
    destruct (unnibble_nibble x) as (_ & _ & _ & Hhi & Hlo).
    cbn [hexEncode]. rewrite !not_elem_of_cons. naive_solver.
Qed.



(** *** Which secrets HMAC tells apart *)








(** * Further properties of the engine *)

(** ** Who may vote *)

Lemma applyTeamVote_accepts
    (s next : GameState) (actor : string) (payload : gmap string value)
    (evs : list BroadcastEvent) :
  applyTeamVote s actor payload = Ok (next, evs) →
  TeamVotes s !! actor = None ∧ is_Some (boolFromPayload payload "approved").
Proof.
  unfold applyTeamVote. rewrite Clone_eq.
  destruct (boolFromPayload payload "approved"); [|done].
  destruct (TeamVotes s !! actor); [done|]. eauto.
Qed.

Lemma applyMissionVote_accepts
    (e : Engine) (s next : GameState) (actor : string)
    (payload : gmap string value) (evs : list BroadcastEvent) :
  applyMissionVote e s actor payload = Ok (next, evs) →
  actor ∈ ProposedTeam s ∧ MissionVotes s !! actor = None
  ∧ is_Some (boolFromPayload payload "success").
Proof.
  unfold applyMissionVote. rewrite Clone_eq.
  destruct (boolFromPayload payload "success"); [|done].
  destruct (isOnProposedTeam s actor) eqn:Hteam; simpl; [|done].
  apply isOnProposedTeam_true in Hteam.
  destruct (MissionVotes s !! actor); [done|]. eauto.
Qed.



(** X2.  A vote is counted once: after a vote that was recorded without
    completing the ballot, a second vote of the same player in the same
    phase, whatever flag it carries, is refused with "already voted". *)
Theorem second_vote_refused
    (e : Engine) (s next : GameState) (actor : string)
    (first second : gmap string value) :
  applyVote e s actor first = Ok (next, [voteRecorded actor]) →
  (Phase s = PhaseTeamVote → is_Some (boolFromPayload second "approved")) →
  (Phase s = PhaseMissionVote → is_Some (boolFromPayload second "success")) →
  applyVote e next actor second = Err ErrAlreadyVoted.
Proof.
  intros H Hteam Hmission.
  assert (isPlayerInGame s actor = true
          ∧ ((Phase s = PhaseTeamVote ∧ TeamVotes s !! actor = None)
             ∨ (Phase s = PhaseMissionVote ∧ actor ∈ ProposedTeam s
                ∧ MissionVotes s !! actor = None))) as [Hin' Hphase].
  { revert H. unfold applyVote.
    destruct (isPlayerInGame s actor); simpl; [|done]. intros H. split; [done|].
    case_bool_decide as Hp1.
    - left. split; [done|]. by apply applyTeamVote_accepts in H as [? _].
    - case_bool_decide as Hp2; [|done].
      right. split; [done|]. by apply applyMissionVote_accepts in H as (? & ? & _). }
  revert H. unfold applyVote. rewrite Hin'. simpl.
  destruct Hphase as [(Hp & Hnone)|(Hp & Hon & Hnone)].
  - rewrite bool_decide_eq_true_2 by done.
    destruct (Hteam Hp) as [b Hb].
    unfold applyTeamVote at 1. rewrite Clone_eq, Hnone.
    destruct (boolFromPayload first "approved") as [a|]; [|done].
    cbn [TeamVotes setTeamVotes PlayerIDs].
    destruct (len (PlayerIDs s) <=? _)%Z.
    { destruct (_ <? _)%Z; intros [= _ Hev]; discriminate Hev. }
    intros [= <-].
    assert (isPlayerInGame (setTeamVotes (<[actor:=if a then "approve" else "reject"]>
                                           (TeamVotes s)) s) actor = true) as ->
      by exact Hin'.
    simpl. cbn [Phase setTeamVotes]. rewrite bool_decide_eq_true_2 by done.
    unfold applyTeamVote. rewrite Hb, Clone_eq. cbn [TeamVotes setTeamVotes].
    by rewrite lookup_insert_eq.
  - rewrite bool_decide_eq_false_2 by (rewrite Hp; discriminate).
    rewrite bool_decide_eq_true_2 by done.
    destruct (Hmission Hp) as [b Hb].
    unfold applyMissionVote at 1. rewrite Clone_eq, Hnone.
    apply isOnProposedTeam_true in Hon as Hon'. rewrite Hon'. simpl.
    destruct (boolFromPayload first "success") as [a|]; [|done].
    cbn [MissionVotes setMissionVotes PlayerIDs].
    destruct (len (ProposedTeam s) <=? _)%Z.
    { repeat case_match; intros [= _ Hev]; discriminate Hev. }
    intros [= <-].
    assert (isPlayerInGame (setMissionVotes (<[actor:=if a then "success" else "fail"]>
                                           (MissionVotes s)) s) actor = true) as ->
      by exact Hin'.
    simpl. cbn [Phase setMissionVotes].
    rewrite bool_decide_eq_false_2 by (rewrite Hp; discriminate).
    rewrite bool_decide_eq_true_2 by done.
    unfold applyMissionVote. rewrite Hb, Clone_eq.
    assert (isOnProposedTeam (setMissionVotes (<[actor:=if a then "success" else "fail"]>
                                           (MissionVotes s)) s) actor = true) as ->
      by exact Hon'.
    simpl. cbn [MissionVotes setMissionVotes].
    by rewrite lookup_insert_eq.
Qed.

Lemma second_vote_refused_witness :
  applyVote classicEngine
    (setTeamVotes {[ "p1" := "approve" ]} sampleTeamVote) "p1"
    {[ "approved" := VBool false ]}
  = Err ErrAlreadyVoted.
Proof.
  apply (second_vote_refused classicEngine (setTeamVotes ∅ sampleTeamVote)
           (setTeamVotes {[ "p1" := "approve" ]} sampleTeamVote) "p1"
           {[ "approved" := VBool true ]} {[ "approved" := VBool false ]}).
  - vm_compute. reflexivity.
  - intros _. vm_compute. eauto.
  - intros Hp. vm_compute in Hp. discriminate.
Defined.

(** ** Who may propose *)

Lemma getAllowedActions_classic (e : Engine) (phase action : string) :
  Phases (config e) = Some ClassicAvalonPhases →
  existsb (λ a, bool_decide (a = action)) (getAllowedActions e phase) = true →
  (phase = PhaseLobby ∧ action = ActionStartGame)
  ∨ (phase = PhaseTeamSelection ∧ action = ActionProposeTeam)
  ∨ ((phase = PhaseTeamVote ∨ phase = PhaseMissionVote) ∧ action = ActionVote).
Proof.
  intros Hph. unfold getAllowedActions. rewrite Hph.
  unfold ClassicAvalonPhases. cbn [default from_option id find Name AllowedActions].
  repeat (case_bool_decide as H;
          [subst phase; cbn [existsb orb AllowedActions]; rewrite ?orb_false_r;
           intros Ha; first [discriminate Ha|apply bool_decide_eq_true in Ha];
           subst action; auto 6|clear H]).
  done.
Qed.

(** X3.  With the classic phases, [applyAction] accepts one action only: a
    [propose_team] in [team_selection] by the player [LeaderPlayerID] names.
    The accepted team is made of players of the game, its size is the entry of
    the engine's team sizes for the round (round 1 when the round index is out
    of range), the game moves to [team_vote] with no votes, and the single
    event is [team_proposed]. *)
Theorem proposal_accepted_only_from_leader
    (e : Engine) (s next : GameState) (actor : string)
    (payload : gmap string value) (evs : list BroadcastEvent) (sizes : list Z) :
  Phases (config e) = Some ClassicAvalonPhases →
  TeamSizes (config e) = Some sizes → sizes ≠ [] →
  applyAction e s actor payload = Ok (next, evs) →
  let round := if ((RoundIndex s <=? 0) || (len sizes <? RoundIndex s))%Z
               then 1%Z else RoundIndex s in
  Phase s = PhaseTeamSelection
  ∧ LeaderPlayerID s = actor
  ∧ next = teamProposedState s (ProposedTeam next)
  ∧ evs = [teamProposed (ProposedTeam next)]
  ∧ Forall (λ id, id ∈ PlayerIDs s) (ProposedTeam next)
  ∧ sizes !! Z.to_nat (round - 1) = Some (len (ProposedTeam next)).
Proof.
  intros Hph Hsizes Hne. unfold applyAction.
  set (action := if bool_decide (asString (payload !! "action") = "")
                 then asString (payload !! "type")
                 else asString (payload !! "action")).
  case_bool_decide as Hempty; [done|].
  destruct (existsb _ (getAllowedActions e (Phase s))) eqn:Hallowed; simpl; [|done].
  apply (getAllowedActions_classic e _ _ Hph) in Hallowed.
  case_bool_decide as Hstart; [done|].
  case_bool_decide as Hprop; [|done].
  destruct Hallowed as [[_ Ha]|[[Hphase _]|[_ Ha]]];
    [congruence| |rewrite Hprop in Ha; discriminate].
  intros H.
  set (round := if ((RoundIndex s <=? 0) || (len sizes <? RoundIndex s))%Z
                then 1%Z else RoundIndex s).
  pose proof (proposeTeam_members _ _ _ _ _ _ H) as (Hteam & _ & _).
  revert H Hteam. unfold proposeTeam. rewrite Clone_eq, Hsizes.
  cbn [default from_option id].
  case_bool_decide as Hleader; simpl; [|done].
  destruct (stringSliceFromPayload (payload !! "team_ids")) as [team ok].
  destruct (if ok then (team, ok) else stringSliceFromPayload (payload !! "team"))
    as [team' ok'].
  destruct ok'; simpl; [|done].
  assert ((len sizes =? 0)%Z = false) as ->.
  { apply Z.eqb_neq. unfold len. destruct sizes; [done|]. simpl length. lia. }
  cbv zeta. fold round.
  destruct (len team' =? nth (Z.to_nat (round - 1)) sizes 0)%Z eqn:Hsize;
    simpl; [|done].
  destruct (find _ team'); [done|].
  intros [= <- <-] Hteam. cbn [ProposedTeam setTeamVotes setPhase setProposedTeam
                                 PlayerIDs] in *.
  split; [done|]. split; [done|]. split; [done|]. split; [done|]. split; [done|].
  apply Z.eqb_eq in Hsize. rewrite Hsize.
  assert (1 <= round <= len sizes)%Z as Hr.
  { subst round.
    destruct (RoundIndex s <=? 0)%Z eqn:E1; simpl.
    - unfold len. destruct sizes; [done|]. simpl length. lia.
    - destruct (len sizes <? RoundIndex s)%Z eqn:E2; [|lia].
      unfold len. destruct sizes; [done|]. simpl length. lia. }
  destruct (lookup_lt_is_Some_2 sizes (Z.to_nat (round - 1))) as [x Hx];
    [unfold len in Hr; lia|].
  rewrite Hx. f_equal. symmetry. by apply nth_lookup_Some.
Qed.

Lemma proposal_accepted_only_from_leader_witness :
  Phase sampleRound3 = PhaseTeamSelection
  ∧ LeaderPlayerID sampleRound3 = "p3"
  ∧ [2; 3; 2; 3; 3]%Z !! 2 = Some (len ["p3"; "p4"]).
Proof.
  assert (applyAction classicEngine sampleRound3 "p3" (proposePayload ["p3"; "p4"])
          = Ok (teamProposedState sampleRound3 ["p3"; "p4"],
                [teamProposed ["p3"; "p4"]])) as H by (vm_compute; reflexivity).
  destruct (proposal_accepted_only_from_leader classicEngine sampleRound3 _ "p3" _ _
              [2; 3; 2; 3; 3]%Z eq_refl eq_refl ltac:(discriminate) H)
    as (H1 & H2 & _ & _ & _ & H3).
  split; [exact H1|]. split; [exact H2|]. exact H3.
Defined.

(** ** What a move leaves alone *)

(** X4.  A move that passes validation never touches the identity of the
    game: the game id, the players and their order, the roles and the version
    field of the next state are those of the state it was applied to; and the
    mission results either stay or gain one entry, "success" or "fail", at
    the end. *)
Theorem move_keeps_players_and_roles
    (e : Engine) (s next : GameState) (actor moveType : string)
    (payload : gmap string value) (evs : list BroadcastEvent) :
  validateMove e s actor moveType payload = Ok (next, evs) →
  GameID next = GameID s
  ∧ PlayerIDs next = PlayerIDs s
  ∧ Roles next = Roles s
  ∧ Version next = Version s
  ∧ (MissionResults next = MissionResults s
     ∨ ∃ r, (r = "success" ∨ r = "fail")
            ∧ MissionResults next = MissionResults s ++ [r]).
Proof.
  unfold validateMove, applyVote, applyAction, applyTeamVote, applyMissionVote,
    proposeTeam.
  rewrite !Clone_eq.
  repeat case_match; intros; simplify_eq; cbn; split_and!; eauto.
Qed.

Lemma move_keeps_players_and_roles_witness :
  PlayerIDs (finishedState "good" (missionResolvedState sampleMissionVote "success"))
  = PlayerIDs sampleMissionVote
  ∧ MissionResults (finishedState "good"
                      (missionResolvedState sampleMissionVote "success"))
    = MissionResults sampleMissionVote ++ ["success"].
Proof.
  assert (validateMove classicEngine sampleMissionVote "p1" "vote"
            {[ "success" := VBool true ]}
          = Ok (finishedState "good" (missionResolvedState sampleMissionVote "success"),
                [gameEnded "good" "success"])) as H by (vm_compute; reflexivity).
  destruct (move_keeps_players_and_roles _ _ _ _ _ _ _ H) as (_ & Hp & _ & _ & _).
  split; [exact Hp|reflexivity].
Defined.

(** X5.  The leader stays one of the players: when the leader index points
    into the player list before a move, it does so after it, and the id
    [LeaderPlayerID] returns for the next state is a player of the game. *)
Theorem leader_stays_a_player
    (e : Engine) (s next : GameState) (actor moveType : string)
    (payload : gmap string value) (evs : list BroadcastEvent) :
  validateMove e s actor moveType payload = Ok (next, evs) →
  (0 <= LeaderIndex s < len (PlayerIDs s))%Z →
  (len (PlayerIDs s) <= max_int)%Z →
  (0 <= LeaderIndex next < len (PlayerIDs next))%Z
  ∧ LeaderPlayerID next ∈ PlayerIDs next.
Proof.
  intros H Hrange Hlen.
  assert (0 <= LeaderIndex next < len (PlayerIDs next))%Z as Hnext.
  { revert H.
    assert (0 <= Z.rem (wrap_int (LeaderIndex s + 1)) (len (PlayerIDs s))
            < len (PlayerIDs s))%Z as Hrem.
    { unfold max_int in Hlen. rewrite wrap_int_id by lia.
      rewrite Z.rem_mod_nonneg by lia. apply Z.mod_pos_bound. lia. }
    unfold validateMove, applyVote, applyAction, applyTeamVote, applyMissionVote,
      proposeTeam.
    rewrite !Clone_eq.
    repeat case_match; intros; simplify_eq; cbn; done. }
  split; [done|].
  rewrite LeaderPlayerID_in_range by done.
  unfold index. apply list_elem_of_In, nth_In. unfold len in Hnext. lia.
Qed.

Lemma leader_stays_a_player_witness :
  (0 <= LeaderIndex (teamRejectedState sampleTeamVote)
   < len (PlayerIDs (teamRejectedState sampleTeamVote)))%Z
  ∧ LeaderPlayerID (teamRejectedState sampleTeamVote)
    ∈ PlayerIDs (teamRejectedState sampleTeamVote).
Proof.
  apply (leader_stays_a_player classicEngine sampleTeamVote _ "p5" "vote"
           {[ "approved" := VBool false ]}
           [teamRejected (teamRejectedState sampleTeamVote)]).
  - vm_compute. reflexivity.
  - vm_compute. split; [discriminate|reflexivity].
  - vm_compute. discriminate.
Defined.

(** ** The end of the game *)

(** X6.  A game is over after five missions at the latest: with a fail
    threshold of three or less, the vote that resolves a mission when four
    results are already recorded finishes the game, with status and phase
    "finished", a winner, and a [game_ended] event. *)
Theorem fifth_mission_ends_game
    (e : Engine) (s next : GameState) (actor : string)
    (payload : gmap string value) (evs : list BroadcastEvent) :
  (FailThreshold (config e) <= 3)%Z →
  Phase s = PhaseMissionVote →
  (4 <= len (MissionResults s))%Z →
  applyVote e s actor payload = Ok (next, evs) →
  evs ≠ [voteRecorded actor] →
  Status next = "finished" ∧ Phase next = PhaseFinished
  ∧ (Winner next = "evil" ∨ Winner next = "good")
  ∧ ∃ r, evs = [gameEnded (Winner next) r].
Proof.
  intros Hth Hphase Hlen. unfold applyVote.
  destruct (isPlayerInGame s actor); simpl; [|done].
  rewrite bool_decide_eq_false_2 by (rewrite Hphase; discriminate).
  rewrite bool_decide_eq_true_2 by done.
  unfold applyMissionVote. rewrite Clone_eq.
  destruct (boolFromPayload payload "success") as [success|]; [|done].
  destruct (isOnProposedTeam s actor); simpl; [|done].
  destruct (MissionVotes s !! actor); [done|].
  cbn [MissionVotes setMissionVotes setMissionResults setProposedTeam setPhase
       setLeaderIndex setRejectCount setRoundIndex MissionResults PlayerIDs
       LeaderIndex RoundIndex ProposedTeam].
  destruct (len (ProposedTeam s) <=? _)%Z; [|by intros [= <- <-] Hev].
  set (result := if (0 <? _)%Z then "fail" else "success").
  set (failTotal := countResults "fail" (MissionResults s ++ [result])).
  destruct (FailThreshold (config e) <=? failTotal)%Z eqn:E1.
  { intros [= <- <-] _. cbn. eauto 6. }
  destruct (3 <=? len (MissionResults s ++ [result]) - failTotal)%Z eqn:E2.
  { intros [= <- <-] _. cbn. eauto 6. }
  exfalso. apply Z.leb_gt in E1, E2. clearbody failTotal.
  unfold len in *. rewrite length_app in E2. simpl length in E2. lia.
Qed.

Lemma fifth_mission_ends_game_witness :
  let s := setMissionResults ["success"; "fail"; "success"; "fail"] sampleMissionVote in
  Status (finishedState "good" (missionResolvedState s "success")) = "finished"
  ∧ Winner (finishedState "good" (missionResolvedState s "success")) = "good".
Proof.
  intros s.
  assert (applyVote classicEngine s "p1" {[ "success" := VBool true ]}
          = Ok (finishedState "good" (missionResolvedState s "success"),
                [gameEnded "good" "success"])) as H by (vm_compute; reflexivity).
  assert (FailThreshold (config classicEngine) <= 3)%Z as H1
    by (vm_compute; discriminate).
  assert (4 <= len (MissionResults s))%Z as H2 by (vm_compute; discriminate).
  assert ([gameEnded "good" "success"] ≠ [voteRecorded "p1"]) as H3 by discriminate.
  destruct (fifth_mission_ends_game classicEngine s _ "p1" _ _ H1 eq_refl H2 H H3)
    as (H4 & _ & _ & _).
  split; [exact H4|reflexivity].
Defined.

(** ** The engine's configuration *)


(** ** Dealing the roles *)

Lemma foldl_evil_lookup (f : nat → string) (l : list nat)
    (acc : gmap string string) (k : string) :
  foldl (λ roles i, <[ f i := "evil" ]> roles) acc l !! k
  = if decide (k ∈ f <$> l) then Some "evil" else acc !! k.
Proof.
  revert acc. induction l as [|i l IH]; intros acc.
  - cbn. case_decide as H; [by apply elem_of_nil in H|done].
  - cbn [foldl]. rewrite IH, fmap_cons.
    destruct (decide (k ∈ f <$> l)) as [Hin|Hnin];
      destruct (decide (k ∈ f i :: (f <$> l))) as [Hin'|Hnin']; try done.
    + destruct Hnin'. by right.
    + apply elem_of_cons in Hin' as [->|?]; [|done]. by rewrite lookup_insert_eq.
    + apply not_elem_of_cons in Hnin' as [Hne _]. by rewrite lookup_insert_ne.
Qed.

Lemma foldl_good_lookup (l : list string) (acc : gmap string string) (k : string) :
  (∀ p, acc !! p ≠ Some "") →
  foldl (λ roles id, if bool_decide (default "" (roles !! id) = "")
                     then <[ id := "good" ]> roles else roles) acc l !! k
  = match acc !! k with
    | Some v => Some v
    | None => if decide (k ∈ l) then Some "good" else None
    end.
Proof.
  revert acc. induction l as [|id l IH]; intros acc Hacc.
  - cbn. destruct (acc !! k); [done|].
    case_decide as H; [by apply elem_of_nil in H|done].
  - cbn [foldl]. rewrite IH.
    2:{ intros p. case_bool_decide; [|done].
        destruct (decide (p = id)) as [->|Hne];
          [by rewrite lookup_insert_eq|by rewrite lookup_insert_ne]. }
    case_bool_decide as Hid.
    + destruct (decide (k = id)) as [->|Hne].
      * rewrite lookup_insert_eq.
        destruct (acc !! id) as [v|] eqn:Hv.
        { exfalso. apply (Hacc id). rewrite Hv. f_equal. exact Hid. }
        destruct (decide (id ∈ id :: l)) as [|Hnin]; [done|]. destruct Hnin. by left.
      * rewrite lookup_insert_ne by done.
        destruct (acc !! k); [done|].
        destruct (decide (k ∈ l)) as [Hin|Hnin];
          destruct (decide (k ∈ id :: l)) as [Hin'|Hnin']; try done.
        -- destruct Hnin'. by right.
        -- apply elem_of_cons in Hin' as [?|?]; done.
    + destruct (acc !! k) as [v|] eqn:Hk; [done|].
      destruct (decide (k ∈ l)) as [Hin|Hnin];
        destruct (decide (k ∈ id :: l)) as [Hin'|Hnin']; try done.
      * destruct Hnin'. by right.
      * apply elem_of_cons in Hin' as [->|?]; [|done].
        rewrite Hk in Hid. by destruct Hid.
Qed.

(** The reads of the first loop: it ends in a panic as soon as an index is
    out of range, and otherwise marks the players it reads. *)
Lemma foldl_evil_None (players : list string) (order l : list nat) :
  foldl (λ roles i, roles ← roles; j ← order !! i; id ← players !! j;
                    Some (<[ id := "evil" ]> roles))
        (None : option (gmap string string)) l = None.
Proof. by induction l. Qed.

Lemma foldl_evil_panics (players : list string) (order l : list nat)
    (acc : option (gmap string string)) (i : nat) :
  i ∈ l → order !! i = None →
  foldl (λ roles i, roles ← roles; j ← order !! i; id ← players !! j;
                    Some (<[ id := "evil" ]> roles)) acc l = None.
Proof.
  revert acc. induction l as [|k l IH]; intros acc Hi Hnone.
  - by apply elem_of_nil in Hi.
  - cbn [foldl]. apply elem_of_cons in Hi as [<-|Hi]; [|by apply IH].
    rewrite Hnone. destruct acc; cbn; apply foldl_evil_None.
Qed.

Lemma foldl_evil_Some (players : list string) (order l : list nat)
    (acc : gmap string string) :
  (∀ i, i ∈ l → ∃ j p, order !! i = Some j ∧ players !! j = Some p) →
  foldl (λ roles i, roles ← roles; j ← order !! i; id ← players !! j;
                    Some (<[ id := "evil" ]> roles)) (Some acc) l
  = Some (foldl (λ roles i, <[ nth (nth i order 0) players "" := "evil" ]> roles)
                acc l).
Proof.
  revert acc. induction l as [|k l IH]; intros acc Hl; [done|].
  cbn [foldl]. destruct (Hl k) as (j & p & Hj & Hp); [by left|].
  rewrite Hj. cbn. rewrite Hp. cbn.
  rewrite IH by (intros i Hi; apply Hl; by right).
  by rewrite (nth_lookup order), Hj; cbn; rewrite nth_lookup, Hp.
Qed.

Lemma permutation_reads (players : list string) (order : list nat) (evil : nat) :
  order ≡ₚ seq 0 (length players) → evil ≤ length players →
  ∀ i, i ∈ seq 0 evil → ∃ j p, order !! i = Some j ∧ players !! j = Some p.
Proof.
  intros Hperm Hevil i Hi%elem_of_seq.
  assert (length order = length players) as Hlo
    by (rewrite Hperm; apply length_seq).
  destruct (lookup_lt_is_Some_2 order i) as [j Hj]; [lia|].
  assert (j ∈ seq 0 (length players)) as Hin
    by (rewrite <- Hperm; by eapply list_elem_of_lookup_2).
  apply elem_of_seq in Hin.
  destruct (lookup_lt_is_Some_2 players j) as [p Hp]; [lia|]. eauto.
Qed.

(** With two players or more the roles are dealt. *)
Lemma assignRoles_Some (players : list string) (order : list nat) :
  order ≡ₚ seq 0 (length players) → 2 ≤ length players →
  is_Some (assignRoles players order).
Proof.
  intros Hperm Hn. unfold assignRoles. cbv zeta.
  rewrite foldl_evil_Some; [by eexists|].
  apply permutation_reads; [done|].
  destruct (7 <=? len players)%Z eqn:E; unfold len in E; lia.
Qed.

(** With fewer players than evil roles the second read of the permutation
    is out of range. *)
Lemma assignRoles_panics (players : list string) (order : list nat) :
  order ≡ₚ seq 0 (length players) → length players < 2 →
  assignRoles players order = None.
Proof.
  intros Hperm Hn. unfold assignRoles.
  assert (length order = length players) as Hlen
    by (rewrite Hperm; apply length_seq).
  destruct (7 <=? len players)%Z eqn:E; [unfold len in E; lia|].
  rewrite (foldl_evil_panics players order (seq 0 2) _ (length players)); [done| |].
  - apply elem_of_seq. lia.
  - apply lookup_ge_None. lia.
Qed.

(** The players drawn as evil: those at the first entries of the permutation. *)
Lemma evil_players (players : list string) (order : list nat) (evil : nat) :
  NoDup players → order ≡ₚ seq 0 (length players) → evil ≤ length players →
  let keys := (λ i, nth (nth i order 0) players "") <$> seq 0 evil in
  NoDup keys ∧ length keys = evil
  ∧ ∀ p, p ∈ keys ↔ ∃ i j, i < evil ∧ order !! i = Some j ∧ players !! j = Some p.
Proof.
  intros Hplayers Hperm Hevil keys.
  assert (length order = length players) as Hlen
    by (rewrite Hperm; apply length_seq).
  assert (NoDup order) as Horder by (rewrite Hperm; apply NoDup_seq).
  assert (∀ i, i < evil →
            ∃ j p, order !! i = Some j ∧ players !! j = Some p
                   ∧ nth (nth i order 0) players "" = p) as Hkey.
  { intros i Hi.
    destruct (lookup_lt_is_Some_2 order i) as [j Hj]; [lia|].
    assert (j < length players) as Hjn.
    { assert (j ∈ seq 0 (length players)) as Hin
        by (rewrite <- Hperm; by eapply list_elem_of_lookup_2).
      apply elem_of_seq in Hin. lia. }
    destruct (lookup_lt_is_Some_2 players j) as [p Hp]; [done|].
    exists j, p. split; [done|]. split; [done|].
    rewrite (nth_lookup order), Hj; simpl; by rewrite nth_lookup, Hp. }
  split; [|split].
  - subst keys. apply NoDup_fmap_2_strong; [|apply NoDup_seq].
    intros i i' Hi Hi' Heq.
    apply elem_of_seq in Hi, Hi'.
    destruct (Hkey i) as (j & p & Hj & Hp & Hn); [lia|].
    destruct (Hkey i') as (j' & p' & Hj' & Hp' & Hn'); [lia|].
    rewrite Hn, Hn' in Heq. subst p'.
    assert (j = j') as <- by exact (NoDup_lookup players j j' p Hplayers Hp Hp').
    exact (NoDup_lookup order i i' j Horder Hj Hj').
  - subst keys. by rewrite length_fmap, length_seq.
  - intros p. subst keys. rewrite list_elem_of_fmap. split.
    + intros (i & -> & Hi). apply elem_of_seq in Hi.
      destruct (Hkey i) as (j & p & Hj & Hp & Hn); [lia|].
      exists i, j. rewrite Hn. split; [lia|done].
    + intros (i & j & Hi & Hj & Hp).
      exists i. split; [|apply elem_of_seq; lia].
      rewrite (nth_lookup order), Hj; simpl; by rewrite nth_lookup, Hp.
Qed.

(** X8.  The roles dealt at the start of a game: for players without
    duplicates and any permutation of their indices, no read is out of
    range and two players are evil in a game of up to six and three in a
    game of seven or more (the players at the first entries of the
    permutation), every other player is good, and nobody else has a role. *)
Theorem assignRoles_deals_roles (players : list string) (order : list nat) :
  NoDup players → order ≡ₚ seq 0 (length players) →
  let evil := if (7 <=? len players)%Z then 3 else 2 in
  evil ≤ length players →
  ∃ roles, assignRoles players order = Some roles
  ∧ votesFor "evil" roles = Z.of_nat evil
  ∧ (∀ p, roles !! p = Some "evil"
          ↔ ∃ i j, i < evil ∧ order !! i = Some j ∧ players !! j = Some p)
  ∧ (∀ p, p ∈ players → roles !! p = Some "evil" ∨ roles !! p = Some "good")
  ∧ (∀ p, p ∉ players → roles !! p = None).
Proof.
  intros Hplayers Hperm evil Hevil.
  destruct (evil_players players order evil Hplayers Hperm Hevil)
    as (Hnodup & Hlen & Hkeys).
  set (keys := (λ i, nth (nth i order 0) players "") <$> seq 0 evil) in *.
  assert (∃ roles, assignRoles players order = Some roles
          ∧ ∀ p, roles !! p
                 = if decide (p ∈ keys) then Some "evil"
                   else if decide (p ∈ players) then Some "good" else None)
    as (roles & Hdealt & Hroles).
  { unfold assignRoles. cbv zeta. fold evil.
    rewrite foldl_evil_Some by (by apply permutation_reads).
    cbn. eexists. split; [done|]. intros p.
    rewrite foldl_good_lookup.
    2:{ intros q. rewrite foldl_evil_lookup. by case_decide. }
    rewrite foldl_evil_lookup. fold keys.
    case_decide; [done|]. by rewrite lookup_empty. }
  exists roles. split; [exact Hdealt|].
  assert (∀ p, p ∈ keys → p ∈ players) as Hsub.
  { intros p Hp. apply Hkeys in Hp as (i & j & _ & _ & Hp).
    by eapply list_elem_of_lookup_2. }
  split; [|split; [|split]].
  - unfold votesFor. f_equal.
    assert (filter (λ kv : string * string, kv.2 = "evil") roles
            = list_to_map ((λ k, (k, "evil")) <$> keys)) as ->.
    { apply map_eq. intros p. apply option_eq. intros v.
      rewrite map_lookup_filter_Some, Hroles. simpl.
      rewrite <- elem_of_list_to_map.
      2:{ rewrite <- list_fmap_compose. by rewrite list_fmap_id. }
      rewrite list_elem_of_fmap. split.
      - intros [Hp ->]. repeat case_decide; simplify_eq. by exists p.
      - intros (k & [= -> ->] & Hk). by rewrite decide_True. }
    rewrite map_size_list_to_map.
    + by rewrite length_fmap.
    + rewrite <- list_fmap_compose. by rewrite list_fmap_id.
  - intros p. rewrite Hroles, <- (Hkeys p).
    destruct (decide (p ∈ keys)) as [Hk|Hk]; [done|].
    destruct (decide (p ∈ players)); (split; [done|intros Hk'; by destruct Hk]).
  - intros p Hp. rewrite Hroles.
    destruct (decide (p ∈ keys)); [by left|].
    destruct (decide (p ∈ players)); [by right|done].
  - intros p Hp. rewrite Hroles.
    destruct (decide (p ∈ keys)) as [Hk|]; [by apply Hsub in Hk|].
    by destruct (decide (p ∈ players)).
Qed.

Lemma assignRoles_deals_roles_witness :
  ∃ roles, assignRoles fivePlayers (perm calm) = Some roles
  ∧ votesFor "evil" roles = 2%Z
  ∧ roles !! "p4" = Some "evil"
  ∧ roles !! "p2" = Some "evil".
Proof.
  assert (NoDup fivePlayers) as H1
    by (apply (bool_decide_unpack (NoDup fivePlayers)); vm_compute; exact I).
  assert (perm calm ≡ₚ seq 0 (length fivePlayers)) as H2
    by (apply (bool_decide_unpack (perm calm ≡ₚ seq 0 (length fivePlayers)));
        vm_compute; exact I).
  destruct (assignRoles_deals_roles fivePlayers (perm calm) H1 H2
              ltac:(vm_compute; lia)) as (roles & Hdealt & Hcount & Hevil & _ & _).
  exists roles. split; [exact Hdealt|].
  split; [exact Hcount|]. split; apply Hevil.
  - exists 0, 3. split; [vm_compute; lia|]. split; reflexivity.
  - exists 1, 1. split; [vm_compute; lia|]. split; reflexivity.
Defined.

(** * Further properties of the snapshot form *)

(** X9.  A snapshot that goes through JSON, as the store writes and reads
    it, gives the state back: for every state whose four counters a float64
    holds exactly (at most 2^53 in size), [StateFromMap] of the decoded JSON
    of [ToMap s] is [s].  The bound is needed: a version of 2^53 + 1 comes
    back as 2^53. *)
Theorem snapshot_round_trip_through_json (s : GameState) :
  exactInts s →
  StateFromMap (jsonMap (ToMap s)) = s
  ∧ Version (StateFromMap (jsonMap (ToMap (setVersion (2 ^ 53 + 1) s))))
    = (2 ^ 53)%Z.
Proof.
  intros Hs. split; [by apply StateFromMap_json_ToMap|].
  rewrite StateFromMap_json_ToMap_fields. cbn [Version setVersion].
  vm_compute. reflexivity.
Qed.

Lemma snapshot_round_trip_through_json_witness :
  StateFromMap (jsonMap (ToMap sampleMissionVote)) = sampleMissionVote.
Proof.
  assert (exactInts sampleMissionVote) as Hs
    by (vm_compute; repeat split; discriminate).
  destruct (snapshot_round_trip_through_json sampleMissionVote Hs) as [H _].
  exact H.
Defined.

(** X10.  [StateFromMap] reads fourteen keys and nothing else: an entry
    under any other key, whatever it holds, changes nothing in the state that
    is read.  So the "team_sizes" that [start_game] writes into the first
    snapshot are never read again. *)
Theorem StateFromMap_ignores_other_keys
    (m : gmap string value) (k : string) (v : value) :
  k ∉ stateKeys →
  StateFromMap (<[ k := v ]> m) = StateFromMap m
  ∧ StateFromMap (delete k m) = StateFromMap m.
Proof.
  intros Hk.
  assert (∀ key, key ∈ stateKeys → k ≠ key) as Hne
    by (intros key Hkey ->; done).
  assert (∀ m' : gmap string value,
            (∀ key, key ∈ stateKeys → m' !! key = m !! key) →
            StateFromMap m' = StateFromMap m) as Hsame.
  { intros m' Hm'.
    assert (∀ key set st, key ∈ stateKeys →
              readString m' key set st = readString m key set st) as Hstr
      by (intros; unfold readString; by rewrite Hm').
    assert (∀ key set st, key ∈ stateKeys →
              readInt m' key set st = readInt m key set st) as Hint
      by (intros; unfold readInt; by rewrite Hm').
    assert (∀ key set st, key ∈ stateKeys →
              readSlice m' key set st = readSlice m key set st) as Hsl
      by (intros; unfold readSlice; by rewrite Hm').
    assert (∀ key set st, key ∈ stateKeys →
              readMap m' key set st = readMap m key set st) as Hmap
      by (intros; unfold readMap; by rewrite Hm').
    unfold StateFromMap. cbv zeta.
    rewrite !Hstr, !Hint, !Hsl, !Hmap
      by (apply (bool_decide_unpack _); vm_compute; exact I).
    done. }
  split; apply Hsame; intros key Hkey.
  - rewrite lookup_insert_ne; [done|by apply Hne].
  - rewrite lookup_delete_ne; [done|by apply Hne].
Qed.

Lemma StateFromMap_ignores_other_keys_witness :
  StateFromMap (<[ "team_sizes" := VInts [2; 3; 4; 3; 4]%Z ]> (ToMap sampleRound3))
  = StateFromMap (ToMap sampleRound3).
Proof.
  assert ("team_sizes" ∉ stateKeys) as Hk
    by (apply (bool_decide_unpack ("team_sizes" ∉ stateKeys)); vm_compute; exact I).
  destruct (StateFromMap_ignores_other_keys (ToMap sampleRound3) "team_sizes"
              (VInts [2; 3; 4; 3; 4]%Z) Hk) as [H _].
  exact H.
Defined.

(** * Further properties of the store and of [ApplyMove] *)

(** ** The store only grows *)

Lemma appends_nothing {A} (P : A → Prop) (rows : list A) :
  ∃ new, rows = rows ++ new ∧ length new ≤ 1 ∧ Forall P new.
Proof. exists []. rewrite app_nil_r. split; [done|]. split; [simpl; lia|constructor]. Qed.

Lemma appends_one {A} (P : A → Prop) (rows : list A) (row : A) :
  P row → ∃ new, rows ++ [row] = rows ++ new ∧ length new ≤ 1 ∧ Forall P new.
Proof. intros. exists [row]. split; [done|]. split; [simpl; lia|by constructor]. Qed.

Lemma CreateOrUpdateSnapshot_appends env d gameID m :
  let d' := snd (CreateOrUpdateSnapshot env d gameID m) in
  (∃ new, snapshots d' = snapshots d ++ new ∧ length new ≤ 1
          ∧ Forall (λ r, sGameID r = gameID) new)
  ∧ events d' = events d ∧ games d' = games d ∧ gamePlayers d' = gamePlayers d.
Proof.
  unfold CreateOrUpdateSnapshot, CreateGameStateSnapshot. cbv zeta.
  destruct (failSnapshotLatest env); [split; [apply appends_nothing|done]|].
  destruct (failSnapshotInsert env); [split; [apply appends_nothing|done]|].
  destruct (existsb _ (snapshots d)); [split; [apply appends_nothing|done]|].
  cbn. split; [|done]. by apply appends_one.
Qed.

Lemma CreateGameEvent_appends env d gameID actor type payload :
  let d' := snd (CreateGameEvent env d gameID actor type payload) in
  (∃ new, events d' = events d ++ new ∧ length new ≤ 1
          ∧ Forall (λ r, evGameID r = gameID) new)
  ∧ snapshots d' = snapshots d ∧ games d' = games d
  ∧ gamePlayers d' = gamePlayers d.
Proof.
  unfold CreateGameEvent. cbv zeta. destruct (failCreateGameEvent env); cbn;
    (split; [|done]).
  - apply appends_nothing.
  - by apply appends_one.
Qed.

Lemma sameGamesBut_refl gameID gs : sameGamesBut gameID gs gs.
Proof. induction gs; by constructor. Qed.

Lemma sameGamesBut_trans gameID gs1 gs2 gs3 :
  sameGamesBut gameID gs1 gs2 → sameGamesBut gameID gs2 gs3 →
  sameGamesBut gameID gs1 gs3.
Proof.
  unfold sameGamesBut. intros H12. revert gs3.
  induction H12 as [|g1 g2 gs1 gs2 (Hid & Hroom & Hsame) _ IH]; intros gs3 H23.
  - by inversion H23.
  - inversion H23 as [|? g3 ? gs3' (Hid' & Hroom' & Hsame') Hrest]; subst.
    constructor; [|by apply IH].
    split; [congruence|]. split; [congruence|].
    intros Hne. rewrite Hsame', Hsame; [done|done|congruence].
Qed.

Lemma UpdateGameStatus_games env d gameID status endedAt :
  let d' := snd (UpdateGameStatus env d gameID status endedAt) in
  sameGamesBut gameID (games d) (games d')
  ∧ snapshots d' = snapshots d ∧ events d' = events d
  ∧ gamePlayers d' = gamePlayers d.
Proof.
  unfold UpdateGameStatus. case_match; cbn.
  - split; [apply sameGamesBut_refl|done].
  - split; [|done]. unfold sameGamesBut.
    induction (games d) as [|g gs IH]; [constructor|].
    rewrite fmap_cons. constructor; [|exact IH].
    case_bool_decide; cbn; done.
Qed.

Lemma grows_refl gameID d : grows gameID d d.
Proof.
  unfold grows. split_and!; [apply appends_nothing..| |done].
  apply sameGamesBut_refl.
Qed.

Lemma bootstrapAndStart_grows e env w gameID actor :
  grows gameID (db w) (db (snd (bootstrapAndStart e env w gameID actor))).
Proof.
  unfold bootstrapAndStart.
  destruct (GetGamePlayerIDsInOrder env (db w) gameID) as [players|];
    [|apply grows_refl].
  case_match; [apply grows_refl|].
  destruct (assignRoles players (perm env)) as [roles|]; [|apply grows_refl].
  match goal with
  | |- context [CreateOrUpdateSnapshot env (db w) gameID ?m] =>
      pose proof (CreateOrUpdateSnapshot_appends env (db w) gameID m)
        as (Hs & He & Hg & Hp);
      destruct (CreateOrUpdateSnapshot env (db w) gameID m) as [r d]
  end.
  cbn [snd] in *.
  destruct r as [version|].
  2:{ cbn. unfold grows. rewrite He, Hg, Hp. split_and!; [done| | |done].
      - apply appends_nothing.
      - apply sameGamesBut_refl. }
  pose proof (UpdateGameStatus_games env d gameID "in_progress" None)
    as (Hg' & Hs' & He' & Hp').
  destruct (UpdateGameStatus env d gameID "in_progress" None) as [r' d'].
  cbn [snd] in *.
  assert (grows gameID (db w) d') as Hgrows.
  { unfold grows. rewrite Hs', He', Hp', He, Hp, <- Hg. split_and!; [done| |done|done].
    apply appends_nothing. }
  by destruct r'.
Qed.

Lemma persistMove_grows env w gameID actor moveType payload next evs :
  grows gameID (db w)
    (db (snd (persistMove env w gameID actor moveType payload next evs))).
Proof.
  unfold persistMove.
  set (w1 := match payload with Some l => _ | None => w end).
  assert (db w1 = db w) as Hw1 by (subst w1; by destruct payload).
  match goal with
  | |- context [CreateGameEvent env (db w1) gameID actor moveType ?p] =>
      pose proof (CreateGameEvent_appends env (db w1) gameID actor moveType p)
        as (He & Hs & Hg & Hp);
      destruct (CreateGameEvent env (db w1) gameID actor moveType p) as [rev d1]
  end.
  cbn [snd] in *. rewrite Hw1 in *.
  destruct rev as [row|].
  2:{ cbn. unfold grows. rewrite Hs, Hg, Hp. split_and!; [|done| |done].
      - apply appends_nothing.
      - apply sameGamesBut_refl. }
  pose proof (CreateOrUpdateSnapshot_appends env d1 gameID (ToMap next))
    as (Hs2 & He2 & Hg2 & Hp2).
  destruct (CreateOrUpdateSnapshot env d1 gameID (ToMap next)) as [r d2].
  cbn [snd] in *.
  assert (grows gameID (db w) d2) as Hd2.
  { unfold grows. rewrite He2, Hg2, Hp2, Hg, Hp, <- Hs. split_and!; [done|done| |done].
    apply sameGamesBut_refl. }
  destruct r as [version|]; [|done].
  cbn. case_bool_decide; [|done].
  pose proof (UpdateGameStatus_games env d2 gameID "finished" (Some (now env)))
    as (Hg3 & Hs3 & He3 & Hp3).
  destruct Hd2 as (? & ? & ? & ?).
  unfold grows. rewrite Hs3, He3, Hp3. split_and!; [done|done| |done].
  by eapply sameGamesBut_trans.
Qed.

(** X11.  One call of [ApplyMove], whatever it returns, only adds to the
    store: the snapshot rows and the event rows that were there stay as they
    were, in their order, followed by at most one new snapshot and at most
    one new event, both of the game the move is for; no game row is added or
    removed, only rows of that game are changed, and the players of every game
    stay. *)
Theorem ApplyMove_only_appends
    (e : Engine) (env : Env) (w : World) (gameID actor moveType : string)
    (payload : option loc) :
  let d := db w in
  let d' := db (snd (ApplyMove e env w gameID actor moveType payload)) in
  (∃ new, snapshots d' = snapshots d ++ new ∧ length new ≤ 1
          ∧ Forall (λ r, sGameID r = gameID) new)
  ∧ (∃ new, events d' = events d ++ new ∧ length new ≤ 1
            ∧ Forall (λ r, evGameID r = gameID) new)
  ∧ Forall2 (λ g g', gID g' = gID g ∧ gRoomID g' = gRoomID g
                     ∧ (gID g ≠ gameID → g' = g)) (games d) (games d')
  ∧ gamePlayers d' = gamePlayers d.
Proof.
  cbv zeta. change (grows gameID (db w)
                      (db (snd (ApplyMove e env w gameID actor moveType payload)))).
  unfold ApplyMove, startOnly.
  destruct (GetState env (db w) gameID) as [[state|]|];
    repeat case_match; try apply grows_refl;
    try apply bootstrapAndStart_grows; apply persistMove_grows.
Qed.

(** ** A new game *)

Lemma latestOf_singleton (r : SnapshotRow) : latestOf [r] = Some r.
Proof. done. Qed.

Lemma createGame_rows d gameID roomID players d' :
  createGame d gameID roomID players = Some d' →
  snapshots d' = snapshots d ++ [ {| sGameID := gameID; sVersion := 1;
                                     sStateJSON := LobbyStateJSON |} ]
  ∧ games d' = games d ++ [ {| gID := gameID; gRoomID := roomID;
                               gStatus := "waiting"; gEndedAt := None |} ]
  ∧ gamePlayers d' = <[ gameID := players ]> (gamePlayers d)
  ∧ events d' = events d.
Proof.
  unfold createGame, CreateGameStateSnapshot. cbn [sGameID sVersion].
  destruct (existsb _ (games d)); [done|].
  destruct (existsb _ (snapshots d)); [done|].
  by intros [= <-].
Qed.

Lemma StateFromMap_lobby : StateFromMap LobbyStateJSON = setPhase PhaseLobby emptyState.
Proof. vm_compute. reflexivity. Qed.

Lemma ApplyMove_lobby e env w gameID actor moveType payload :
  GetState env (db w) gameID = Ok (Some (setPhase PhaseLobby emptyState)) →
  ApplyMove e env w gameID actor moveType payload
  = startOnly e env w gameID actor moveType payload.
Proof. unfold ApplyMove. by intros ->. Qed.

Lemma createGame_latest_game
    (env : Env) (d d' : DB) (gameID roomID : string) (players : list string) :
  createGame d gameID roomID players = Some d' →
  GetLatestGameForRoom env d' roomID
  = (if failGetLatestGame env then Err ErrStore
     else Ok (Some {| gID := gameID; gRoomID := roomID; gStatus := "waiting";
                      gEndedAt := None |})).
Proof.
  intros Hc. apply createGame_rows in Hc as (Hs & Hg & Hp & _).
  unfold GetLatestGameForRoom. destruct (failGetLatestGame env); [done|].
  rewrite Hg, filter_app, filter_cons, filter_nil. cbn [gRoomID].
  rewrite decide_True by done. by rewrite last_snoc.
Qed.

Lemma createGame_players
    (env : Env) (d d' : DB) (gameID roomID : string) (players : list string) :
  createGame d gameID roomID players = Some d' →
  GetGamePlayerIDsInOrder env d' gameID
  = (if failGetPlayers env then Err ErrStore else Ok players).
Proof.
  intros Hc. apply createGame_rows in Hc as (Hs & Hg & Hp & _).
  unfold GetGamePlayerIDsInOrder. destruct (failGetPlayers env); [done|].
  by rewrite Hp, lookup_insert_eq.
Qed.

Lemma createGame_state
    (env : Env) (d d' : DB) (gameID roomID : string) (players : list string) :
  snapshotsOf d gameID = [] →
  createGame d gameID roomID players = Some d' →
  GetState env d' gameID
  = (if failGetLatestSnapshot env then Err ErrStore
     else Ok (Some (setPhase PhaseLobby emptyState))).
Proof.
  intros Hfresh Hc. apply createGame_rows in Hc as (Hs & Hg & Hp & _).
  unfold GetState, GetLatestSnapshot.
  destruct (failGetLatestSnapshot env); [done|].
  unfold GetLatestGameStateSnapshotByGameId.
  assert (snapshotsOf d' gameID = [ {| sGameID := gameID; sVersion := 1;
                                       sStateJSON := LobbyStateJSON |} ]) as ->.
  { unfold snapshotsOf in *. rewrite Hs, filter_app, Hfresh.
    rewrite filter_cons, filter_nil. cbn [sGameID]. by rewrite decide_True. }
  rewrite latestOf_singleton. cbn [sStateJSON]. by rewrite StateFromMap_lobby.
Qed.

(** X12.  What [CreateGame] writes is what the engine and the socket read
    back: for a game id without snapshots so far, the latest game of the room
    is the new game, in status "waiting"; its players are the room's players
    in their order; and its state is the lobby state, with no players in
    it. *)
Theorem new_game_is_in_lobby
    (env : Env) (d d' : DB) (gameID roomID : string) (players : list string) :
  snapshotsOf d gameID = [] →
  createGame d gameID roomID players = Some d' →
  GetLatestGameForRoom env d' roomID
  = (if failGetLatestGame env then Err ErrStore
     else Ok (Some {| gID := gameID; gRoomID := roomID; gStatus := "waiting";
                      gEndedAt := None |}))
  ∧ GetGamePlayerIDsInOrder env d' gameID
    = (if failGetPlayers env then Err ErrStore else Ok players)
  ∧ GetState env d' gameID
    = (if failGetLatestSnapshot env then Err ErrStore
       else Ok (Some (setPhase PhaseLobby emptyState))).
Proof.
  intros Hfresh Hc. split; [|split].
  - by eapply createGame_latest_game.
  - by eapply createGame_players.
  - by eapply createGame_state.
Qed.

Lemma new_game_is_in_lobby_witness :
  GetLatestGameForRoom calm (db lobbyWorld) "r1"
  = Ok (Some {| gID := "g1"; gRoomID := "r1"; gStatus := "waiting";
                gEndedAt := None |})
  ∧ GetGamePlayerIDsInOrder calm (db lobbyWorld) "g1" = Ok fivePlayers
  ∧ GetState calm (db lobbyWorld) "g1" = Ok (Some (setPhase PhaseLobby emptyState)).
Proof.
  apply (new_game_is_in_lobby calm emptyDB (db lobbyWorld) "g1" "r1" fivePlayers).
  - reflexivity.
  - vm_compute. reflexivity.
Defined.

(** X13.  In the lobby the engine lets one move through: for a game that has
    just been created, every vote is refused with "game not started", and
    every action whose "action" entry is not "start_game" with "only
    start_game allowed in lobby"; neither writes anything.  (The "type"
    entry, which [applyAction] accepts in the place of "action", is not
    looked at here.) *)
Theorem lobby_accepts_only_start_game
    (e : Engine) (env : Env) (w : World) (d' : DB)
    (gameID roomID actor moveType : string) (players : list string)
    (payload : option loc) :
  snapshotsOf (db w) gameID = [] →
  createGame (db w) gameID roomID players = Some d' →
  failGetLatestSnapshot env = false →
  ¬ (moveType = "action"
     ∧ asString (deref w payload !! "action") = ActionStartGame) →
  ApplyMove e env (withDB d' w) gameID actor moveType payload
  = (Err (if bool_decide (moveType = "action") then ErrOnlyStartGame
          else ErrGameNotStarted), withDB d' w).
Proof.
  intros Hfresh Hc Henv Hnot.
  pose proof (createGame_state env _ _ _ _ _ Hfresh Hc) as Hstate.
  rewrite Henv in Hstate.
  rewrite ApplyMove_lobby by done.
  unfold startOnly. case_bool_decide as Hmt; cbn [negb]; [|done].
  assert (deref (withDB d' w) payload = deref w payload) as -> by done.
  rewrite bool_decide_eq_false_2 by (intros Ha; by apply Hnot). done.
Qed.

Lemma lobby_accepts_only_start_game_witness :
  ApplyMove classicEngine calm lobbyWorld "g1" "p1" "vote" None
  = (Err ErrGameNotStarted, lobbyWorld).
Proof.
  apply (lobby_accepts_only_start_game classicEngine calm
           {| heap := ∅; db := emptyDB |} (db lobbyWorld) "g1" "r1" "p1" "vote"
           fivePlayers None).
  - reflexivity.
  - vm_compute. reflexivity.
  - reflexivity.
  - intros [Hmt _]. discriminate Hmt.
Defined.

(** X14.  [start_game] counts the players of the game, not the caller: for a
    game that has just been created, the move is refused with "player count
    ... not in range" when the game has fewer players than [MinPlayers] or
    more than [MaxPlayers] (5 and 10 in the classic preset), and nothing is
    written; who sends the move plays no part. *)
Theorem start_game_checks_player_count
    (e : Engine) (env : Env) (w : World) (d' : DB)
    (gameID roomID actor : string) (players : list string) (payload : option loc) :
  snapshotsOf (db w) gameID = [] →
  createGame (db w) gameID roomID players = Some d' →
  failGetLatestSnapshot env = false → failGetPlayers env = false →
  asString (deref w payload !! "action") = ActionStartGame →
  (len players < MinPlayers (config e) ∨ MaxPlayers (config e) < len players)%Z →
  ApplyMove e env (withDB d' w) gameID actor "action" payload
  = (Err (ErrPlayerCount (len players) (MinPlayers (config e))
            (MaxPlayers (config e))), withDB d' w).
Proof.
  intros Hfresh Hc Hsnap Hplayers Hstart Hcount.
  pose proof (createGame_players env _ _ _ _ _ Hc) as Hp.
  pose proof (createGame_state env _ _ _ _ _ Hfresh Hc) as Hstate.
  rewrite Hsnap in Hstate. rewrite Hplayers in Hp.
  rewrite ApplyMove_lobby by done.
  unfold startOnly. rewrite (bool_decide_eq_true_2 ("action" = "action")) by done.
  cbn [negb].
  assert (deref (withDB d' w) payload = deref w payload) as -> by done.
  rewrite Hstart. rewrite bool_decide_eq_true_2 by done. cbn [negb].
  unfold bootstrapAndStart. cbn [db withDB]. rewrite Hp.
  destruct ((len players <? MinPlayers (config e))
            || (MaxPlayers (config e) <? len players))%Z eqn:E; [done|].
  apply orb_false_iff in E as [E1 E2]. lia.
Qed.

Lemma start_game_checks_player_count_witness :
  let w := {| heap := {[ 0 := mPayload (startGame "q1") ]}; db := emptyDB |} in
  ∃ d', createGame (db w) "g2" "r2" ["q1"; "q2"; "q3"; "q4"] = Some d'
        ∧ ApplyMove classicEngine calm (withDB d' w) "g2" "nobody" "action" (Some 0)
          = (Err (ErrPlayerCount (len ["q1"; "q2"; "q3"; "q4"])
                    (MinPlayers (config classicEngine))
                    (MaxPlayers (config classicEngine))), withDB d' w).
Proof.
  intros w.
  destruct (createGame (db w) "g2" "r2" ["q1"; "q2"; "q3"; "q4"]) as [d'|] eqn:Hc;
    [|by vm_compute in Hc].
  exists d'. split; [done|].
  apply (start_game_checks_player_count classicEngine calm w d'
           "g2" "r2" "nobody" ["q1"; "q2"; "q3"; "q4"] (Some 0)).
  - reflexivity.
  - exact Hc.
  - reflexivity.
  - reflexivity.
  - vm_compute. reflexivity.
  - left. vm_compute. reflexivity.
Defined.

(** ** Reading back what was written *)

Lemma CreateOrUpdateSnapshot_latest env d gameID m v d' :
  consecutiveFromOne (versionsOf d gameID) →
  (len (versionsOf d gameID) < max_int32)%Z →
  CreateOrUpdateSnapshot env d gameID m = (Ok v, d') →
  v = (len (versionsOf d gameID) + 1)%Z
  ∧ GetLatestGameStateSnapshotByGameId d' gameID
    = Some {| sGameID := gameID; sVersion := v; sStateJSON := jsonMap m |}.
Proof.
  intros Hcons Hlen Hc.
  apply CreateOrUpdateSnapshot_next in Hc as [-> ->]; [|done..].
  split; [done|].
  unfold GetLatestGameStateSnapshotByGameId.
  rewrite snapshotsOf_snoc. cbn [sGameID]. rewrite decide_True by done.
  rewrite latestOf_snoc.
  pose proof (latestOf_consecutive _ Hcons) as Hlatest.
  destruct (latestOf (snapshotsOf d gameID)) as [b|]; [|done].
  simpl in Hlatest. destruct (decide (snapshotsOf d gameID = [])); [done|].
  injection Hlatest as Hb. cbn [sVersion].
  unfold versionsOf, len in *. rewrite length_fmap in *.
  destruct (sVersion b <? _)%Z eqn:E; [done|]. lia.
Qed.

Lemma GetLatest_snapshots d d' gameID :
  snapshots d' = snapshots d →
  GetLatestGameStateSnapshotByGameId d' gameID
  = GetLatestGameStateSnapshotByGameId d gameID.
Proof. unfold GetLatestGameStateSnapshotByGameId, snapshotsOf. by intros ->. Qed.

(** X15.  A snapshot that [CreateOrUpdateSnapshot] has written is the one
    [GetLatestSnapshot] returns next: in a run, for a game that has not used
    up the int32 versions, the version returned is the number of snapshots
    the game then has, and the map read back is the JSON image of the map
    written (numbers as float64, typed slices and maps as generic ones). *)
Theorem snapshot_written_is_read_back
    (env env' : Env) (w : World) (gameID : string) (m : gmap string value)
    (v : Z) (d' : DB) :
  reachable w →
  (len (versionsOf (db w) gameID) < max_int32)%Z →
  CreateOrUpdateSnapshot env (db w) gameID m = (Ok v, d') →
  v = len (versionsOf d' gameID)
  ∧ GetLatestSnapshot env' d' gameID
    = (if failGetLatestSnapshot env' then Err ErrStore else Ok (Some (jsonMap m))).
Proof.
  intros Hw Hlen Hc.
  pose proof (reachable_versioned w Hw) as Hv.
  assert (consecutiveFromOne (versionsOf (db w) gameID)) as Hcons
    by (apply Hv; lia).
  pose proof (CreateOrUpdateSnapshot_latest _ _ _ _ _ _ Hcons Hlen Hc) as [-> Hlatest].
  split.
  - apply CreateOrUpdateSnapshot_next in Hc as [_ ->]; [|done..].
    unfold versionsOf at 2. rewrite snapshotsOf_snoc. cbn [sGameID].
    rewrite decide_True by done. unfold len, versionsOf.
    rewrite fmap_app, length_app, !length_fmap. simpl length. lia.
  - unfold GetLatestSnapshot. rewrite Hlatest. done.
Qed.

Lemma snapshot_written_is_read_back_witness :
  ∃ d', CreateOrUpdateSnapshot calm (db lobbyWorld) "g1"
          {[ "round_index" := VInt 7 ]} = (Ok 2%Z, d')
        ∧ GetLatestSnapshot calm d' "g1" = Ok (Some {[ "round_index" := VFloat 7 ]}).
Proof.
  destruct (CreateOrUpdateSnapshot calm (db lobbyWorld) "g1"
              {[ "round_index" := VInt 7 ]}) as [r d'] eqn:Hc.
  assert (r = Ok 2%Z) as -> by (by vm_compute in Hc; injection Hc as <- _).
  exists d'. split; [done|].
  destruct (snapshot_written_is_read_back calm calm lobbyWorld "g1" _ _ _
              reachable_lobbyWorld ltac:(vm_compute; reflexivity) Hc) as [_ Hread].
  rewrite Hread. vm_compute. reflexivity.
Defined.

(** Every field but the version is read back whatever the version field
    holds. *)
Lemma StateFromMap_json_ToMap_but_version (s : GameState) (v : Z) :
  exactInt (RoundIndex s) → exactInt (LeaderIndex s) → exactInt (RejectCount s) →
  setVersion v (StateFromMap (jsonMap (ToMap s))) = setVersion v s.
Proof.
  intros Hri Hli Hrc.
  rewrite StateFromMap_json_ToMap_fields.
  rewrite (intOfFloat_float64OfInt (RoundIndex s)) by done.
  rewrite (intOfFloat_float64OfInt (LeaderIndex s)) by done.
  rewrite (intOfFloat_float64OfInt (RejectCount s)) by done.
  destruct s; cbn -[Z.ltb intOfFloat float64OfInt]; decide_optional; subst; reflexivity.
Qed.

Lemma bootstrapAndStart_Ok e env w gameID actor next evs w' :
  bootstrapAndStart e env w gameID actor = (Ok (next, evs), w') →
  ∃ next0 sizes version d1,
    CreateOrUpdateSnapshot env (db w) gameID
      (<[ "team_sizes" := VInts sizes ]> (ToMap next0)) = (Ok version, d1)
    ∧ snapshots (db w') = snapshots d1
    ∧ next = setVersion version next0
    ∧ RoundIndex next0 = 1%Z ∧ LeaderIndex next0 = 0%Z ∧ RejectCount next0 = 0%Z.
Proof.
  unfold bootstrapAndStart.
  destruct (GetGamePlayerIDsInOrder env (db w) gameID) as [players|]; [|done].
  case_match; [done|].
  destruct (assignRoles players (perm env)) as [roles|]; [|done].
  match goal with
  | |- context [CreateOrUpdateSnapshot env (db w) gameID ?m] =>
      destruct (CreateOrUpdateSnapshot env (db w) gameID m) as [r d1] eqn:Hsnap
  end.
  destruct r as [version|]; [|done].
  pose proof (UpdateGameStatus_snapshots env d1 gameID "in_progress" None) as [Hs _].
  destruct (UpdateGameStatus env d1 gameID "in_progress" None) as [[|] d2]; [|done].
  intros [= <- <- <-]. cbn [snd] in Hs.
  eexists _, _, version, d1. split; [exact Hsnap|]. by split_and!.
Qed.

Lemma persistMove_Ok env w gameID actor moveType payload next0 evs0 next evs w' :
  persistMove env w gameID actor moveType payload next0 evs0 = (Ok (next, evs), w') →
  ∃ version d0 d1,
    snapshots d0 = snapshots (db w)
    ∧ CreateOrUpdateSnapshot env d0 gameID (ToMap next0) = (Ok version, d1)
    ∧ snapshots (db w') = snapshots d1
    ∧ next = setVersion version next0.
Proof.
  unfold persistMove.
  set (w1 := match payload with Some l => _ | None => w end).
  assert (db w1 = db w) as Hw1 by (subst w1; by destruct payload).
  match goal with
  | |- context [CreateGameEvent env (db w1) gameID actor moveType ?p] =>
      pose proof (CreateGameEvent_snapshots env (db w1) gameID actor moveType p) as Hev;
      destruct (CreateGameEvent env (db w1) gameID actor moveType p) as [rev d0]
  end.
  cbn [snd] in Hev. rewrite Hw1 in Hev.
  destruct rev as [row|]; [|done].
  destruct (CreateOrUpdateSnapshot env d0 gameID (ToMap next0)) as [r d1] eqn:Hsnap.
  destruct r as [version|]; [|done].
  intros [= <- <- <-]. exists version, d0, d1.
  split; [done|]. split; [done|]. split; [|done].
  cbn [db withDB]. case_bool_decide; [|done].
  by destruct (UpdateGameStatus_snapshots env d1 gameID "finished" (Some (now env)))
    as [-> _].
Qed.

Lemma versionsOf_snapshots d d' gameID :
  snapshots d' = snapshots d → versionsOf d' gameID = versionsOf d gameID.
Proof. unfold versionsOf, snapshotsOf. by intros ->. Qed.

(** *** The version field of the stored states *)

Lemma Version_json (s : GameState) :
  Version s = 0%Z → Version (StateFromMap (jsonMap (ToMap s))) = 0%Z.
Proof.
  intros H. rewrite StateFromMap_json_ToMap_fields. cbn [Version setVersion].
  by rewrite H.
Qed.

Lemma validateMove_version e s a mt p next evs :
  validateMove e s a mt p = Ok (next, evs) → Version next = Version s.
Proof.
  unfold validateMove, applyVote, applyAction, applyTeamVote, applyMissionVote,
    proposeTeam.
  rewrite !Clone_eq.
  repeat case_match; intros; simplify_eq; done.
Qed.

Lemma CreateOrUpdateSnapshot_versionUnset env d gameID m r d' :
  versionUnset d →
  Version (StateFromMap (jsonMap m)) = 0%Z →
  CreateOrUpdateSnapshot env d gameID m = (r, d') →
  versionUnset d'.
Proof.
  intros Hd Hm. unfold CreateOrUpdateSnapshot, CreateGameStateSnapshot.
  repeat case_match; intros; simplify_eq; try done;
    (unfold versionUnset; cbn; apply Forall_app; split; [done|];
     by apply Forall_singleton).
Qed.

Lemma bootstrapAndStart_versionUnset e env w gameID actor :
  versionUnset (db w) →
  versionUnset (db (snd (bootstrapAndStart e env w gameID actor))).
Proof.
  intros Hw. unfold bootstrapAndStart.
  destruct (GetGamePlayerIDsInOrder env (db w) gameID) as [players|]; [|done].
  case_match; [done|].
  destruct (assignRoles players (perm env)) as [roles|]; [|done].
  match goal with
  | |- context [CreateOrUpdateSnapshot env (db w) gameID ?m] =>
      destruct (CreateOrUpdateSnapshot env (db w) gameID m) as [r d] eqn:Hsnap
  end.
  assert (versionUnset d) as Hd.
  { eapply CreateOrUpdateSnapshot_versionUnset; [exact Hw| |exact Hsnap].
    rewrite jsonMap_insert, StateFromMap_team_sizes. by apply Version_json. }
  destruct r as [version|]; [|done].
  pose proof (UpdateGameStatus_snapshots env d gameID "in_progress" None) as [Hu _].
  destruct (UpdateGameStatus env d gameID "in_progress" None) as [[|] d''];
    cbn [snd] in Hu; cbn; unfold versionUnset; by rewrite Hu.
Qed.

Lemma persistMove_versionUnset env w gameID actor moveType payload next evs :
  versionUnset (db w) → Version next = 0%Z →
  versionUnset (db (snd (persistMove env w gameID actor moveType payload next evs))).
Proof.
  intros Hw Hnext. unfold persistMove.
  set (w1 := match payload with Some l => _ | None => w end).
  assert (db w1 = db w) as Hw1 by (subst w1; by destruct payload).
  match goal with
  | |- context [CreateGameEvent env (db w1) gameID actor moveType ?p] =>
      pose proof (CreateGameEvent_snapshots env (db w1) gameID actor moveType p) as Hev;
      destruct (CreateGameEvent env (db w1) gameID actor moveType p) as [rev d1]
  end.
  cbn in Hev.
  assert (versionUnset d1) as Hd1 by (unfold versionUnset; rewrite Hev, Hw1; exact Hw).
  destruct rev as [row|]; [|done].
  destruct (CreateOrUpdateSnapshot env d1 gameID (ToMap next)) as [r d2] eqn:Hsnap.
  assert (versionUnset d2) as Hd2.
  { eapply CreateOrUpdateSnapshot_versionUnset; [exact Hd1| |exact Hsnap].
    by apply Version_json. }
  destruct r as [version|]; [|done].
  cbn. case_bool_decide; [|done].
  unfold versionUnset.
  by destruct (UpdateGameStatus_snapshots env d2 gameID "finished" (Some (now env)))
    as [-> _].
Qed.

Lemma GetState_versionUnset env d gameID state :
  versionUnset d → GetState env d gameID = Ok (Some state) → Version state = 0%Z.
Proof.
  intros Hd. unfold GetState, GetLatestSnapshot.
  destruct (failGetLatestSnapshot env); [done|].
  destruct (GetLatestGameStateSnapshotByGameId d gameID) as [row|] eqn:Hrow; [|done].
  intros [= <-]. unfold versionUnset in Hd. rewrite Forall_forall in Hd.
  apply (Hd row). by apply latest_snapshot_elem in Hrow as [? _].
Qed.

Lemma ApplyMove_versionUnset e env w gameID actor moveType payload :
  versionUnset (db w) →
  versionUnset (db (snd (ApplyMove e env w gameID actor moveType payload))).
Proof.
  intros Hw. unfold ApplyMove, startOnly.
  destruct (GetState env (db w) gameID) as [[state|]|] eqn:Hstate; [| |done].
  - pose proof (GetState_versionUnset _ _ _ _ Hw Hstate) as Hv.
    repeat case_match; try done; try by apply bootstrapAndStart_versionUnset.
    simplify_eq. apply persistMove_versionUnset; [done|].
    rewrite <- Hv. by eapply validateMove_version.
  - repeat case_match; try done; by apply bootstrapAndStart_versionUnset.
Qed.

Lemma createGame_versionUnset d gameID roomID players d' :
  versionUnset d → createGame d gameID roomID players = Some d' → versionUnset d'.
Proof.
  unfold createGame, CreateGameStateSnapshot.
  intros Hd. repeat case_match; intros; simplify_eq.
  unfold versionUnset. cbn. apply Forall_app. split; [done|].
  apply Forall_singleton. cbn [sStateJSON]. by rewrite StateFromMap_lobby.
Qed.

(** In a run the version field of every stored state is 0, whatever the
    version of its row. *)
Lemma reachable_versionUnset (w : World) : reachable w → versionUnset (db w).
Proof.
  induction 1 as [|w gameID roomID players d _ IH Hc|w h _ IH
                  |w env g a t p _ IH|w e env g a mt p _ IH].
  - by apply Forall_nil.
  - by eapply createGame_versionUnset.
  - done.
  - unfold versionUnset. cbn [db withDB]. by rewrite CreateGameEvent_snapshots.
  - by apply ApplyMove_versionUnset.
Qed.

(** X16.  What [ApplyMove] returns is what the next [GetState] reads: in a
    run, after a call that succeeded (for a game that has not used up the
    int32 versions, with counters that a float64 holds exactly), the state
    loaded from the store is the returned state in every field but the
    version; the version of the returned state is the number of snapshots the
    game now has, while the stored state keeps the version field the state
    had before the move, which in a run is 0. *)
Theorem ApplyMove_state_is_read_back
    (e : Engine) (env env' : Env) (w w' : World)
    (gameID actor moveType : string) (payload : option loc)
    (next : GameState) (evs : list BroadcastEvent) :
  reachable w →
  (len (versionsOf (db w) gameID) < max_int32)%Z →
  ApplyMove e env w gameID actor moveType payload = (Ok (next, evs), w') →
  exactInt (RoundIndex next) → exactInt (LeaderIndex next) →
  exactInt (RejectCount next) →
  failGetLatestSnapshot env' = false →
  Version next = len (versionsOf (db w') gameID)
  ∧ ∃ stored, GetState env' (db w') gameID = Ok (Some stored)
              ∧ setVersion (Version next) stored = next
              ∧ Version stored = 0%Z
              ∧ ∀ prev, GetState env (db w) gameID = Ok (Some prev) →
                        Version stored = Version prev.
Proof.
  intros Hw Hlen Happly Hri Hli Hrc Henv'.
  assert (reachable w') as Hw'r.
  { replace w' with (snd (ApplyMove e env w gameID actor moveType payload))
      by (by rewrite Happly).
    by apply reach_move. }
  pose proof (reachable_versionUnset w Hw) as Hzero.
  pose proof (reachable_versionUnset w' Hw'r) as Hzero'.
  pose proof (reachable_versioned w Hw) as Hv.
  assert (consecutiveFromOne (versionsOf (db w) gameID)) as Hcons
    by (apply Hv; lia).
  assert (∃ next0 m version d0 d1,
            snapshots d0 = snapshots (db w)
            ∧ CreateOrUpdateSnapshot env d0 gameID m = (Ok version, d1)
            ∧ snapshots (db w') = snapshots d1
            ∧ next = setVersion version next0
            ∧ StateFromMap (jsonMap m) = StateFromMap (jsonMap (ToMap next0)))
    as (next0 & m & version & d0 & d1 & Hd0 & Hsnap & Hw' & -> & Hm).
  { revert Happly. unfold ApplyMove, startOnly.
    destruct (GetState env (db w) gameID) as [[state|]|]; [| |done].
    - repeat case_match; try done.
      + intros (next0 & sizes & version & d1 & Ha & Hb & Hc & _)%bootstrapAndStart_Ok.
        eexists next0, _, version, (db w), d1. split_and!; [done|exact Ha|done|done|].
        by rewrite jsonMap_insert, StateFromMap_team_sizes.
      + simplify_eq.
        intros (version & d0 & d1 & Ha & Hb & Hc & Hd)%persistMove_Ok.
        by eexists _, _, version, d0, d1.
    - repeat case_match; try done.
      intros (next0 & sizes & version & d1 & Ha & Hb & Hc & _)%bootstrapAndStart_Ok.
      eexists next0, _, version, (db w), d1. split_and!; [done|exact Ha|done|done|].
      by rewrite jsonMap_insert, StateFromMap_team_sizes. }
  cbn [Version RoundIndex LeaderIndex RejectCount setVersion] in *.
  rewrite <- (versionsOf_snapshots _ _ gameID Hd0) in Hcons, Hlen.
  pose proof (CreateOrUpdateSnapshot_latest _ _ _ _ _ _ Hcons Hlen Hsnap)
    as [Hversion Hlatest].
  split.
  - rewrite (versionsOf_snapshots _ _ gameID Hw').
    apply CreateOrUpdateSnapshot_next in Hsnap as [_ ->]; [|done..].
    rewrite Hversion. unfold versionsOf at 2. rewrite snapshotsOf_snoc.
    cbn [sGameID]. rewrite decide_True by done. unfold len, versionsOf.
    rewrite fmap_app, length_app, !length_fmap. simpl length. lia.
  - assert (GetState env' (db w') gameID = Ok (Some (StateFromMap (jsonMap m))))
      as Hread.
    { unfold GetState, GetLatestSnapshot. rewrite Henv'.
      by rewrite (GetLatest_snapshots _ _ gameID Hw'), Hlatest. }
    pose proof (GetState_versionUnset _ _ _ _ Hzero' Hread) as Hstored.
    eexists. split; [exact Hread|]. split; [|split; [exact Hstored|]].
    + rewrite Hm. rewrite StateFromMap_json_ToMap_but_version by done.
      by destruct next0.
    + intros prev Hprev. rewrite Hstored. symmetry.
      exact (GetState_versionUnset _ _ _ _ Hzero Hprev).
Qed.

Lemma ApplyMove_state_is_read_back_witness :
  let w := withHeap {[ 0 := mPayload (startGame "p1") ]} lobbyWorld in
  let r := ApplyMove classicEngine calm w "g1" "p1" "action" (Some 0) in
  ∃ next evs,
    fst r = Ok (next, evs) ∧ Version next = 2%Z
    ∧ ∃ stored, GetState calm (db (snd r)) "g1" = Ok (Some stored)
                ∧ setVersion (Version next) stored = next
                ∧ Version stored = 0%Z.
Proof.
  intros w r.
  set (next := setVersion 2
                 (setRoles (<[ "p1" := "good" ]> (<[ "p2" := "evil" ]>
                             (<[ "p3" := "good" ]> (<[ "p4" := "evil" ]>
                              {[ "p5" := "good" ]}))))
                    (setRoundIndex 1 (setStatus "in_progress"
                       (setPhase PhaseTeamSelection
                          (setPlayerIDs fivePlayers (setGameID "g1" emptyState))))))).
  set (evs := [ {| Event := "game_started";
                   Payload := <[ "phase" := VString PhaseTeamSelection ]>
                             (<[ "round_index" := VInt 1 ]>
                              {[ "leader_id" := VString "p1" ]}) |} ]).
  assert (fst r = Ok (next, evs)) as Hfst by (vm_compute; reflexivity).
  assert (r = (Ok (next, evs), snd r)) as Hr
    by (rewrite <- Hfst; apply surjective_pairing).
  assert (reachable w) as Hw by apply reach_alloc, reachable_lobbyWorld.
  assert (len (versionsOf (db w) "g1") < max_int32)%Z as Hlen
    by (vm_compute; reflexivity).
  assert (exactInt (RoundIndex next)) as Hri by (vm_compute; split; discriminate).
  assert (exactInt (LeaderIndex next)) as Hli by (vm_compute; split; discriminate).
  assert (exactInt (RejectCount next)) as Hrc by (vm_compute; split; discriminate).
  destruct (ApplyMove_state_is_read_back classicEngine calm calm w (snd r)
              "g1" "p1" "action" (Some 0) next evs Hw Hlen Hr Hri Hli Hrc eq_refl)
    as [_ (stored & Hread & Hsame & Hzero & _)].
  exists next, evs. split; [exact Hfst|]. split; [reflexivity|].
  exists stored. split; [exact Hread|]. split; [exact Hsame|exact Hzero].
Defined.

(** ** Starting a game *)

Lemma existsb_filter_nil {A} (P : A → Prop) `{∀ x, Decision (P x)}
    (q : A → bool) (l : list A) :
  filter P l = [] → existsb (λ x, bool_decide (P x) && q x) l = false.
Proof.
  induction l as [|x l IH]; [done|].
  rewrite filter_cons. case_decide as Hx; [done|]. intros Hl. simpl.
  rewrite bool_decide_eq_false_2 by done. by apply IH.
Qed.

(** X17.  [start_game] on a game that has just been created, with a store
    that answers, a number of players the configuration allows and a
    permutation of the players drawn for the roles.  With two players or
    more: the returned state is round 1 of "team_selection", "in_progress",
    led by the first player, with the players of the game in their order,
    the roles dealt from the permutation, and version 2; the event is
    [game_started]; the game row goes from "waiting" to "in_progress"; one
    snapshot is added and, unlike for the later moves, no event row.  With
    fewer than two players (a configuration that lets so few start) the
    call panics while the roles are dealt, and nothing is written. *)
Theorem start_game_opens_round_one
    (e : Engine) (env : Env) (w : World) (d' : DB)
    (gameID roomID actor : string) (players : list string) (payload : option loc) :
  snapshotsOf (db w) gameID = [] →
  createGame (db w) gameID roomID players = Some d' →
  failGetLatestSnapshot env = false → failGetPlayers env = false →
  failSnapshotLatest env = false → failSnapshotInsert env = false →
  failUpdateGameStatus env = false → failGetLatestGame env = false →
  asString (deref w payload !! "action") = ActionStartGame →
  (MinPlayers (config e) <= len players <= MaxPlayers (config e))%Z →
  perm env ≡ₚ seq 0 (length players) →
  let r := ApplyMove e env (withDB d' w) gameID actor "action" payload in
  (length players < 2 → r = (Err PanicIndexOutOfRange, withDB d' w))
  ∧ (2 ≤ length players →
     ∃ roles first,
       assignRoles players (perm env) = Some roles
       ∧ players !! 0 = Some first
       ∧ fst r
         = Ok ({| GameID := gameID; Phase := "team_selection";
                  Status := "in_progress"; RoundIndex := 1; LeaderIndex := 0;
                  PlayerIDs := players; Roles := roles; ProposedTeam := [];
                  TeamVotes := ∅; MissionVotes := ∅; MissionResults := [];
                  RejectCount := 0; Winner := ""; Version := 2 |},
               [ {| Event := "game_started";
                    Payload := <[ "phase" := VString "team_selection" ]>
                              (<[ "round_index" := VInt 1 ]>
                               {[ "leader_id" := VString first ]}) |} ])
       ∧ versionsOf (db (snd r)) gameID = [1; 2]%Z
       ∧ events (db (snd r)) = events (db w)
       ∧ GetLatestGameForRoom env (db (snd r)) roomID
         = Ok (Some {| gID := gameID; gRoomID := roomID; gStatus := "in_progress";
                       gEndedAt := None |})).
Proof.
  intros Hfresh Hc Hsnap Hplayers Hlatest Hinsert Hstatus Hgame Hstart Hcount
    Hperm r.
  pose proof (createGame_players env _ _ _ _ _ Hc) as Hp.
  pose proof (createGame_state env _ _ _ _ _ Hfresh Hc) as Hstate.
  rewrite Hsnap in Hstate. rewrite Hplayers in Hp.
  pose proof (createGame_rows _ _ _ _ _ Hc) as (Hs & Hg & _ & He).
  assert (snapshotsOf d' gameID = [ {| sGameID := gameID; sVersion := 1;
                                       sStateJSON := LobbyStateJSON |} ]) as Hrows.
  { unfold snapshotsOf in *. rewrite Hs, filter_app, Hfresh.
    rewrite filter_cons, filter_nil. cbn [sGameID]. by rewrite decide_True. }
  subst r. rewrite ApplyMove_lobby by done.
  unfold startOnly. rewrite (bool_decide_eq_true_2 ("action" = "action")) by done.
  cbn [negb].
  assert (deref (withDB d' w) payload = deref w payload) as -> by done.
  rewrite Hstart. rewrite bool_decide_eq_true_2 by done. cbn [negb].
  unfold bootstrapAndStart. cbn [db withDB]. rewrite Hp.
  destruct ((len players <? MinPlayers (config e))
            || (MaxPlayers (config e) <? len players))%Z eqn:E.
  { apply orb_true_iff in E as [E|E]; lia. }
  split.
  { intros Hfew. by rewrite assignRoles_panics. }
  intros Hn.
  destruct (assignRoles_Some players (perm env) Hperm Hn) as [roles Hroles].
  destruct players as [|first rest] eqn:Hpl; [simpl in Hn; lia|]. rewrite <- Hpl in *.
  exists roles, first. split; [done|]. split; [by rewrite Hpl|].
  rewrite Hroles.
  unfold CreateOrUpdateSnapshot. rewrite Hlatest, Hinsert.
  unfold GetLatestGameStateSnapshotByGameId. rewrite Hrows, latestOf_singleton.
  cbn [sVersion]. change (wrap_int32 (1 + 1)) with 2%Z.
  unfold CreateGameStateSnapshot. cbn [sGameID sVersion].
  assert (existsb (λ r, bool_decide (sGameID r = gameID) && (sVersion r =? 2)%Z)
            (snapshots d') = false) as ->.
  { rewrite Hs, existsb_app. rewrite (existsb_filter_nil _ _ _ Hfresh). simpl.
    by rewrite bool_decide_eq_true_2. }
  unfold UpdateGameStatus. rewrite Hstatus.
  cbn [fst snd db withDB withSnapshots withGames games snapshots events setVersion
       Phase RoundIndex GameID Status LeaderIndex PlayerIDs Roles ProposedTeam
       TeamVotes MissionVotes MissionResults RejectCount Winner Version].
  split; [|split; [|split]].
  - unfold LeaderPlayerID. cbn [LeaderIndex PlayerIDs]. by rewrite Hpl.
  - unfold versionsOf, snapshotsOf. cbn [snapshots withGames withSnapshots].
    rewrite filter_app. fold (snapshotsOf d' gameID). rewrite Hrows.
    rewrite filter_cons, filter_nil. cbn [sGameID]. by rewrite decide_True.
  - done.
  - unfold GetLatestGameForRoom. rewrite Hgame.
    cbn [games withGames withSnapshots]. rewrite Hg.
    rewrite fmap_app, filter_app. cbn [fmap list_fmap gID].
    rewrite bool_decide_eq_true_2 by done.
    rewrite filter_cons, filter_nil. cbn [gRoomID]. rewrite decide_True by done.
    by rewrite last_snoc.
Qed.

Lemma start_game_opens_round_one_witness :
  let w := withHeap {[ 0 := mPayload (startGame "p1") ]}
             {| heap := ∅; db := emptyDB |} in
  let r := ApplyMove classicEngine calm (withDB (db lobbyWorld) w)
             "g1" "p1" "action" (Some 0) in
  ∃ roles,
    fst r
    = Ok ({| GameID := "g1"; Phase := "team_selection";
             Status := "in_progress"; RoundIndex := 1; LeaderIndex := 0;
             PlayerIDs := fivePlayers; Roles := roles; ProposedTeam := [];
             TeamVotes := ∅; MissionVotes := ∅; MissionResults := [];
             RejectCount := 0; Winner := ""; Version := 2 |},
          [ {| Event := "game_started";
               Payload := <[ "phase" := VString "team_selection" ]>
                         (<[ "round_index" := VInt 1 ]>
                          {[ "leader_id" := VString "p1" ]}) |} ])
    ∧ versionsOf (db (snd r)) "g1" = [1; 2]%Z
    ∧ events (db (snd r)) = []
    ∧ GetLatestGameForRoom calm (db (snd r)) "r1"
      = Ok (Some {| gID := "g1"; gRoomID := "r1"; gStatus := "in_progress";
                    gEndedAt := None |}).
Proof.
  intros w r.
  assert (createGame (db w) "g1" "r1" fivePlayers = Some (db lobbyWorld)) as Hc
    by (vm_compute; reflexivity).
  assert (MinPlayers (config classicEngine) <= len fivePlayers
          <= MaxPlayers (config classicEngine))%Z as Hn
    by (vm_compute; split; discriminate).
  assert (perm calm ≡ₚ seq 0 (length fivePlayers)) as Hperm
    by (apply (bool_decide_unpack (perm calm ≡ₚ seq 0 (length fivePlayers)));
        vm_compute; exact I).
  destruct (start_game_opens_round_one classicEngine calm w (db lobbyWorld)
              "g1" "r1" "p1" fivePlayers (Some 0) eq_refl Hc eq_refl eq_refl
              eq_refl eq_refl eq_refl eq_refl eq_refl Hn Hperm)
    as [_ Hstart].
  destruct Hstart as (roles & first & _ & Hfirst & Hr & Hv & He & Hg);
    [vm_compute; lia|].
  injection Hfirst as <-.
  exists roles. split; [exact Hr|]. split; [exact Hv|]. split; [exact He|exact Hg].
Defined.

(** * The rate limiter *)

Section Limiter.
Import RateLimit.

Lemma filter_whole {A} (P : A → Prop) `{∀ x, Decision (P x)} (l : list A) :
  length l ≤ length (filter P l) → filter P l = l.
Proof.
  induction l as [|x l IH]; [done|].
  rewrite filter_cons. case_decide.
  - simpl. intros Hlen. f_equal. apply IH. lia.
  - intros Hlen. pose proof (length_filter P l). simpl in Hlen. lia.
Qed.

Lemma filter_length_mono {A} (P Q : A → Prop) `{∀ x, Decision (P x)}
    `{∀ x, Decision (Q x)} (l : list A) :
  (∀ x, x ∈ l → P x → Q x) → length (filter P l) ≤ length (filter Q l).
Proof.
  induction l as [|x l IH]; [done|]. intros HPQ.
  assert (length (filter P l) ≤ length (filter Q l)) as Hl
    by (apply IH; intros y Hy; apply HPQ; by right).
  rewrite !filter_cons.
  destruct (decide (P x)) as [HP|HP].
  - rewrite decide_True by (apply HPQ; [by left|done]). simpl. lia.
  - case_decide; simpl; lia.
Qed.

Lemma filter_fmap_fst (P : Z → Prop) `{∀ x, Decision (P x)}
    (l : list (Z * string)) :
  filter P (l.*1) = (filter (λ c, P c.1) l).*1.
Proof.
  induction l as [|c l IH]; [done|].
  rewrite fmap_cons, !filter_cons. simpl.
  case_decide; [rewrite fmap_cons|]; by rewrite IH.
Qed.

Lemma filter_ext_in {A} (P Q : A → Prop) `{∀ x, Decision (P x)}
    `{∀ x, Decision (Q x)} (l : list A) :
  (∀ x, x ∈ l → P x ↔ Q x) → filter P l = filter Q l.
Proof.
  induction l as [|x l IH]; [done|]. intros HPQ.
  rewrite !filter_cons.
  rewrite IH by (intros y Hy; apply HPQ; by right).
  destruct (decide (P x)) as [HP|HP].
  - rewrite decide_True; [done|]. apply HPQ; [by left|done].
  - rewrite decide_False; [done|]. intros HQ. apply HP, HPQ; [by left|done].
Qed.

Lemma tracks_later (r : InMemory) (lo lo' : Z) (hist : list (Z * string)) :
  tracks r lo hist → (lo <= lo')%Z → tracks r lo' hist.
Proof.
  intros (Hl & Hw & Htimes & Hkeys & Hbound) Hlo.
  split; [done|]. split; [done|]. split; [|split; [|done]].
  - intros c Hc. specialize (Htimes c Hc). lia.
  - intros key. destruct (Hkeys key) as (cut & Hcut & Heq & Hlen).
    exists cut. split; [lia|done].
Qed.

(** One request served by a limiter that satisfies the invariant. *)
Lemma Allow_tracks (r : InMemory) (lo now : Z) (key : string)
    (hist : list (Z * string)) :
  tracks r lo hist → (lo <= now)%Z →
  (∃ retry, Allow r now key = (Some (false, retry), r) ∧ (1 <= retry)%Z
            ∧ tracks r now hist)
  ∨ (Allow r now key
     = (Some (true, 0%Z),
        {| entries := <[ key := filter (λ t, (now - window r < t)%Z)
                                  (default [] (entries r !! key)) ++ [now] ]>
                        (entries r);
           limit := limit r; window := window r |})
     ∧ tracks (Allow r now key).2 now (hist ++ [(now, key)])).
Proof.
  intros Hr Hnow.
  pose proof Hr as (Hl & Hw & Htimes & Hkeys & Hbound).
  destruct (Hkeys key) as (cut & Hcut & Heq & Hlen).
  set (times := default [] (entries r !! key)) in *.
  set (kept := filter (λ t, (now - window r < t)%Z) times).
  assert (kept = (filter (λ c, c.2 = key ∧ (now - window r < c.1)%Z) hist).*1)
    as Hkept.
  { subst kept. rewrite Heq, filter_fmap_fst, list_filter_filter. f_equal.
    apply filter_ext_in. intros c _. simpl. split.
    - intros (? & ? & ?). by split.
    - intros [? ?]. split; [done|]. split; [done|]. lia. }
  unfold Allow. cbv zeta. fold times. fold kept.
  destruct (limit r <=? len kept)%Z eqn:E.
  - left. apply Z.leb_le in E.
    assert (kept = times) as Hall.
    { apply filter_whole. fold kept. unfold len in *. lia. }
    assert (match entries r !! key with
            | Some _ => <[ key := kept ++ drop (length kept) times ]> (entries r)
            | None => entries r
            end = entries r) as ->.
    { destruct (entries r !! key) as [ts|] eqn:Hts; [|done].
      rewrite Hall, drop_all, app_nil_r. apply insert_id.
      subst times. by rewrite Hts. }
    assert ({| entries := entries r; limit := limit r; window := window r |} = r)
      as -> by (by destruct r).
    destruct kept as [|oldest rest] eqn:Hk.
    { unfold len in E. simpl in E. lia. }
    assert (now - window r < oldest)%Z as Hold.
    { assert (oldest ∈ filter (λ t, (now - window r < t)%Z) times) as Hin
        by (fold kept; rewrite Hk; left).
      by apply list_elem_of_filter in Hin as [? _]. }
    eexists. split; [done|]. split; [|by eapply tracks_later].
    destruct (0 <? oldest + window r - now)%Z eqn:E1; [|lia].
    destruct (wholeSeconds (oldest + window r - now) <? 1)%Z eqn:E2; lia.
  - right. apply Z.leb_gt in E. split; [done|]. cbn [snd entries limit window].
    fold times. fold kept.
    split; [done|]. split; [done|]. split; [|split].
    + intros c [Hc| ->%list_elem_of_singleton]%elem_of_app; [|simpl; lia].
      specialize (Htimes c Hc). lia.
    + intros key'. cbn [entries limit window].
      destruct (decide (key' = key)) as [->|Hne].
      * exists (now - window r)%Z. split; [lia|].
        rewrite lookup_insert_eq. cbn [default from_option id].
        split.
        -- rewrite filter_app, fmap_app, <- Hkept.
           rewrite filter_cons, filter_nil. simpl.
           rewrite decide_True by (split; [done|lia]). done.
        -- unfold len in *. rewrite length_app. simpl length. lia.
      * rewrite lookup_insert_ne by done.
        destruct (Hkeys key') as (cut' & Hcut' & Heq' & Hlen').
        exists cut'. split; [lia|]. split; [|done].
        rewrite Heq', filter_app, fmap_app.
        rewrite filter_cons, filter_nil. simpl.
        rewrite decide_False by (intros [? _]; done).
        by rewrite app_nil_r.
    + intros key' t. unfold inWindow in *. cbn [window].
      rewrite filter_app, filter_cons, filter_nil. simpl.
      destruct (decide (key = key' ∧ (t - window r < now <= t)%Z)) as [[<- Ht]|Hout].
      2:{ rewrite app_nil_r. apply Hbound. }
      unfold len. rewrite length_app. simpl length.
      assert (length (filter (λ c, c.2 = key ∧ (t - window r < c.1 <= t)%Z) hist)
              ≤ length kept) as Hle.
      { rewrite Hkept, length_fmap. apply filter_length_mono.
        intros c Hc [? ?]. split; [done|]. lia. }
      unfold len in E. lia.
Qed.

Lemma last_cons_default (x lo : Z) (l : list Z) :
  default lo (last (x :: l)) = default x (last l).
Proof.
  destruct l as [|y l]; [done|].
  change (last (x :: y :: l)) with (last (y :: l)).
  destruct (last (y :: l)) eqn:E; [done|]. by apply last_None in E.
Qed.

Lemma serve_tracks (calls : list (Z * string)) (r : InMemory) (lo : Z)
    (hist : list (Z * string)) :
  tracks r lo hist →
  Sorted Z.le (lo :: calls.*1) →
  tracks (serve r calls).2 (default lo (last (calls.*1)))
    (hist ++ (serve r calls).1).
Proof.
  revert r lo hist. induction calls as [|[now key] calls IH]; intros r lo hist Hr Hs.
  - simpl. by rewrite app_nil_r.
  - rewrite fmap_cons in Hs |- *. cbn [fst] in Hs |- *.
    apply Sorted_inv in Hs as [Hs Hhd].
    apply HdRel_inv in Hhd.
    rewrite last_cons_default.
    cbn [serve].
    destruct (Allow_tracks r lo now key hist Hr Hhd)
      as [(retry & -> & _ & Hr')|[-> Hr']].
    + specialize (IH r now hist Hr' Hs). by destruct (serve r calls).
    + cbn [snd] in Hr'.
      specialize (IH _ now _ Hr' Hs). destruct (serve _ calls) as [granted r''].
      cbn [fst snd] in *. by rewrite <- (assoc_L (++)) in IH.
Qed.

Lemma NewInMemory_tracks (lim win lo : Z) :
  (0 < lim)%Z → (0 < win)%Z → tracks (NewInMemory lim win) lo [].
Proof.
  intros Hl Hw. split; [done|]. split; [done|]. split; [|split].
  - intros c Hc. by apply elem_of_nil in Hc.
  - intros key. exists (lo - win)%Z. cbn. split; [lia|].
    rewrite lookup_empty. cbn. split; [done|]. unfold len. simpl. lia.
  - intros key t. unfold inWindow, len. simpl. lia.
Qed.

Lemma Allow_settings (r : InMemory) (now : Z) (key : string) :
  limit (Allow r now key).2 = limit r ∧ window (Allow r now key).2 = window r.
Proof. unfold Allow. cbv zeta. repeat case_match; done. Qed.

Lemma serve_settings (calls : list (Z * string)) (r : InMemory) :
  limit (serve r calls).2 = limit r ∧ window (serve r calls).2 = window r.
Proof.
  revert r. induction calls as [|[now key] calls IH]; intros r; [done|].
  cbn [serve]. pose proof (Allow_settings r now key) as [Hl Hw].
  destruct (Allow r now key) as [res r1]. specialize (IH r1).
  destruct (serve r1 calls) as [g r2]. cbn [snd] in *.
  destruct IH as [-> ->]. done.
Qed.

(** The seconds of the Retry-After header go through float64: from 2^24
    seconds on, a duration one nanosecond short of a second counts as the
    next second. *)
Example wholeSeconds_values :
  wholeSeconds (60 * 10 ^ 9 - 1) = 59%Z
  ∧ wholeSeconds (2 ^ 23 * 10 ^ 9 + 999999999) = (2 ^ 23)%Z
  ∧ wholeSeconds (2 ^ 24 * 10 ^ 9 + 999999999) = (2 ^ 24 + 1)%Z.
Proof. vm_compute. by split_and!. Qed.

(** X18.  The limiter keeps its promise: with a positive limit and window,
    whatever requests arrive (their times not decreasing), no window, for any
    key and any end time, holds more than [limit] of the requests that were
    let through. *)
Theorem at_most_limit_per_window
    (lim win : Z) (calls : list (Z * string)) (key : string) (t : Z) :
  (0 < lim)%Z → (0 < win)%Z →
  Sorted Z.le (calls.*1) →
  let r := NewInMemory lim win in
  (len (inWindow r key t (serve r calls).1) <= lim)%Z.
Proof.
  intros Hl Hw Hs r.
  destruct calls as [|[now k] calls].
  { unfold inWindow, len. simpl. lia. }
  destruct (serve_tracks ((now, k) :: calls) r now [])
    as (_ & _ & _ & _ & Hbound).
  - by apply NewInMemory_tracks.
  - rewrite fmap_cons. simpl. constructor; [done|]. by constructor.
  - specialize (Hbound key t). unfold inWindow in *.
    destruct (serve_settings ((now, k) :: calls) r) as [Hlim Hwin].
    rewrite Hlim, Hwin in Hbound. exact Hbound.
Qed.

Lemma at_most_limit_per_window_witness :
  let r := NewInMemory 2 10 in
  let calls := [(0, "a"); (1, "a"); (2, "b"); (3, "a"); (11, "a"); (12, "a")]%Z in
  (serve r calls).1 = [(0, "a"); (1, "a"); (2, "b"); (11, "a"); (12, "a")]%Z
  ∧ (len (inWindow r "a" 12 (serve r calls).1) <= 2)%Z.
Proof.
  intros r calls. split; [vm_compute; reflexivity|].
  apply (at_most_limit_per_window 2 10 calls "a" 12); [lia|lia|].
  repeat constructor; by vm_compute.
Defined.

Lemma sorted_snoc (l : list Z) (x : Z) :
  Sorted Z.le (l ++ [x]) → Sorted Z.le l ∧ (default x (last l) <= x)%Z.
Proof.
  induction l as [|y l IH]; [simpl; split; [constructor|lia]|].
  intros Hs. change ((y :: l) ++ [x]) with (y :: (l ++ [x])) in Hs.
  apply Sorted_inv in Hs as [Hs Hhd]. apply IH in Hs as [Hs Hlast].
  split.
  - constructor; [done|]. destruct l as [|z l]; [constructor|].
    apply HdRel_inv in Hhd. by constructor.
  - destruct l as [|z l].
    + apply HdRel_inv in Hhd. simpl. lia.
    + change (last (y :: z :: l)) with (last (z :: l)). done.
Qed.

(** The state of a limiter that has served requests satisfies the
    invariant. *)
Lemma served_tracks (lim win : Z) (calls : list (Z * string)) (now : Z) :
  (0 < lim)%Z → (0 < win)%Z →
  Sorted Z.le (calls.*1 ++ [now]) →
  ∃ lo hist, (lo <= now)%Z ∧ tracks (serve (NewInMemory lim win) calls).2 lo hist.
Proof.
  intros Hl Hw Hs. apply sorted_snoc in Hs as [Hs Hlast].
  destruct calls as [|[t0 k0] calls].
  { exists now, []. split; [lia|]. by apply NewInMemory_tracks. }
  eexists _, _. split; [|apply (serve_tracks _ _ t0 []); [by apply NewInMemory_tracks|]].
  - rewrite fmap_cons in Hlast. cbn [fst] in Hlast.
    rewrite (last_cons_default t0 now) in Hlast.
    rewrite fmap_cons. cbn [fst]. rewrite (last_cons_default t0 t0). exact Hlast.
  - rewrite fmap_cons in Hs |- *. cbn [fst] in Hs |- *.
    constructor; [done|]. by constructor.
Qed.

(** X19.  What a request gets from the middleware in front of a limiter
    that has served any requests before (positive limit and window, times
    not decreasing): either the wrapped handler runs and the time of the
    request is recorded behind the times of its key that are still inside
    the window; or the answer is 429 with a Retry-After header of at least
    one second, and the limiter is left exactly as it was.  The call never
    panics, and a request without key is counted under "unknown". *)
Theorem refused_request_changes_nothing
    (lim win : Z) (calls : list (Z * string)) (now : Z) (key : string) :
  (0 < lim)%Z → (0 < win)%Z →
  Sorted Z.le (calls.*1 ++ [now]) →
  let r := (serve (NewInMemory lim win) calls).2 in
  let bucket := if bool_decide (key = "") then "unknown" else key in
  (∃ r', RateLimitMiddleware (LInMemory r) now key = (Next, LInMemory r')
         ∧ entries r' !! bucket
           = Some (filter (λ t, (now - win < t)%Z) (default [] (entries r !! bucket))
                   ++ [now])
         ∧ ∀ other, other ≠ bucket → entries r' !! other = entries r !! other)
  ∨ (∃ retry, (1 <= retry)%Z
              ∧ RateLimitMiddleware (LInMemory r) now key
                = (TooManyRequests (Some retry), LInMemory r)).
Proof.
  intros Hl Hw Hs r bucket.
  destruct (served_tracks lim win calls now Hl Hw Hs) as (lo & hist & Hlo & Hr).
  fold r in Hr.
  assert (window r = win) as Hwin
    by (subst r; by destruct (serve_settings calls (NewInMemory lim win)) as [_ ->]).
  unfold RateLimitMiddleware. fold bucket. cbn [LimiterAllow].
  destruct (Allow_tracks r lo now bucket hist Hr Hlo)
    as [(retry & -> & Hretry & _)|[-> _]].
  - right. exists retry. split; [done|]. cbn [negb].
    destruct (0 <? retry)%Z eqn:E; [done|lia].
  - left. eexists. split; [done|]. cbn [entries]. rewrite Hwin.
    split; [by rewrite lookup_insert_eq|].
    intros other Hother. by rewrite lookup_insert_ne.
Qed.

Lemma refused_request_changes_nothing_witness :
  ∃ retry, (1 <= retry)%Z
           ∧ RateLimitMiddleware
               (LInMemory (serve (NewInMemory 2 10) [(0, "a"); (1, "a")]%Z).2) 3 "a"
             = (TooManyRequests (Some retry),
                LInMemory (serve (NewInMemory 2 10) [(0, "a"); (1, "a")]%Z).2).
Proof.
  destruct (refused_request_changes_nothing 2 10 [(0, "a"); (1, "a")]%Z 3 "a")
    as [(r' & Hnext & _)|Hrefused]; [lia|lia| | |].
  - repeat constructor; by vm_compute.
  - vm_compute in Hnext. discriminate Hnext.
  - exact Hrefused.
Defined.

(** X20.  Keys do not see each other: a request of one key changes nothing
    for another key, neither what the limiter holds for it nor the answer its
    next request gets. *)
Theorem keys_are_independent
    (r : InMemory) (t1 t2 : Z) (k1 k2 : string) :
  k1 ≠ k2 →
  entries (Allow r t1 k1).2 !! k2 = entries r !! k2
  ∧ (Allow (Allow r t1 k1).2 t2 k2).1 = (Allow r t2 k2).1.
Proof.
  intros Hne.
  assert (entries (Allow r t1 k1).2 !! k2 = entries r !! k2) as Hentries.
  { unfold Allow. cbv zeta.
    repeat case_match; cbn [snd entries]; rewrite ?lookup_insert_ne by done; done. }
  split; [done|].
  destruct (Allow_settings r t1 k1) as [Hl Hw].
  unfold Allow at 1 3. cbv zeta. rewrite Hentries, Hl, Hw.
  repeat case_match; simplify_eq; done.
Qed.

Lemma keys_are_independent_witness :
  (Allow (Allow (NewInMemory 1 10) 0 "a").2 1 "b").1 = Some (true, 0%Z)
  ∧ (Allow (Allow (NewInMemory 1 10) 0 "a").2 1 "a").1 = Some (false, 1%Z).
Proof.
  split; [|vm_compute; reflexivity].
  destruct (keys_are_independent (NewInMemory 1 10) 0 1 "a" "b") as [_ ->];
    [discriminate|]. vm_compute. reflexivity.
Defined.

(** X21.  A limiter built with a limit of zero or less lets nothing
    through and cannot even refuse: every call finds the empty slice at the
    limit, indexes it, and panics, leaving the limiter as it was; behind the
    middleware every request ends in that panic. *)
Theorem nonpositive_limit_panics (lim win now : Z) (key : string) :
  (lim <= 0)%Z →
  Allow (NewInMemory lim win) now key = (None, NewInMemory lim win)
  ∧ RateLimitMiddleware (LInMemory (NewInMemory lim win)) now key
    = (Panic, LInMemory (NewInMemory lim win)).
Proof.
  intros Hlim.
  assert (∀ k, Allow (NewInMemory lim win) now k = (None, NewInMemory lim win)) as H.
  { intros k. unfold Allow, NewInMemory. cbv zeta. cbn [entries limit window].
    rewrite lookup_empty. cbn [default from_option id].
    rewrite filter_nil. change (len []) with 0%Z.
    destruct (lim <=? 0)%Z eqn:E; [done|lia]. }
  split; [apply H|]. unfold RateLimitMiddleware. cbn [LimiterAllow]. by rewrite H.
Qed.

Lemma nonpositive_limit_panics_witness :
  RateLimitMiddleware (LInMemory (NewInMemory 0 (60 * 10 ^ 9))) 5 "10.0.0.1"
  = (Panic, LInMemory (NewInMemory 0 (60 * 10 ^ 9))).
Proof.
  apply (nonpositive_limit_panics 0 (60 * 10 ^ 9) 5 "10.0.0.1"). lia.
Defined.

End Limiter.

(** * Further properties of the tokens *)

Lemma splitDot_Some (token a b : list byte) :
  splitDot token = Some (a, b) → token = a ++ "."%byte :: b ∧ "."%byte ∉ a.
Proof.
  revert a. induction token as [|c token IH]; intros a; [done|].
  cbn [splitDot]. case_decide as Hc.
  - intros [= <- <-]. subst c. split; [done|apply not_elem_of_nil].
  - destruct (splitDot token) as [[a' b']|]; [|done].
    intros [= <- <-]. destruct (IH a' eq_refl) as [-> Hdot].
    split; [done|]. rewrite not_elem_of_cons. done.
Qed.

(** X22.  A token is good until it expires: the token [GenerateToken] makes
    for a room and a player, verified with the secret it was signed with, is
    accepted up to and including the second of its expiry ([now] plus the
    lifetime) and yields the room, the player and that second; after it the
    answer is "token expired".  [GenerateToken] also signs a token for an
    empty room or player id, which [VerifyToken] then refuses for its claims.
    (The library is taken with its contract: base64 decodes what it encoded,
    and JSON reads back these claims.) *)
Theorem token_verifies_until_expiry
    (L : Lib) (now now' : Z) (room player : string) (secret : list byte)
    (expiry : Z) (tok : list byte) (exp : Z) :
  LibOk L →
  GenerateToken L now room player secret expiry = inr (tok, exp) →
  let claims := {| RoomID := room; RoomPlayerID := player;
                   Exp := unixSeconds (now + expiry) |} in
  jsonUnmarshal L (jsonMarshal L claims) = Some claims →
  exp = (now + expiry)%Z
  ∧ VerifyToken L now' tok secret
    = (if (unixSeconds (now + expiry) <? unixSeconds now')%Z then inl ErrExpired
       else if bool_decide (room = "") || bool_decide (player = "") then inl ErrClaims
       else inr claims).
Proof.
  intros HL Hgen claims Hjson.
  pose proof (GenerateToken_token _ _ _ _ _ _ _ _ Hgen) as (Hsecret & -> & _).
  split; [done|].
  rewrite (VerifyToken_generated L now now' room player secret secret expiry tok _
             HL Hgen Hsecret).
  rewrite bool_decide_eq_true_2 by done. cbn [negb].
  fold claims. rewrite Hjson. done.
Qed.

Lemma token_verifies_until_expiry_witness :
  ∃ tok exp,
    GenerateToken plainLib noon "room" "player" secretK DefaultTokenExpiry
    = inr (tok, exp)
    ∧ VerifyToken plainLib (noon + DefaultTokenExpiry) tok secretK = inr sampleClaims
    ∧ VerifyToken plainLib (noon + DefaultTokenExpiry + 10 ^ 9) tok secretK
      = inl ErrExpired.
Proof.
  destruct (GenerateToken plainLib noon "room" "player" secretK DefaultTokenExpiry)
    as [err|[tok exp]] eqn:Hgen; [by vm_compute in Hgen|].
  exists tok, exp. split; [done|].
  assert (jsonUnmarshal plainLib (jsonMarshal plainLib sampleClaims) = Some sampleClaims)
    as Hjson by (vm_compute; reflexivity).
  split.
  - destruct (token_verifies_until_expiry plainLib noon (noon + DefaultTokenExpiry)
                "room" "player" secretK DefaultTokenExpiry tok exp plainLib_ok Hgen
                Hjson) as [_ ->].
    vm_compute. reflexivity.
  - destruct (token_verifies_until_expiry plainLib noon
                (noon + DefaultTokenExpiry + 10 ^ 9)
                "room" "player" secretK DefaultTokenExpiry tok exp plainLib_ok Hgen
                Hjson) as [_ ->].
    vm_compute. reflexivity.
Defined.

(** X23.  What an accepted token guarantees: [VerifyToken] returns claims
    only for a token of two parts around its first dot whose second part is
    the base64 of the HMAC-SHA256 tag of the first under the secret; the
    claims are the JSON behind the first part, they name a room and a player,
    and they have not expired.  So a token without a dot, and any token
    under an empty secret, is never accepted. *)
Theorem accepted_token_is_signed
    (L : Lib) (now : Z) (token secret : list byte) (claims : Claims) :
  VerifyToken L now token secret = inr claims →
  secret ≠ []
  ∧ ∃ b64Payload b64Sig payload,
      token = b64Payload ++ "."%byte :: b64Sig
      ∧ ("."%byte ∉ b64Payload)
      ∧ b64decode L b64Sig = Some (hmacSHA256 L secret b64Payload)
      ∧ b64decode L b64Payload = Some payload
      ∧ jsonUnmarshal L payload = Some claims
      ∧ (unixSeconds now <= Exp claims)%Z
      ∧ RoomID claims ≠ "" ∧ RoomPlayerID claims ≠ "".
Proof.
  unfold VerifyToken.
  case_decide as Hsecret; [done|].
  destruct (splitDot token) as [[b64Payload b64Sig]|] eqn:Hsplit; [|done].
  apply splitDot_Some in Hsplit as [-> Hdot].
  destruct (b64decode L b64Sig) as [sig|] eqn:Hsig; [|done].
  case_bool_decide as Htag; cbn [negb]; [|done]. subst sig.
  destruct (b64decode L b64Payload) as [payload|] eqn:Hpayload; [|done].
  destruct (jsonUnmarshal L payload) as [c|] eqn:Hjson; [|done].
  destruct (Exp c <? unixSeconds now)%Z eqn:Hexp; [done|].
  destruct (bool_decide (RoomID c = "")) eqn:Hroom; [done|].
  destruct (bool_decide (RoomPlayerID c = "")) eqn:Hplayer; [done|].
  intros [= <-]. split; [by destruct secret|].
  exists b64Payload, b64Sig, payload.
  apply bool_decide_eq_false_1 in Hroom, Hplayer. apply Z.ltb_ge in Hexp.
  by split_and!.
Qed.

Lemma accepted_token_is_signed_witness :
  ∃ tok exp,
    GenerateToken plainLib noon "room" "player" secretK DefaultTokenExpiry
    = inr (tok, exp)
    ∧ ∃ b64Payload b64Sig,
        tok = b64Payload ++ "."%byte :: b64Sig
        ∧ b64decode plainLib b64Sig = Some (hmacSHA256 plainLib secretK b64Payload).
Proof.
  destruct (GenerateToken plainLib noon "room" "player" secretK DefaultTokenExpiry)
    as [err|[tok exp]] eqn:Hgen; [by vm_compute in Hgen|].
  exists tok, exp. split; [done|].
  assert (VerifyToken plainLib noon tok secretK = inr sampleClaims) as Hver.
  { rewrite (VerifyToken_generated plainLib noon noon "room" "player" secretK secretK
               DefaultTokenExpiry tok exp plainLib_ok Hgen) by done.
    apply GenerateToken_token in Hgen as (_ & -> & _). vm_compute. reflexivity. }
  destruct (accepted_token_is_signed plainLib noon tok secretK sampleClaims Hver)
    as (_ & p & s & _ & Htok & _ & Hsig & _).
  exists p, s. split; [exact Htok|exact Hsig].
Defined.

(** * The hub loop *)

Section HubLoop.
Import WS.

Lemma connect_sound h c roomID gameID roomPlayerID displayName rateLimitKey :
  sound h → clients h !! c = None →
  sound (connect h c roomID gameID roomPlayerID displayName rateLimitKey).
Proof.
  intros Hh Hc room' room c' Hroom Hc'.
  destruct (Hh room' room c' Hroom Hc') as (client & Hclient & Hid & Hopen).
  exists client. cbn [connect clients withClients].
  rewrite lookup_insert_ne by (intros ->; congruence). done.
Qed.

Lemma register_sound h c client h' :
  sound h → clients h !! c = Some client → closed (send client) = false →
  register h c = Some h' → sound h'.
Proof.
  intros Hh Hc Hopen. unfold register. rewrite Hc. cbn.
  intros [= <-] room' room c' Hroom Hc'. cbn [rooms clients withRooms] in *.
  destruct (decide (room' = RoomID client)) as [->|Hne].
  - rewrite lookup_insert_eq in Hroom. injection Hroom as <-.
    apply elem_of_union in Hc' as [Hc'| ->%elem_of_singleton]; [|by exists client].
    destruct (rooms h !! RoomID client) as [old|] eqn:Hold; [|set_solver].
    by apply (Hh _ old).
  - rewrite lookup_insert_ne in Hroom by done. by apply (Hh _ room).
Qed.

Lemma unregister_Some h c client :
  sound h → clients h !! c = Some client → is_Some (unregister h c).
Proof.
  intros Hh Hc. unfold unregister. rewrite Hc. cbn.
  destruct (rooms h !! RoomID client) as [room|] eqn:Hroom; [|eauto].
  case_decide as Hin; [|eauto].
  destruct (Hh _ _ _ Hroom Hin) as (client' & Hc' & _ & Hopen).
  assert (client' = client) as -> by congruence.
  unfold close. rewrite Hopen. cbn. eauto.
Qed.

Lemma unregister_sound h c h' :
  sound h → unregister h c = Some h' → sound h'.
Proof.
  intros Hh. unfold unregister.
  destruct (clients h !! c) as [client|] eqn:Hc; [|done]. cbn.
  destruct (rooms h !! RoomID client) as [room|] eqn:Hroom; [|by intros [= <-]].
  case_decide as Hin; [|by intros [= <-]].
  destruct (close (send client)) as [ch|] eqn:Hclose; [|done]. cbn.
  intros [= <-] room' members c' Hroom' Hc'.
  cbn [rooms clients withRooms withClients] in *.
  assert (rooms h !! room' = Some members ∧ c' ∈ members ∧ c' ≠ c
          ∨ (room' = RoomID client ∧ members = room ∖ {[ c ]})) as Hcase.
  { case_decide.
    - destruct (decide (room' = RoomID client)) as [->|Hne];
        [by rewrite lookup_delete_eq in Hroom'|].
      rewrite lookup_delete_ne in Hroom' by done. left. split; [done|]. split; [done|].
      intros ->. destruct (Hh _ _ _ Hroom' Hc') as (cl & Hcl & Hid & _). congruence.
    - destruct (decide (room' = RoomID client)) as [->|Hne].
      + rewrite lookup_insert_eq in Hroom'. injection Hroom' as <-. by right.
      + rewrite lookup_insert_ne in Hroom' by done. left. split; [done|].
        split; [done|].
        intros ->. destruct (Hh _ _ _ Hroom' Hc') as (cl & Hcl & Hid & _). congruence. }
  destruct Hcase as [(Hr & Hm & Hne)|[-> ->]].
  - rewrite lookup_insert_ne by done. by apply (Hh _ members).
  - apply elem_of_difference in Hc' as [Hc' Hne%not_elem_of_singleton].
    rewrite lookup_insert_ne by done. by apply (Hh _ room).
Qed.

Lemma deliverTo_sound m h c :
  sound h → ∃ h', deliverTo m (Some h) c = Some h' ∧ sound h'
                  ∧ broadcast h' = broadcast h.
Proof.
  intros Hh. unfold deliverTo. cbn.
  destruct (rooms h !! bRoomID m) as [room|] eqn:Hroom; [|eauto].
  case_decide as Hin; [|eauto].
  destruct (outgoing m) as [out|]; [|eauto].
  case_decide; [eauto|].
  destruct (Hh _ _ _ Hroom Hin) as (client & Hc & Hid & Hopen).
  rewrite Hc. cbn. unfold trySend. rewrite Hopen.
  case_decide.
  - eexists. split; [done|]. split; [|done].
    intros room' members c' Hroom' Hc'. cbn [rooms clients withClients] in *.
    destruct (Hh _ _ _ Hroom' Hc') as (client' & Hcl' & Hid' & Hopen').
    destruct (decide (c' = c)) as [->|Hne].
    + rewrite lookup_insert_eq. eexists. split; [done|].
      assert (client' = client) as -> by congruence. done.
    + rewrite lookup_insert_ne by done. eauto.
  - unfold close. rewrite Hopen. cbn.
    eexists. split; [done|]. split; [|done].
    intros room' members c' Hroom' Hc'.
    cbn [rooms clients withRooms withClients] in *.
    destruct (decide (room' = bRoomID m)) as [->|Hne].
    + rewrite lookup_insert_eq in Hroom'. injection Hroom' as <-.
      apply elem_of_difference in Hc' as [Hc' Hne%not_elem_of_singleton].
      rewrite lookup_insert_ne by done. by apply (Hh _ room).
    + rewrite lookup_insert_ne in Hroom' by done.
      assert (c' ≠ c) as Hcne.
      { intros ->. destruct (Hh _ _ _ Hroom' Hc') as (cl & Hcl & Hid' & _).
        congruence. }
      rewrite lookup_insert_ne by done. by apply (Hh _ members).
Qed.

Lemma deliver_sound h order :
  sound h → ∃ h', deliver h order = Some h' ∧ sound h'.
Proof.
  intros Hh. unfold deliver.
  destruct (broadcast h) as [|m rest]; [eauto|].
  assert (sound (withBroadcast rest h)) as Hstart by done.
  generalize dependent (withBroadcast rest h). clear Hh.
  induction order as [|c order IH]; intros h0 Hh0; [eauto|].
  cbn [foldl].
  destruct (deliverTo_sound m h0 c Hh0) as (h1 & -> & Hh1 & _).
  by apply IH.
Qed.

Lemma sendEnvelopeToClient_sound h c envelope h' :
  sound h → sendEnvelopeToClient h c envelope = Some h' → sound h'.
Proof.
  intros Hh. unfold sendEnvelopeToClient.
  destruct (clients h !! c) as [client|] eqn:Hc; [|done]. cbn.
  unfold trySend. destruct (closed (send client)) eqn:Hopen; [done|].
  assert (∀ ch, closed ch = false →
            sound (withClients (<[ c := withSend ch client ]> (clients h)) h)) as Hins.
  { intros ch Hch room' members c' Hroom' Hc'. cbn [rooms clients withClients] in *.
    destruct (Hh _ _ _ Hroom' Hc') as (client' & Hcl' & Hid' & Hopen').
    destruct (decide (c' = c)) as [->|Hne].
    - rewrite lookup_insert_eq. eexists. split; [done|].
      assert (client' = client) as -> by congruence. done.
    - rewrite lookup_insert_ne by done. eauto. }
  case_decide; intros [= <-]; by apply Hins.
Qed.

Lemma receive_sound h c : sound h → sound (receive h c).
Proof.
  intros Hh. unfold receive.
  destruct (clients h !! c) as [client|] eqn:Hc; [|done].
  intros room' members c' Hroom' Hc'. cbn [rooms clients withClients] in *.
  destruct (Hh _ _ _ Hroom' Hc') as (client' & Hcl' & Hid' & Hopen').
  destruct (decide (c' = c)) as [->|Hne].
  - rewrite lookup_insert_eq. eexists. split; [done|].
    assert (client' = client) as -> by congruence. done.
  - rewrite lookup_insert_ne by done. eauto.
Qed.

Lemma reachable_sound h : reachable h → sound h.
Proof.
  induction 1 as [|h c ? ? ? ? ? _ IH Hc|h c client h' _ IH Hc Hopen Hreg
                  |h c h' _ IH Hun|h order h' _ IH Hd|h m _ IH
                  |h c envelope h' _ IH Hs|h c _ IH].
  - intros room members c Hroom. cbn in Hroom. by rewrite lookup_empty in Hroom.
  - by apply connect_sound.
  - by eapply register_sound.
  - by eapply unregister_sound.
  - destruct (deliver_sound h order IH) as (h'' & Hd' & Hh'').
    by assert (h'' = h') as <- by congruence.
  - done.
  - by eapply sendEnvelopeToClient_sound.
  - by apply receive_sound.
Qed.

Lemma answers_reachable n h c envelope h' :
  reachable h → answers n h c envelope = Some h' → reachable h'.
Proof.
  revert h. induction n as [|n IH]; intros h Hh; cbn [answers].
  - by intros [= <-].
  - destruct (sendEnvelopeToClient h c envelope) as [h1|] eqn:Hs; [|done]. cbn.
    apply IH. by eapply reach_send.
Qed.

Lemma roomOfTwo_reachable : reachable roomOfTwo.
Proof.
  apply (reach_register (connect roomOfOne 2 "r1" "" "p2" "Bob" "10.0.0.2") 2 bob).
  - apply reach_connect; [|vm_compute; reflexivity].
    apply (reach_register (connect NewHub 1 "r1" "" "p1" "Ann" "10.0.0.1") 1 ann).
    + apply reach_connect; [apply reach_new|reflexivity].
    + vm_compute. reflexivity.
    + reflexivity.
    + vm_compute. reflexivity.
  - vm_compute. reflexivity.
  - reflexivity.
  - vm_compute. reflexivity.
Qed.

Lemma slowRoom_reachable : reachable slowRoom.
Proof.
  apply (answers_reachable capacity roomOfTwo 2 ping); [apply roomOfTwo_reachable|].
  vm_compute. reflexivity.
Qed.

(** X24.  The loop of the hub cannot fail on its clients: in every state of
    a run the members of a room are clients of that room whose send channel
    is open, so that a broadcast, in whatever order it visits the room, and
    an unregister request for any client, never send on a closed channel
    and never close a channel twice. *)
Theorem hub_loop_never_panics (h : Hub) :
  reachable h →
  (∀ order, is_Some (deliver h order))
  ∧ (∀ c, is_Some (clients h !! c) → is_Some (unregister h c))
  ∧ (∀ roomID room c,
       rooms h !! roomID = Some room → c ∈ room →
       ∃ client, clients h !! c = Some client ∧ RoomID client = roomID
                 ∧ closed (send client) = false).
Proof.
  intros Hh%reachable_sound. split; [|split; [|done]].
  - intros order. destruct (deliver_sound h order Hh) as (h' & -> & _). eauto.
  - intros c [client Hc]. by eapply unregister_Some.
Qed.

Lemma hub_loop_never_panics_witness :
  let h := BroadcastEnvelope slowRoom "r1" chat in
  (∀ order, is_Some (deliver h order))
  ∧ (∀ c, is_Some (clients h !! c) → is_Some (unregister h c)).
Proof.
  intros h.
  destruct (hub_loop_never_panics h) as (Hdeliver & Hunregister & _).
  - apply reach_post, slowRoom_reachable.
  - split; [exact Hdeliver|exact Hunregister].
Defined.

Lemma deliverTo_skips m h c :
  ¬ (c ∈ members h (bRoomID m) ∧ bExcludeClient m ≠ Some c) →
  deliverTo m (Some h) c = Some h.
Proof.
  intros Hskip. unfold deliverTo, members in *. cbn.
  destruct (rooms h !! bRoomID m) as [room|]; [|done]. cbn in Hskip.
  case_decide; [|done]. destruct (outgoing m); [|done].
  case_decide; [done|]. tauto.
Qed.

Lemma deliverTo_offers m out h c client :
  outgoing m = Some out →
  c ∈ members h (bRoomID m) → bExcludeClient m ≠ Some c →
  clients h !! c = Some client → closed (send client) = false →
  ∃ h', deliverTo m (Some h) c = Some h'
    ∧ broadcast h' = broadcast h
    ∧ (∀ r, r ≠ bRoomID m → rooms h' !! r = rooms h !! r)
    ∧ (∀ c', c' ≠ c → clients h' !! c' = clients h !! c'
                      ∧ (c' ∈ members h' (bRoomID m) ↔ c' ∈ members h (bRoomID m)))
    ∧ if decide (length (buf (send client)) < capacity)
      then clients h' !! c
             = Some (withSend {| buf := buf (send client) ++ [out]; closed := false |}
                       client)
           ∧ c ∈ members h' (bRoomID m)
      else clients h' !! c
             = Some (withSend {| buf := buf (send client); closed := true |} client)
           ∧ c ∉ members h' (bRoomID m).
Proof.
  intros Hout Hin Hex Hc Hopen. unfold deliverTo, members in *. cbn.
  destruct (rooms h !! bRoomID m) as [room|] eqn:Hroom; [|set_solver].
  cbn in Hin. rewrite Hout, Hc. cbn.
  rewrite decide_True by done. rewrite decide_False by done.
  unfold trySend. rewrite Hopen. case_decide.
  - eexists. split; [done|]. cbn [rooms clients broadcast withClients].
    rewrite !Hroom. split; [done|]. split; [done|]. split.
    + intros c' Hne. by rewrite lookup_insert_ne.
    + by rewrite lookup_insert_eq.
  - unfold close. rewrite Hopen. cbn.
    eexists. split; [done|]. cbn [rooms clients broadcast withRooms withClients].
    split; [done|]. split; [|split].
    + intros r Hr. by rewrite lookup_insert_ne.
    + intros c' Hne. rewrite lookup_insert_ne by done.
      rewrite lookup_insert_eq. cbn. split; [done|].
      rewrite elem_of_difference, not_elem_of_singleton. tauto.
    + rewrite !lookup_insert_eq. cbn. split; [done|].
      rewrite elem_of_difference, not_elem_of_singleton. tauto.
Qed.

(** The broadcast case of the loop, for a message that is not empty, when
    the range visits the clients of [order], each once. *)
Lemma deliverAll m out h order :
  sound h → outgoing m = Some out → NoDup order →
  ∃ h', foldl (deliverTo m) (Some h) order = Some h'
    ∧ broadcast h' = broadcast h
    ∧ (∀ r, r ≠ bRoomID m → rooms h' !! r = rooms h !! r)
    ∧ (∀ c, ¬ (c ∈ order ∧ c ∈ members h (bRoomID m) ∧ bExcludeClient m ≠ Some c) →
         clients h' !! c = clients h !! c
         ∧ (c ∈ members h' (bRoomID m) ↔ c ∈ members h (bRoomID m)))
    ∧ (∀ c client,
         c ∈ order → c ∈ members h (bRoomID m) → bExcludeClient m ≠ Some c →
         clients h !! c = Some client →
         if decide (length (buf (send client)) < capacity)
         then clients h' !! c
                = Some (withSend {| buf := buf (send client) ++ [out]; closed := false |}
                          client)
              ∧ c ∈ members h' (bRoomID m)
         else clients h' !! c
                = Some (withSend {| buf := buf (send client); closed := true |} client)
              ∧ c ∉ members h' (bRoomID m)).
Proof.
  intros Hh Hout Hnd. revert h Hh.
  induction Hnd as [|c0 order Hc0 Hnd IH]; intros h Hh.
  { exists h. split; [done|]. split; [done|]. split; [done|]. split; [done|].
    intros c client Hc. by apply elem_of_nil in Hc. }
  cbn [foldl].
  destruct (decide (c0 ∈ members h (bRoomID m) ∧ bExcludeClient m ≠ Some c0))
    as [[Hin Hex]|Hskip].
  - assert (∃ client, clients h !! c0 = Some client ∧ closed (send client) = false)
      as (client0 & Hcl0 & Hopen0).
    { unfold members in Hin.
      destruct (rooms h !! bRoomID m) as [room|] eqn:Hroom; [|set_solver].
      destruct (Hh _ _ _ Hroom Hin) as (cl & ? & ? & ?). eauto. }
    destruct (deliverTo_offers m out h c0 client0 Hout Hin Hex Hcl0 Hopen0)
      as (h1 & Hstep & Hb1 & Hr1 & Ho1 & Hc1).
    destruct (deliverTo_sound m h c0 Hh) as (h1' & Hstep' & Hh1 & _).
    assert (h1' = h1) as -> by congruence.
    rewrite Hstep.
    destruct (IH h1 Hh1) as (h' & Hfold & Hb & Hr & Hrest & Hvis).
    exists h'. split; [done|]. split; [congruence|]. split.
    { intros r Hne. rewrite Hr, Hr1; done. }
    split.
    + intros c Hc. assert (c ≠ c0) as Hne.
      { intros ->. apply Hc. split; [left|done]. }
      destruct (Ho1 c Hne) as [Hcl Hmem].
      destruct (Hrest c) as [Hcl' Hmem'].
      { intros (Ho & Hm & He). apply Hc. split; [by right|]. split; [|done].
        by apply Hmem. }
      split; [congruence|]. by rewrite Hmem', Hmem.
    + intros c client Hc Hm He Hcl.
      destruct (decide (c = c0)) as [->|Hne].
      * assert (client = client0) as -> by congruence.
        destruct (Hrest c0) as [Hcl' Hmem']; [by intros (? & _)|].
        rewrite Hcl'. case_decide; destruct Hc1 as [? ?]; (split; [done|tauto]).
      * destruct (Ho1 c Hne) as [Hcl1 Hmem1].
        apply (Hvis c client).
        -- apply elem_of_cons in Hc as [?|?]; done.
        -- by apply Hmem1.
        -- done.
        -- congruence.
  - rewrite (deliverTo_skips m h c0 Hskip).
    destruct (IH h Hh) as (h' & Hfold & Hb & Hr & Hrest & Hvis).
    exists h'. split; [done|]. split; [done|]. split; [done|]. split.
    + intros c Hc. apply Hrest. intros (Ho & Hm & He). apply Hc.
      split; [by right|done].
    + intros c client Hc Hm He Hcl.
      apply (Hvis c client); try done.
      apply elem_of_cons in Hc as [->|?]; [|done]. exfalso. by apply Hskip.
Qed.

(** X25.  A broadcast reaches its room: the loop takes the oldest message
    and, visiting the clients of its room, appends it to the send channel of
    each one but the excluded client; a client whose channel is full is
    closed and taken out of the room instead; nobody else and no other room
    is touched. *)
Theorem broadcast_reaches_room (h : Hub) (m : BroadcastMessage)
    (rest : list BroadcastMessage) (out : OutgoingMessage) (order : list nat) :
  reachable h →
  broadcast h = m :: rest → outgoing m = Some out →
  order ≡ₚ elements (members h (bRoomID m)) →
  ∃ h', deliver h order = Some h'
    ∧ broadcast h' = rest
    ∧ (∀ r, r ≠ bRoomID m → rooms h' !! r = rooms h !! r)
    ∧ (∀ c, c ∉ members h (bRoomID m) ∨ bExcludeClient m = Some c →
         clients h' !! c = clients h !! c
         ∧ (c ∈ members h' (bRoomID m) ↔ c ∈ members h (bRoomID m)))
    ∧ (∀ c client,
         c ∈ members h (bRoomID m) → bExcludeClient m ≠ Some c →
         clients h !! c = Some client →
         if decide (length (buf (send client)) < capacity)
         then clients h' !! c
                = Some (withSend {| buf := buf (send client) ++ [out]; closed := false |}
                          client)
              ∧ c ∈ members h' (bRoomID m)
         else clients h' !! c
                = Some (withSend {| buf := buf (send client); closed := true |} client)
              ∧ c ∉ members h' (bRoomID m)).
Proof.
  intros Hh%reachable_sound Hb Hout Horder.
  assert (NoDup order) as Hnd by (rewrite Horder; apply NoDup_elements).
  assert (∀ c, c ∈ order ↔ c ∈ members h (bRoomID m)) as Hcover.
  { intros c. rewrite Horder. apply elem_of_elements. }
  unfold deliver. rewrite Hb.
  destruct (deliverAll m out (withBroadcast rest h) order) as
    (h' & Hfold & Hb' & Hr & Hrest & Hvis); [done..|].
  exists h'. split; [done|]. split; [done|]. split; [done|]. split.
  - intros c Hc. apply Hrest. intros (Ho & Hm & He). destruct Hc; done.
  - intros c client Hm He Hcl. apply (Hvis c client); try done. by apply Hcover.
Qed.

Lemma broadcast_reaches_room_witness :
  ∃ h', deliver (BroadcastEnvelopeExcept roomOfTwo "r1" chat (Some 1)) [2; 1] = Some h'
        ∧ broadcast h' = []
        ∧ clients h' !! 1 = Some ann
        ∧ clients h' !! 2
          = Some (withSend {| buf := [Envelope chat]; closed := false |} bob).
Proof.
  destruct (broadcast_reaches_room
              (BroadcastEnvelopeExcept roomOfTwo "r1" chat (Some 1))
              {| bRoomID := "r1"; bEvent := None; bEnvelope := Some chat;
                 bExcludeClient := Some 1 |} [] (Envelope chat) [2; 1])
    as (h' & Hdeliver & Hqueue & _ & Hrest & Hvisited).
  - apply reach_post, roomOfTwo_reachable.
  - reflexivity.
  - reflexivity.
  - apply (bool_decide_unpack _). vm_compute. exact I.
  - exists h'. split; [exact Hdeliver|]. split; [exact Hqueue|]. split.
    + destruct (Hrest 1) as [-> _]; [by right|]. vm_compute. reflexivity.
    + specialize (Hvisited 2 bob). rewrite decide_True in Hvisited.
      * destruct Hvisited as [-> _].
        -- apply (bool_decide_unpack _). vm_compute. exact I.
        -- discriminate.
        -- vm_compute. reflexivity.
        -- reflexivity.
      * vm_compute. lia.
Defined.

(** X26.  A client that the hub dropped for being slow can no longer be
    answered: once a broadcast found its channel full, the channel is
    closed, and the next answer a handler sends to that client
    ([sendEnvelopeToClient]) is a send on a closed channel. *)
Theorem dropped_client_cannot_be_answered (h : Hub) (m : BroadcastMessage)
    (rest : list BroadcastMessage) (out : OutgoingMessage) (order : list nat)
    (c : nat) (client : Client) (envelope : ServerEnvelope) :
  reachable h →
  broadcast h = m :: rest → outgoing m = Some out →
  order ≡ₚ elements (members h (bRoomID m)) →
  c ∈ members h (bRoomID m) → bExcludeClient m ≠ Some c →
  clients h !! c = Some client → capacity ≤ length (buf (send client)) →
  ∃ h', deliver h order = Some h'
        ∧ (c ∉ members h' (bRoomID m))
        ∧ sendEnvelopeToClient h' c envelope = None.
Proof.
  intros Hh%reachable_sound Hb Hout Horder Hm He Hcl Hfull.
  assert (NoDup order) as Hnd by (rewrite Horder; apply NoDup_elements).
  unfold deliver. rewrite Hb.
  destruct (deliverAll m out (withBroadcast rest h) order) as
    (h' & Hfold & _ & _ & _ & Hvis); [done..|].
  exists h'. split; [done|].
  specialize (Hvis c client). rewrite decide_False in Hvis by lia.
  destruct Hvis as [Hcl' Hout']; try done.
  { rewrite Horder. by apply elem_of_elements. }
  split; [done|].
  unfold sendEnvelopeToClient. rewrite Hcl'. done.
Qed.

Lemma dropped_client_cannot_be_answered_witness :
  ∃ h', deliver (BroadcastEnvelope slowRoom "r1" chat) [2; 1] = Some h'
        ∧ (2 ∉ members h' "r1")
        ∧ sendEnvelopeToClient h' 2 chat = None.
Proof.
  apply (dropped_client_cannot_be_answered (BroadcastEnvelope slowRoom "r1" chat)
           {| bRoomID := "r1"; bEvent := None; bEnvelope := Some chat;
              bExcludeClient := None |} [] (Envelope chat) [2; 1] 2 slowBob chat).
  - apply reach_post, slowRoom_reachable.
  - reflexivity.
  - reflexivity.
  - apply (bool_decide_unpack _). vm_compute. exact I.
  - apply (bool_decide_unpack _). vm_compute. exact I.
  - discriminate.
  - vm_compute. reflexivity.
  - vm_compute. lia.
Defined.

Lemma difference_not_elem (X : gset nat) (c : nat) : c ∉ X → X ∖ {[ c ]} = X.
Proof.
  intros Hc. apply difference_disjoint_L. by apply disjoint_singleton_r.
Qed.

Lemma GetRoomClientCount_members h r :
  GetRoomClientCount h r = Z.of_nat (size (members h r)).
Proof.
  unfold GetRoomClientCount, members. by destruct (rooms h !! r).
Qed.

(** X27.  Unregistering closes a client once: a member leaves its room,
    which then counts one client less (and is forgotten when it was the
    last), and its channel is closed; a client that is not, or no longer, a
    member of its room is left alone, so that a second unregister request
    changes nothing. *)
Theorem unregister_closes_once (h : Hub) (c : nat) (client : Client) :
  reachable h → clients h !! c = Some client →
  ∃ h', unregister h c = Some h'
    ∧ unregister h' c = Some h'
    ∧ (∀ r, GetRoomClientCount h' r
            = (GetRoomClientCount h r
               - if decide (r = RoomID client ∧ c ∈ members h r) then 1 else 0)%Z)
    ∧ (∀ r, members h' r = members h r ∖ {[ c ]})
    ∧ (∀ c', c' ≠ c → clients h' !! c' = clients h !! c')
    ∧ clients h' !! c
      = Some (if decide (c ∈ members h (RoomID client))
              then withSend {| buf := buf (send client); closed := true |} client
              else client).
Proof.
  intros Hh%reachable_sound Hc.
  assert (∀ r, r ≠ RoomID client → c ∉ members h r) as Hother.
  { intros r Hne Hin. unfold members in Hin.
    destruct (rooms h !! r) as [room|] eqn:Hroom; [|set_solver].
    destruct (Hh _ _ _ Hroom Hin) as (cl & ? & ? & _). congruence. }
  unfold unregister at 1. rewrite Hc. cbn.
  destruct (rooms h !! RoomID client) as [room|] eqn:Hroom.
  2:{ assert (c ∉ members h (RoomID client)) as Hnot
        by (unfold members; rewrite Hroom; set_solver).
      exists h. split; [done|]. split.
      { unfold unregister. rewrite Hc. cbn. by rewrite Hroom. }
      split.
      { intros r. rewrite decide_False; [lia|]. by intros [-> ?]. }
      split.
      { intros r. destruct (decide (r = RoomID client)) as [->|Hne].
        - by rewrite difference_not_elem.
        - by rewrite difference_not_elem by (by apply Hother). }
      split; [done|]. by rewrite decide_False. }
  case_decide as Hin.
  2:{ assert (c ∉ members h (RoomID client)) as Hnot
        by (unfold members; rewrite Hroom; done).
      exists h. split; [done|]. split.
      { unfold unregister. rewrite Hc. cbn. rewrite Hroom. by rewrite decide_False. }
      split.
      { intros r. rewrite decide_False; [lia|]. by intros [-> ?]. }
      split.
      { intros r. destruct (decide (r = RoomID client)) as [->|Hne].
        - by rewrite difference_not_elem.
        - by rewrite difference_not_elem by (by apply Hother). }
      split; [done|]. by rewrite decide_False. }
  destruct (Hh _ _ _ Hroom Hin) as (cl & Hcl & _ & Hopen).
  assert (cl = client) as -> by congruence.
  assert (c ∈ members h (RoomID client)) as Hmem
    by (unfold members; rewrite Hroom; done).
  unfold close. rewrite Hopen. cbn.
  eexists. split; [done|].
  assert (∀ r, members
                 (withRooms
                    (if decide (size (room ∖ {[c]}) = 0)
                     then delete (RoomID client) (rooms h)
                     else <[RoomID client:=room ∖ {[c]}]> (rooms h))
                    (withClients
                       (<[c:=withSend {| buf := buf (send client); closed := true |}
                               client]> (clients h)) h)) r
               = members h r ∖ {[ c ]}) as Hmembers.
  { intros r. unfold members. cbn [rooms withRooms withClients].
    destruct (decide (r = RoomID client)) as [->|Hne].
    - rewrite Hroom. case_decide as Hsize.
      + rewrite lookup_delete_eq. cbn. apply size_empty_inv in Hsize.
        by apply leibniz_equiv in Hsize.
      + by rewrite lookup_insert_eq.
    - assert (c ∉ default ∅ (rooms h !! r)) as Hnot by (apply (Hother r Hne)).
      case_decide.
      + rewrite lookup_delete_ne by done. by rewrite difference_not_elem.
      + rewrite lookup_insert_ne by done. by rewrite difference_not_elem. }
  split; [|split; [|split; [exact Hmembers|split]]].
  - unfold unregister. cbn [clients withRooms withClients].
    rewrite lookup_insert_eq. cbn.
    cbn [rooms withRooms withClients RoomID withSend].
    case_decide as Hsize; [by rewrite lookup_delete_eq|].
    rewrite lookup_insert_eq. rewrite decide_False; [done|].
    rewrite elem_of_difference, not_elem_of_singleton. tauto.
  - intros r. rewrite !GetRoomClientCount_members, Hmembers.
    destruct (decide (r = RoomID client ∧ c ∈ members h r)) as [[-> _]|Hno].
    + rewrite size_difference by (by apply singleton_subseteq_l).
      rewrite size_singleton.
      assert (size (members h (RoomID client)) ≠ 0); [|lia].
      intros Hz%size_empty_inv. rewrite Hz in Hmem.
      by apply not_elem_of_empty in Hmem.
    + assert (c ∉ members h r) as Hnot.
      { destruct (decide (r = RoomID client)) as [->|Hne]; [tauto|by apply Hother]. }
      rewrite difference_not_elem by done. lia.
  - intros c' Hne. cbn [clients withRooms withClients]. by rewrite lookup_insert_ne.
  - cbn [clients withRooms withClients]. rewrite lookup_insert_eq.
    by rewrite decide_True.
Qed.

Lemma unregister_closes_once_witness :
  ∃ h', unregister roomOfTwo 2 = Some h'
        ∧ unregister h' 2 = Some h'
        ∧ GetRoomClientCount h' "r1" = 1%Z
        ∧ clients h' !! 2 = Some (withSend {| buf := []; closed := true |} bob).
Proof.
  destruct (unregister_closes_once roomOfTwo 2 bob)
    as (h' & Hfirst & Hsecond & Hcount & _ & _ & Hclosed).
  - apply roomOfTwo_reachable.
  - vm_compute. reflexivity.
  - exists h'. split; [exact Hfirst|]. split; [exact Hsecond|]. split.
    + rewrite (Hcount "r1"). vm_compute. reflexivity.
    + rewrite Hclosed. vm_compute. reflexivity.
Defined.

End HubLoop.
